(** * Memory search refinement: temporal decay and MMR re-ranking

    A shallow embedding of [src/memory/temporal-decay.ts] (the temporal-decay
    scoring stage and the Maximal Marginal Relevance re-ranking stage) and the
    properties its specification states about it.

    Modelling conventions.
    - A JavaScript [number] is a [number] below: [NaN], the two infinities, or
      a finite value carried as an exact real.  Comparisons and arithmetic on
      the special values follow IEEE 754 / ECMAScript; finite arithmetic is
      exact (no rounding, overflow or underflow) and there is a single zero.
      A statement that holds of the code only where a subtraction of scores
      does not overflow says so ([spreadFits]).  The decay law and the
      normalisation of scores, where overflow and the special values of
      [Math.exp] decide, are given on binary64 values as well ([Binary64]).
    - A JavaScript string is a [string] of 8-bit code units (Latin-1).
    - [Set<string>] is [gset string], [Map<string, V>] is [gmap string V].
    - Objects are known through references: the generic parameter [T] of the
      source is a type with decidable equality (reference identity) together
      with a function reading the fields the code uses.
    - The stages are given twice: as functions on lists, and as computations
      on a heap of cells (arrays, sets, maps and objects, [Stateful]) that
      read, allocate and write cells as the code does.  [HeapFacts] relates
      the two and shows which cells are written. *)

From Stdlib Require Import PrimFloat.
From Stdlib Require Import Reals Lra Lia ZArith String Ascii List Sorting.Sorted.
From Stdlib Require Import FunctionalExtensionality.
From stdpp Require Import gmap strings list pretty.

#[global] Instance Rlt_decision (x y : R) : Decision (x < y)%R := Rlt_dec x y.
#[global] Instance Rle_decision (x y : R) : Decision (x <= y)%R := Rle_dec x y.
#[global] Instance Req_decision : EqDecision R := Req_dec_T.

(** ** JavaScript numbers *)

Inductive number : Type :=
  | NaN
  | NegInf
  | Fin (r : R)
  | PosInf.

Module Num.
Local Open Scope R_scope.

(** [Number.isFinite]. *)
Definition isFinite (x : number) : bool :=
  match x with Fin _ => true | _ => false end.

Definition isNaN (x : number) : bool :=
  match x with NaN => true | _ => false end.

(** [a < b]; any comparison with [NaN] is false. *)
Definition lt (a b : number) : bool :=
  match a, b with
  | NaN, _ | _, NaN => false
  | Fin x, Fin y => bool_decide (x < y)
  | NegInf, NegInf => false
  | NegInf, _ => true
  | Fin _, PosInf => true
  | _, _ => false
  end.

Definition gt (a b : number) : bool := lt b a.

(** [a === b] on numbers; [NaN] is not equal to itself. *)
Definition eq (a b : number) : bool :=
  match a, b with
  | Fin x, Fin y => bool_decide (x = y)
  | NegInf, NegInf | PosInf, PosInf => true
  | _, _ => false
  end.

Definition le (a b : number) : bool := lt a b || eq a b.

Definition neg (a : number) : number :=
  match a with
  | NaN => NaN
  | NegInf => PosInf
  | Fin x => Fin (- x)
  | PosInf => NegInf
  end.

Definition add (a b : number) : number :=
  match a, b with
  | NaN, _ | _, NaN => NaN
  | Fin x, Fin y => Fin (x + y)
  | PosInf, NegInf | NegInf, PosInf => NaN
  | PosInf, _ | _, PosInf => PosInf
  | NegInf, _ | _, NegInf => NegInf
  end.

(** [a - b]; exact on finite operands, where binary64 rounds and, beyond
    [MAX_VALUE], overflows to an infinity. *)
Definition sub (a b : number) : number :=
  match a, b with
  | Fin x, Fin y => Fin (x - y)
  | _, _ => add a (neg b)
  end.

(** The sign of a number that is not [NaN]: [-1], [0] or [1]. *)
Definition sgn (a : number) : Z :=
  match a with
  | NaN => 0
  | NegInf => -1
  | Fin x => if bool_decide (x < 0) then -1 else if bool_decide (0 < x) then 1 else 0
  | PosInf => 1
  end.

Definition signedInf (s : Z) : number :=
  match s with
  | Z0 => NaN
  | Zpos _ => PosInf
  | Zneg _ => NegInf
  end.

Definition mul (a b : number) : number :=
  match a, b with
  | NaN, _ | _, NaN => NaN
  | Fin x, Fin y => Fin (x * y)
  | _, _ => signedInf (sgn a * sgn b)
  end.

(** [a / b]; exact on finite operands, where binary64 rounds, overflows
    and underflows. *)
Definition div (a b : number) : number :=
  match a, b with
  | NaN, _ | _, NaN => NaN
  | Fin x, Fin y =>
      if bool_decide (y = 0) then signedInf (sgn a) else Fin (x / y)
  | Fin _, _ => Fin 0
  | _, Fin _ => signedInf (sgn a * (if bool_decide (sgn b = (-1)%Z) then -1 else 1))
  | _, _ => NaN
  end.

(** [Math.max(a, b)] and [Math.min(a, b)]: [NaN] if either is. *)
Definition max (a b : number) : number :=
  match a, b with
  | NaN, _ | _, NaN => NaN
  | _, _ => if lt a b then b else a
  end.

Definition min (a b : number) : number :=
  match a, b with
  | NaN, _ | _, NaN => NaN
  | _, _ => if lt b a then b else a
  end.

(** [Math.max(...xs)] and [Math.min(...xs)]; the empty spread gives
    [-Infinity] and [+Infinity]. *)
Definition maxList (xs : list number) : number := foldl max NegInf xs.
Definition minList (xs : list number) : number := foldl min PosInf xs.

(** [Math.exp] and [Math.LN2], as the exact exponential and logarithm; in
    binary64 [Math.exp] is an approximation that underflows to zero. *)
Definition exp (a : number) : number :=
  match a with
  | NaN => NaN
  | NegInf => Fin 0
  | Fin x => Fin (Rtrigo_def.exp x)
  | PosInf => PosInf
  end.

Definition LN2 : number := Fin (ln 2).

Definition ofZ (z : Z) : number := Fin (IZR z).

(** [Number.MAX_VALUE], the largest finite binary64 value:
    [(2^53 - 1) * 2^971]. *)
Definition MAX_VALUE : R := IZR (2 ^ 1024 - 2 ^ 971).

End Num.

Declare Scope num_scope.
Delimit Scope num_scope with num.
Bind Scope num_scope with number.
Infix "+" := Num.add : num_scope.
Infix "-" := Num.sub : num_scope.
Infix "*" := Num.mul : num_scope.
Infix "/" := Num.div : num_scope.
Notation "- x" := (Num.neg x) : num_scope.
Infix "<?" := Num.lt : num_scope.
Infix ">?" := Num.gt : num_scope.
Infix "<=?" := Num.le : num_scope.
Infix "=?" := Num.eq : num_scope.

(** ** Strings *)

Module Str.
Local Open Scope char_scope.

Definition code (c : ascii) : N := N_of_ascii c.

Definition between (lo hi c : ascii) : bool :=
  ((code lo <=? code c) && (code c <=? code hi))%N.

(** [String.prototype.toLowerCase] on Latin-1 code units: [A-Z] and the
    accented capitals U+00C0..U+00DE (except the multiplication sign) move
    up by 32. *)
Definition lowerChar (c : ascii) : ascii :=
  if between "A" "Z" c
     || (((192 <=? code c) && (code c <=? 222))%N && negb (code c =? 215)%N)
  then ascii_of_N (code c + 32) else c.

Fixpoint toLowerCase (s : string) : string :=
  match s with
  | EmptyString => EmptyString
  | String c s' => String (lowerChar c) (toLowerCase s')
  end.

(** The character class [[a-z0-9_]]. *)
Definition isWordChar (c : ascii) : bool :=
  between "a" "z" c || between "0" "9" c || bool_decide (c = "_").

(** [\d] (without the unicode flag): ASCII digits only. *)
Definition isDigit (c : ascii) : bool := between "0" "9" c.

Definition flush (cur : string) : list string :=
  match cur with EmptyString => [] | _ => [cur] end.

(** [s.match(/[a-z0-9_]+/g) ?? []]: the maximal runs of word characters,
    left to right.  [cur] is the run being read. *)
Fixpoint matchWordsGo (cur : string) (s : string) : list string :=
  match s with
  | EmptyString => flush cur
  | String c s' =>
      if isWordChar c then matchWordsGo (cur +:+ String c EmptyString) s'
      else flush cur ++ matchWordsGo EmptyString s'
  end.

Definition matchWords (s : string) : list string := matchWordsGo EmptyString s.
End Str.

(** ** Calendar arithmetic of ECMAScript [Date]

    Time values are integers (milliseconds since the epoch, UTC).  The
    definitions follow ECMA-262, "Time Values and Time Range" onwards. *)

Module JSDate.
Local Open Scope Z_scope.

Definition msPerDay : Z := 86400000.

Definition Day (t : Z) : Z := t / msPerDay.

Definition isLeapYear (y : Z) : bool :=
  bool_decide (y mod 4 = 0) && (negb (bool_decide (y mod 100 = 0)) || bool_decide (y mod 400 = 0)).

Definition DaysInYear (y : Z) : Z := if isLeapYear y then 366 else 365.

Definition DayFromYear (y : Z) : Z :=
  365 * (y - 1970) + (y - 1969) / 4 - (y - 1901) / 100 + (y - 1601) / 400.

(** The largest [y] with [DayFromYear y <= d]: the estimate from the mean
    length of a year is off by at most one. *)
Definition YearFromDay (d : Z) : Z :=
  let y := 1970 + (400 * d) / 146097 in
  if bool_decide (DayFromYear (y + 1) <= d) then y + 1
  else if bool_decide (DayFromYear y <= d) then y
  else y - 1.

Definition YearFromTime (t : Z) : Z := YearFromDay (Day t).

Definition DayWithinYear (t : Z) : Z := Day t - DayFromYear (YearFromTime t).

Definition InLeapYear (t : Z) : Z := if isLeapYear (YearFromTime t) then 1 else 0.

Definition MonthFromTime (t : Z) : Z :=
  let d := DayWithinYear t in
  let l := InLeapYear t in
  if bool_decide (d < 31) then 0
  else if bool_decide (d < 59 + l) then 1
  else if bool_decide (d < 90 + l) then 2
  else if bool_decide (d < 120 + l) then 3
  else if bool_decide (d < 151 + l) then 4
  else if bool_decide (d < 181 + l) then 5
  else if bool_decide (d < 212 + l) then 6
  else if bool_decide (d < 243 + l) then 7
  else if bool_decide (d < 273 + l) then 8
  else if bool_decide (d < 304 + l) then 9
  else if bool_decide (d < 334 + l) then 10
  else 11.

Definition DateFromTime (t : Z) : Z :=
  let d := DayWithinYear t in
  let l := InLeapYear t in
  match MonthFromTime t with
  | 0 => d + 1
  | 1 => d - 30
  | 2 => d - 58 - l
  | 3 => d - 89 - l
  | 4 => d - 119 - l
  | 5 => d - 150 - l
  | 6 => d - 180 - l
  | 7 => d - 211 - l
  | 8 => d - 242 - l
  | 9 => d - 272 - l
  | 10 => d - 303 - l
  | _ => d - 333 - l
  end.

(** The day number of the first day of month [mn] (0 to 11) of year [ym]. *)
Definition monthStart (ym mn : Z) : Z :=
  let l := if isLeapYear ym then 1 else 0 in
  DayFromYear ym +
  match mn with
  | 0 => 0
  | 1 => 31
  | 2 => 59 + l
  | 3 => 90 + l
  | 4 => 120 + l
  | 5 => 151 + l
  | 6 => 181 + l
  | 7 => 212 + l
  | 8 => 243 + l
  | 9 => 273 + l
  | 10 => 304 + l
  | _ => 334 + l
  end.

Definition MakeDay (year month date : Z) : Z :=
  let ym := year + month / 12 in
  let mn := month mod 12 in
  monthStart ym mn + date - 1.

Definition MakeDate (day time : Z) : Z := day * msPerDay + time.

(** [TimeClip]: [None] stands for [NaN]. *)
Definition TimeClip (t : Z) : option Z :=
  if bool_decide (8640000000000000 < Z.abs t) then None else Some t.

(** [Date.UTC(year, month, date)] on integer arguments. *)
Definition UTC (year month date : Z) : option Z :=
  let yr := if bool_decide (0 <= year <= 99) then 1900 + year else year in
  TimeClip (MakeDate (MakeDay yr month date) 0).

(** The number of days of month [m] (1 to 12) in year [y]. *)
Definition daysInMonth (y m : Z) : Z :=
  match m with
  | 2 => if isLeapYear y then 29 else 28
  | 4 | 6 | 9 | 11 => 30
  | _ => 31
  end.

Definition validDate (y m d : Z) : Prop :=
  1 <= m <= 12 ∧ 1 <= d <= daysInMonth y m.
End JSDate.

(** A [Date] object: its time value, or [NaN] for an invalid date. *)
Inductive Date : Type :=
  | InvalidDate
  | DateAt (t : Z).

Definition getTime (d : Date) : number :=
  match d with
  | InvalidDate => NaN
  | DateAt t => Num.ofZ t
  end.

(** [new Date(value)] for a number: [TimeClip], which also drops the
    fraction of a millisecond (towards zero). *)
Definition truncR (x : R) : Z :=
  if bool_decide (0 <= x)%R then Int_part x else (- Int_part (- x))%Z.

Definition newDate (value : number) : Date :=
  match value with
  | Fin x =>
      if bool_decide (8640000000000000 < Rabs x)%R then InvalidDate
      else DateAt (truncR x)
  | _ => InvalidDate
  end.

(** ** Hybrid search results *)

(** The fields of a hybrid search result that the two stages read. *)
Module Hybrid.
Record HybridResult : Type := mkHybridResult {
  path : string;
  startLine : Z;
  score : number;
  snippet : string;
  source : string;
}.
End Hybrid.

(** ** Maximal Marginal Relevance re-ranking *)

Module MMR.

Record MMRItem : Type := mkMMRItem {
  id : string;
  score : number;
  content : string;
}.

Record MMRConfig : Type := mkMMRConfig {
  enabled : bool;
  lambda : number;
}.

(** [Partial<MMRConfig>]: every field may be missing. *)
Record PartialMMRConfig : Type := mkPartialMMRConfig {
  enabled_opt : option bool;
  lambda_opt : option number;
}.

Definition DEFAULT_MMR_CONFIG : MMRConfig :=
  {| enabled := false; lambda := Fin 0.7 |}.

Definition tokenize (text : string) : gset string :=
  list_to_set (Str.matchWords (Str.toLowerCase text)).

(** The loop of [jaccardSimilarity] that counts the tokens of [smaller] found
    in [larger]. *)
Definition countShared (smaller larger : gset string) : Z :=
  foldl (λ n token, if decide (token ∈ larger) then (n + 1)%Z else n) 0%Z
        (elements smaller).

Definition jaccardSimilarity (setA setB : gset string) : number :=
  if bool_decide (size setA = 0%nat) && bool_decide (size setB = 0%nat) then Fin 1
  else if bool_decide (size setA = 0%nat) || bool_decide (size setB = 0%nat) then Fin 0
  else
    let smaller := if bool_decide (size setA ≤ size setB)%nat then setA else setB in
    let larger := if bool_decide (size setA ≤ size setB)%nat then setB else setA in
    let intersectionSize := countShared smaller larger in
    let unionSize := (Z.of_nat (size setA) + Z.of_nat (size setB) - intersectionSize)%Z in
    if bool_decide (unionSize = 0%Z) then Fin 0
    else (Num.ofZ intersectionSize / Num.ofZ unionSize)%num.

Definition textSimilarity (contentA contentB : string) : number :=
  jaccardSimilarity (tokenize contentA) (tokenize contentB).

Definition computeMMRScore (relevance maxSimilarity lambda : number) : number :=
  (lambda * relevance - (Fin 1 - lambda) * maxSimilarity)%num.

(** [toSorted(compare)]: a stable sort.  [compare a b] negative puts [a]
    first, positive puts [b] first, zero or [NaN] keeps the input order.
    Where the comparator is a consistent ordering every stable sort gives this
    result. *)
Section ToSorted.
Context {A : Type} (compare : A → A → number).

Fixpoint sortedInsert (x : A) (l : list A) : list A :=
  match l with
  | [] => [x]
  | y :: l' =>
      if (compare y x <? Fin 0)%num then y :: sortedInsert x l' else x :: y :: l'
  end.

Definition toSorted (l : list A) : list A := foldr sortedInsert [] l.
End ToSorted.

Section Rerank.
(** [T extends MMRItem]: [T] is the type of item objects, compared by
    reference, and [item t] reads the three fields of [t]. *)
Context {T : Type} `{EqDecision T} (item : T → MMRItem).

Definition tokensOf (tokenCache : gmap string (gset string)) (t : T) : gset string :=
  default (tokenize (content (item t))) (tokenCache !! id (item t)).

Definition maxSimilarityToSelected
    (t : T) (selectedItems : list T) (tokenCache : gmap string (gset string)) : number :=
  match selectedItems with
  | [] => Fin 0
  | _ =>
      let itemTokens := tokensOf tokenCache t in
      foldl (λ maxSim selected,
               let sim := jaccardSimilarity itemTokens (tokensOf tokenCache selected) in
               if (sim >? maxSim)%num then sim else maxSim)
            (Fin 0) selectedItems
  end.

(** [new Set(items)]: the distinct references, in order of first occurrence. *)
Fixpoint newSet (items : list T) : list T :=
  match items with
  | [] => []
  | x :: l => x :: filter (λ y, y ≠ x) (newSet l)
  end.

(** [remaining.delete(x)]. *)
Definition setDelete (x : T) (s : list T) : list T := filter (λ y, y ≠ x) s.

Section Greedy.
Variables (clampedLambda minScore scoreRange : number).
Variable tokenCache : gmap string (gset string).

Definition normalizeScore (s : number) : number :=
  if (scoreRange =? Fin 0)%num then Fin 1
  else ((s - minScore) / scoreRange)%num.

(** One pass of the inner [for] loop over a candidate; the state is
    [(bestItem, bestMMRScore)]. *)
Definition considerCandidate (selected : list T)
    (st : option T * number) (candidate : T) : option T * number :=
  let '(bestItem, bestMMRScore) := st in
  let normalizedRelevance := normalizeScore (score (item candidate)) in
  let maxSim := maxSimilarityToSelected candidate selected tokenCache in
  let mmrScore := computeMMRScore normalizedRelevance maxSim clampedLambda in
  if (mmrScore >? bestMMRScore)%num
     || ((mmrScore =? bestMMRScore)%num
         && (score (item candidate)
             >? match bestItem with Some b => score (item b) | None => NegInf end)%num)
  then (Some candidate, mmrScore)
  else (bestItem, bestMMRScore).

Definition pickBest (selected remaining : list T) : option T :=
  fst (foldl (considerCandidate selected) (None, NegInf) remaining).

(** The [while (remaining.size > 0)] loop.  Every round that does not
    [break] removes one element of [remaining], so [length remaining]
    rounds are enough. *)
Fixpoint selectLoop (rounds : nat) (selected remaining : list T) : list T :=
  match rounds with
  | O => selected
  | S rounds' =>
      match remaining with
      | [] => selected
      | _ =>
          match pickBest selected remaining with
          | Some bestItem =>
              selectLoop rounds' (selected ++ [bestItem]) (setDelete bestItem remaining)
          | None => selected
          end
      end
  end.
End Greedy.

Definition buildTokenCache (items : list T) : gmap string (gset string) :=
  foldl (λ cache t, <[id (item t) := tokenize (content (item t))]> cache) ∅ items.

(** The part of [mmrRerank] after the early exits and the [lambda = 1]
    shortcut: normalisation and greedy selection. *)
Definition mmrGreedy (clampedLambda : number) (items : list T) : list T :=
  let tokenCache := buildTokenCache items in
  let maxScore := Num.maxList (map (λ i, score (item i)) items) in
  let minScore := Num.minList (map (λ i, score (item i)) items) in
  let scoreRange := (maxScore - minScore)%num in
  let remaining := newSet items in
  selectLoop clampedLambda minScore scoreRange tokenCache
             (length remaining) [] remaining.

Definition byScoreDesc (a b : T) : number :=
  (score (item b) - score (item a))%num.

Definition mmrRerank (items : list T) (config : PartialMMRConfig) : list T :=
  let enabled := default (enabled DEFAULT_MMR_CONFIG) (enabled_opt config) in
  let lambda := default (lambda DEFAULT_MMR_CONFIG) (lambda_opt config) in
  if negb enabled || bool_decide (length items ≤ 1)%nat then items
  else
    let clampedLambda := Num.max (Fin 0) (Num.min (Fin 1) lambda) in
    if (clampedLambda =? Fin 1)%num then toSorted byScoreDesc items
    else mmrGreedy clampedLambda items.
End Rerank.

#[global] Instance MMRItem_inhabited : Inhabited MMRItem :=
  populate {| id := ""; score := NaN; content := "" |}.

Section Adapter.
Context {T : Type} (fields : T → Hybrid.HybridResult).

(** The [MMRItem] made for the result at position [index]. *)
Definition toMMRItem (index : nat) (r : T) : MMRItem :=
  {| id := Hybrid.path (fields r) +:+ ":" +:+ pretty (Hybrid.startLine (fields r))
           +:+ ":" +:+ pretty index;
     score := Hybrid.score (fields r);
     content := Hybrid.snippet (fields r) |}.

(** [itemById] after the [map] over [results]. *)
Definition buildItemById (results : list T) : gmap string T :=
  foldl (λ m ir, <[id (toMMRItem ir.1 ir.2) := ir.2]> m) ∅
        (zip (seq 0 (length results)) results).

(** The new item objects are known by their position in [mmrItems].  An
    entry of the result is [None] where [itemById.get] finds nothing. *)
Definition applyMMRToHybridResults (results : list T) (config : PartialMMRConfig)
  : list (option T) :=
  match results with
  | [] => []
  | _ =>
      let mmrItems := imap toMMRItem results in
      let itemById := buildItemById results in
      let reranked :=
        mmrRerank (λ i : nat, mmrItems !!! i) (seq 0 (length mmrItems)) config in
      (λ i, itemById !! id (mmrItems !!! i)) <$> reranked
  end.
End Adapter.

End MMR.

(** ** Temporal decay *)

Module TemporalDecay.

Record TemporalDecayConfig : Type := mkTemporalDecayConfig {
  enabled : bool;
  halfLifeDays : number;
}.

(** [Partial<TemporalDecayConfig>]. *)
Record PartialTemporalDecayConfig : Type := mkPartialTemporalDecayConfig {
  enabled_opt : option bool;
  halfLifeDays_opt : option number;
}.

Definition DEFAULT_TEMPORAL_DECAY_CONFIG : TemporalDecayConfig :=
  {| enabled := false; halfLifeDays := Fin 30 |}.

Definition DAY_MS : number := Fin (24 * 60 * 60 * 1000).

(** [{ ...DEFAULT_TEMPORAL_DECAY_CONFIG, ...params.temporalDecay }]. *)
Definition mergeConfig (p : option PartialTemporalDecayConfig) : TemporalDecayConfig :=
  match p with
  | None => DEFAULT_TEMPORAL_DECAY_CONFIG
  | Some p =>
      {| enabled := default (enabled DEFAULT_TEMPORAL_DECAY_CONFIG) (enabled_opt p);
         halfLifeDays :=
           default (halfLifeDays DEFAULT_TEMPORAL_DECAY_CONFIG) (halfLifeDays_opt p) |}
  end.

Definition toDecayLambda (halfLifeDays : number) : number :=
  if negb (Num.isFinite halfLifeDays) || (halfLifeDays <=? Fin 0)%num then Fin 0
  else (Num.LN2 / halfLifeDays)%num.

Definition calculateTemporalDecayMultiplier (ageInDays halfLifeDays : number) : number :=
  let lambda := toDecayLambda halfLifeDays in
  let clampedAge := Num.max (Fin 0) ageInDays in
  if (lambda <=? Fin 0)%num || negb (Num.isFinite clampedAge) then Fin 1
  else Num.exp ((- lambda) * clampedAge)%num.

Definition applyTemporalDecayToScore (score ageInDays halfLifeDays : number) : number :=
  (score * calculateTemporalDecayMultiplier ageInDays halfLifeDays)%num.

(** *** Paths *)

Local Open Scope string_scope.

(** [filePath.replaceAll("\\", "/")]. *)
Fixpoint replaceBackslashes (s : string) : string :=
  match s with
  | EmptyString => EmptyString
  | String c s' =>
      String (if bool_decide (c = "\"%char) then "/"%char else c) (replaceBackslashes s')
  end.

(** [.replace(/^\.\//, "")]. *)
Definition stripDotSlash (s : string) : string :=
  match s with
  | String c1 (String c2 s') =>
      if bool_decide (c1 = "."%char) && bool_decide (c2 = "/"%char) then s' else s
  | _ => s
  end.

Definition normalizePath (filePath : string) : string :=
  stripDotSlash (replaceBackslashes filePath).

Fixpoint allDigits (s : string) : bool :=
  match s with
  | EmptyString => true
  | String c s' => Str.isDigit c && allDigits s'
  end.

(** [memory\/(\d{4})-(\d{2})-(\d{2})\.md$] against the whole of [s]: the
    three captured groups. *)
Definition matchDatedTail (s : string) : option (string * string * string) :=
  let y := substring 7 4 s in
  let m := substring 12 2 s in
  let d := substring 15 2 s in
  if bool_decide (s = "memory/" +:+ y +:+ "-" +:+ m +:+ "-" +:+ d +:+ ".md")
     && bool_decide (String.length y = 4%nat) && allDigits y
     && bool_decide (String.length m = 2%nat) && allDigits m
     && bool_decide (String.length d = 2%nat) && allDigits d
  then Some (y, m, d) else None.

(** [DATED_MEMORY_PATH_RE.exec(s)]: the leftmost match.  [boundary] says
    whether the current position is the start of the string or follows a
    slash, as [(?:^|\/)] requires. *)
Fixpoint execDatedFrom (boundary : bool) (s : string) : option (string * string * string) :=
  match (if boundary then matchDatedTail s else None) with
  | Some groups => Some groups
  | None =>
      match s with
      | EmptyString => None
      | String c s' => execDatedFrom (bool_decide (c = "/"%char)) s'
      end
  end.

Definition DATED_MEMORY_PATH_RE_exec (s : string) : option (string * string * string) :=
  execDatedFrom true s.

Definition DATED_MEMORY_PATH_RE_test (s : string) : bool :=
  bool_decide (is_Some (DATED_MEMORY_PATH_RE_exec s)).

(** [Number(digits)] for a string of decimal digits. *)
Definition digitsToZ (s : string) : Z :=
  foldl (λ n c, 10 * n + Z.of_N (Str.code c) - 48)%Z 0%Z (list_ascii_of_string s).

Definition parseMemoryDateFromPath (filePath : string) : option Date :=
  let normalized := normalizePath filePath in
  match DATED_MEMORY_PATH_RE_exec normalized with
  | None => None
  | Some (g1, g2, g3) =>
      let year := digitsToZ g1 in
      let month := digitsToZ g2 in
      let day := digitsToZ g3 in
      (* the three are integers, so the [Number.isInteger] guard passes *)
      match JSDate.UTC year (month - 1) day with
      | None => None (* every getter of an invalid date is [NaN] *)
      | Some timestamp =>
          if negb (bool_decide (JSDate.YearFromTime timestamp = year))
             || negb (bool_decide (JSDate.MonthFromTime timestamp = (month - 1)%Z))
             || negb (bool_decide (JSDate.DateFromTime timestamp = day))
          then None
          else Some (DateAt timestamp)
      end
  end.

Definition startsWith (s prefix : string) : bool := String.prefix prefix s.

Definition isEvergreenMemoryPath (filePath : string) : bool :=
  let normalized := normalizePath filePath in
  if bool_decide (normalized = "MEMORY.md") || bool_decide (normalized = "memory.md") then true
  else if negb (startsWith normalized "memory/") then false
  else negb (DATED_MEMORY_PATH_RE_test normalized).

Definition ageInDaysFromTimestamp (timestamp : Date) (nowMs : number) : number :=
  let ageMs := Num.max (Fin 0) (nowMs - getTime timestamp)%num in
  (ageMs / DAY_MS)%num.

(** What the decay stage puts in the output array for an entry: the entry
    object itself, or a new object [{ ...entry, score }]. *)
Inductive Output (T : Type) : Type :=
  | Kept (entry : T)
  | Rescored (entry : T) (score : number).
Arguments Kept {T} entry.
Arguments Rescored {T} entry score.

(** The parameter object of [applyTemporalDecayToHybridResults]. *)
Record Params (T : Type) : Type := mkParams {
  results : list T;
  temporalDecay : option PartialTemporalDecayConfig;
  workspaceDir : option string;
  nowMs : option number;
}.
Arguments mkParams {T} _ _ _ _.
Arguments results {T} _.
Arguments temporalDecay {T} _.
Arguments workspaceDir {T} _.
Arguments nowMs {T} _.

Section WithEnvironment.
(** The collaborators outside the repository: [path.isAbsolute],
    [path.resolve], [fs.stat] (its [mtimeMs], or [None] when the promise
    rejects) and the clock read by [Date.now()]. *)
Variable isAbsolute : string → bool.
Variable resolve : string → string → string.
Variable stat : string → option number.
Variable clock : number.

(** The result of [extractTimestamp] and the paths it passed to
    [fs.stat], in order. *)
Definition extractTimestamp
    (filePath : string) (source workspaceDir : option string)
  : option Date * list string :=
  match parseMemoryDateFromPath filePath with
  | Some fromPath => (Some fromPath, [])
  | None =>
      if bool_decide (source = Some "memory") && isEvergreenMemoryPath filePath
      then (None, [])
      else
        match workspaceDir with
        | None | Some EmptyString => (None, [])
        | Some dir =>
            let absolutePath :=
              if isAbsolute filePath then filePath else resolve dir filePath in
            (match stat absolutePath with
             | Some mtimeMs =>
                 if negb (Num.isFinite mtimeMs) then None else Some (newDate mtimeMs)
             | None => None
             end, [absolutePath])
        end
  end.

Section Batch.
Context {T : Type} (fields : T → Hybrid.HybridResult).

(** The loop state: [timestampPromiseCache], the [fs.stat] calls made so
    far, and the output built so far. *)
Record BatchState : Type := mkBatchState {
  cache : gmap string (option Date);
  lookups : list string;
  output : list (Output T);
}.

Definition decayEntry (config : TemporalDecayConfig) (dir : option string)
    (now : number) (st : BatchState) (entry : T) : BatchState :=
  let cacheKey := Hybrid.source (fields entry) +:+ ":" +:+ Hybrid.path (fields entry) in
  let '(timestamp, cache', lookups') :=
    match cache st !! cacheKey with
    | Some cached => (cached, cache st, lookups st)
    | None =>
        let '(ts, paths) :=
          extractTimestamp (Hybrid.path (fields entry)) (Some (Hybrid.source (fields entry))) dir in
        (ts, <[cacheKey := ts]> (cache st), (lookups st ++ paths)%list)
    end in
  let out :=
    match timestamp with
    | None => Kept entry
    | Some ts =>
        Rescored entry
          (applyTemporalDecayToScore (Hybrid.score (fields entry))
             (ageInDaysFromTimestamp ts now) (halfLifeDays config))
    end in
  {| cache := cache'; lookups := lookups'; output := (output st ++ [out])%list |}.

Definition applyTemporalDecayToHybridResults (params : Params T)
  : list (Output T) * list string :=
  let config := mergeConfig (temporalDecay params) in
  if negb (enabled config) then (Kept <$> results params, [])
  else
    let now := default clock (nowMs params) in
    let final :=
      foldl (decayEntry config (workspaceDir params) now)
            {| cache := ∅; lookups := []; output := [] |} (results params) in
    (output final, lookups final).

(** The score an output entry carries. *)
Definition outputScore (o : Output T) : number :=
  match o with
  | Kept entry => Hybrid.score (fields entry)
  | Rescored _ s => s
  end.
End Batch.
End WithEnvironment.
End TemporalDecay.

(** ** The decay law and the normalisation of scores in binary64

    The functions of the decay law and the score arithmetic of [mmrRerank] on
    IEEE 754 binary64 values, the numbers of the code, with the rounding,
    overflow and underflow that the exact arithmetic of [Num] leaves out.  [Math.exp] is implementation-approximated
    in ECMA-262: its value is fixed for [NaN], the infinities and the zeros
    only, and [exp] is [None] elsewhere. *)

Module Binary64.
Local Open Scope float_scope.

(** [Number.isFinite]. *)
Definition isFinite (x : float) : bool := negb (is_nan x) && negb (is_infinity x).

(** [Math.max(a, b)]: [NaN] if either is; [+0] is larger than [-0]. *)
Definition max (a b : float) : float :=
  if is_nan a || is_nan b then nan
  else if a <? b then b
  else if b <? a then a
  else if get_sign a then b else a.

(** [Math.LN2], the binary64 value nearest to ln 2. *)
Definition LN2 : float := 0x1.62e42fefa39efp-1.

(** [Math.exp], where ECMA-262 fixes its value. *)
Definition exp (x : float) : option float :=
  if is_nan x then Some nan
  else if x =? infinity then Some infinity
  else if x =? neg_infinity then Some 0
  else if x =? 0 then Some 1
  else None.

Definition toDecayLambda (halfLifeDays : float) : float :=
  if negb (isFinite halfLifeDays) || (halfLifeDays <=? 0) then 0
  else LN2 / halfLifeDays.

Definition calculateTemporalDecayMultiplier (ageInDays halfLifeDays : float)
  : option float :=
  let lambda := toDecayLambda halfLifeDays in
  let clampedAge := max 0 ageInDays in
  if (lambda <=? 0) || negb (isFinite clampedAge) then Some 1
  else exp ((- lambda) * clampedAge).

Definition applyTemporalDecayToScore (score ageInDays halfLifeDays : float)
  : option float :=
  multiplier ← calculateTemporalDecayMultiplier ageInDays halfLifeDays;
  Some (score * multiplier).

Definition DAY_MS : float := 86400000.

(** [ageInDaysFromTimestamp], given the time value of the timestamp. *)
Definition ageInDaysFromTimestamp (timestampMs nowMs : float) : float :=
  max 0 (nowMs - timestampMs) / DAY_MS.

(** The binary64 value of the literal [1e-320], a subnormal number:
    [2024 * 2^-1074]. *)
Definition tinyHalfLife : float := 0x0.00000000007e8p-1022.

(** [normalizeScore] of [mmrRerank], with the [minScore] and [scoreRange] it
    closes over. *)
Definition normalizeScore (minScore scoreRange score : float) : float :=
  if scoreRange =? 0 then 1 else (score - minScore) / scoreRange.

Definition computeMMRScore (relevance maxSimilarity lambda : float) : float :=
  lambda * relevance - (1 - lambda) * maxSimilarity.
End Binary64.

(** ** Arrays and objects in a heap

    Arrays, sets, maps and objects are cells of a heap, known by their
    addresses.  A stage is a computation on the heap: it reads the cells of
    its input, allocates new cells, and writes to cells ([push], [delete],
    [set]). *)

Module Stateful.
Definition loc := positive.

(** What a cell holds. *)
Inductive cell (O : Type) : Type :=
  | Object (o : O)
  | Item (i : MMR.MMRItem)
  | Array (elements : list loc)
  | Numbers (elements : list number)
  | RefSet (elements : list loc)
  | TokenMap (entries : gmap string (gset string))
  | RefMap (entries : gmap string loc)
  | PromiseMap (entries : gmap string (option Date)).
Arguments Object {O} o.
Arguments Item {O} i.
Arguments Array {O} elements.
Arguments Numbers {O} elements.
Arguments RefSet {O} elements.
Arguments TokenMap {O} entries.
Arguments RefMap {O} entries.
Arguments PromiseMap {O} entries.

Notation heap O := (gmap loc (cell O)) (only parsing).

(** A computation on the heap gives a value and the heap after it, or
    fails. *)
Definition M (O A : Type) : Type := heap O → option (A * heap O).

#[global] Instance M_ret {O : Type} : MRet (M O) := λ A a h, Some (a, h).
#[global] Instance M_bind {O : Type} : MBind (M O) :=
  λ A B k m h, match m h with Some (a, h') => k a h' | None => None end.

Section Cells.
Context {O : Type}.

Definition fail {A : Type} : M O A := λ _, None.

Definition getHeap : M O (heap O) := λ h, Some (h, h).

(** A literal, [new Set(...)], [new Map()], or an array made by a spread,
    [map] or [toSorted]: a new cell. *)
Definition alloc (c : cell O) : M O loc :=
  λ h, let l := fresh (dom h) in Some (l, <[l := c]> h).

(** A write to a cell. *)
Definition store (l : loc) (c : cell O) : M O () := λ h, Some ((), <[l := c]> h).

Definition readArray (a : loc) : M O (list loc) :=
  λ h, match h !! a with Some (Array elements) => Some (elements, h) | _ => None end.

Definition readNumbers (a : loc) : M O (list number) :=
  λ h, match h !! a with Some (Numbers elements) => Some (elements, h) | _ => None end.

Definition readSet (s : loc) : M O (list loc) :=
  λ h, match h !! s with Some (RefSet elements) => Some (elements, h) | _ => None end.

Definition readTokenMap (m : loc) : M O (gmap string (gset string)) :=
  λ h, match h !! m with Some (TokenMap entries) => Some (entries, h) | _ => None end.

Definition readRefMap (m : loc) : M O (gmap string loc) :=
  λ h, match h !! m with Some (RefMap entries) => Some (entries, h) | _ => None end.

Definition readPromiseMap (m : loc) : M O (gmap string (option Date)) :=
  λ h, match h !! m with Some (PromiseMap entries) => Some (entries, h) | _ => None end.

(** [a.push(x)]. *)
Definition push (a x : loc) : M O () :=
  elements ← readArray a; store a (Array (elements ++ [x])).

(** [s.delete(x)]. *)
Definition setDelete (s x : loc) : M O () :=
  elements ← readSet s; store s (RefSet (MMR.setDelete x elements)).

(** Nothing that was in [h] has changed in [h']. *)
Definition preserved (h h' : heap O) : Prop :=
  ∀ l c, h !! l = Some c → h' !! l = Some c.

(** A cell that is not an object. *)
Definition plain (c : cell O) : Prop :=
  match c with
  | Object _ | Item _ => False
  | _ => True
  end.

(** [h'] is [h] and new cells that are not objects. *)
Definition grown (h h' : heap O) : Prop :=
  ∀ l, h' !! l = h !! l ∨ (h !! l = None ∧ ∃ c, h' !! l = Some c ∧ plain c).

(** [m] run on [h] returns, with a value and a heap that satisfy [Q]. *)
Definition wp {A : Type} (m : M O A) (h : heap O) (Q : A → heap O → Prop) : Prop :=
  ∃ a h', m h = Some (a, h') ∧ Q a h'.
End Cells.

Section Stages.
Context {O : Type} `{Inhabited O}.
Context (item : O → MMR.MMRItem) (fields : O → Hybrid.HybridResult).
Context (rescore : O → number → O).

(** The fields [id], [score] and [content] of the object at [r]. *)
Definition itemAt (h : heap O) (r : loc) : MMR.MMRItem :=
  match h !! r with
  | Some (Object o) => item o
  | Some (Item i) => i
  | _ => inhabitant
  end.

Definition objectAt (h : heap O) (r : loc) : O :=
  match h !! r with
  | Some (Object o) => o
  | _ => inhabitant
  end.

(** The fields of the result object at [r]. *)
Definition fieldsAt (h : heap O) (r : loc) : Hybrid.HybridResult := fields (objectAt h r).

(** What stands in the array returned by the decay stage for an entry of
    the output of the function on lists: the entry itself, or a new object
    that is the entry with another score. *)
Definition stands (h h' : heap O) (o : TemporalDecay.Output loc) (out : loc) : Prop :=
  match o with
  | TemporalDecay.Kept entry => out = entry
  | TemporalDecay.Rescored entry s =>
      h !! out = None ∧ h' !! out = Some (Object (rescore (objectAt h entry) s))
  end.

(** *** [mmrRerank] *)

(** [for (const item of items) tokenCache.set(item.id, tokenize(item.content))]. *)
Fixpoint fillTokenCache (tokenCache : loc) (items : list loc) : M O () :=
  match items with
  | [] => mret ()
  | i :: rest =>
      h ← getHeap;
      entries ← readTokenMap tokenCache;
      store tokenCache
        (TokenMap (<[MMR.id (itemAt h i) := MMR.tokenize (MMR.content (itemAt h i))]> entries));;
      fillTokenCache tokenCache rest
  end.

(** The [while (remaining.size > 0)] loop; the inner [for] loop only reads. *)
Fixpoint selectLoop (rounds : nat) (clampedLambda minScore scoreRange : number)
    (tokenCache selected remaining : loc) : M O () :=
  match rounds with
  | 0%nat => mret ()
  | S rounds' =>
      candidates ← readSet remaining;
      match candidates with
      | [] => mret ()
      | _ =>
          h ← getHeap;
          entries ← readTokenMap tokenCache;
          chosen ← readArray selected;
          match MMR.pickBest (itemAt h) clampedLambda minScore scoreRange entries
                  chosen candidates with
          | Some bestItem =>
              push selected bestItem;;
              setDelete remaining bestItem;;
              selectLoop rounds' clampedLambda minScore scoreRange
                tokenCache selected remaining
          | None => mret ()
          end
      end
  end.

Definition mmrRerank (items : loc) (config : MMR.PartialMMRConfig) : M O loc :=
  let enabled := default (MMR.enabled MMR.DEFAULT_MMR_CONFIG) (MMR.enabled_opt config) in
  let lambda := default (MMR.lambda MMR.DEFAULT_MMR_CONFIG) (MMR.lambda_opt config) in
  contents ← readArray items;
  if negb enabled || bool_decide (length contents ≤ 1)%nat then
    spread ← readArray items;
    alloc (Array spread)
  else
    let clampedLambda := Num.max (Fin 0) (Num.min (Fin 1) lambda) in
    if (clampedLambda =? Fin 1)%num then
      spread ← readArray items;
      copy ← alloc (Array spread);
      copied ← readArray copy;
      h ← getHeap;
      alloc (Array (MMR.toSorted (MMR.byScoreDesc (itemAt h)) copied))
    else
      tokenCache ← alloc (TokenMap ∅);
      iterated ← readArray items;
      fillTokenCache tokenCache iterated;;
      mapped ← readArray items;
      h ← getHeap;
      scores ← alloc (Numbers (map (λ i, MMR.score (itemAt h i)) mapped));
      forMax ← readNumbers scores;
      let maxScore := Num.maxList forMax in
      mapped' ← readArray items;
      h' ← getHeap;
      scores' ← alloc (Numbers (map (λ i, MMR.score (itemAt h' i)) mapped'));
      forMin ← readNumbers scores';
      let minScore := Num.minList forMin in
      let scoreRange := (maxScore - minScore)%num in
      selected ← alloc (Array []);
      members ← readArray items;
      remaining ← alloc (RefSet (MMR.newSet members));
      selectLoop (length (MMR.newSet members)) clampedLambda minScore scoreRange
        tokenCache selected remaining;;
      mret selected.

(** *** [applyMMRToHybridResults] *)

(** The callback of [results.map]: an entry of [itemById] and a new
    [MMRItem] object for every result. *)
Fixpoint makeItems (itemById : loc) (index : nat) (results : list loc) : M O (list loc) :=
  match results with
  | [] => mret []
  | r :: rest =>
      h ← getHeap;
      let mmrItem := MMR.toMMRItem (fieldsAt h) index r in
      entries ← readRefMap itemById;
      store itemById (RefMap (<[MMR.id mmrItem := r]> entries));;
      created ← alloc (Item mmrItem);
      others ← makeItems itemById (S index) rest;
      mret (created :: others)
  end.

(** [reranked.map((item) => itemById.get(item.id)!)]; the computation fails
    where [get] finds nothing (the entry would be [undefined]). *)
Fixpoint findResults (itemById : loc) (reranked : list loc) : M O (list loc) :=
  match reranked with
  | [] => mret []
  | i :: rest =>
      h ← getHeap;
      entries ← readRefMap itemById;
      match entries !! MMR.id (itemAt h i) with
      | Some r => others ← findResults itemById rest; mret (r :: others)
      | None => fail
      end
  end.

Definition applyMMRToHybridResults (results : loc) (config : MMR.PartialMMRConfig)
  : M O loc :=
  contents ← readArray results;
  match contents with
  | [] => mret results
  | _ =>
      itemById ← alloc (RefMap ∅);
      created ← makeItems itemById 0 contents;
      mmrItems ← alloc (Array created);
      reranked ← mmrRerank mmrItems config;
      rerankedItems ← readArray reranked;
      found ← findResults itemById rerankedItems;
      alloc (Array found)
  end.

(** *** [applyTemporalDecayToHybridResults] *)

Section Decay.
Variable isAbsolute : string → bool.
Variable resolve : string → string → string.
Variable stat : string → option number.
Variable clock : number.

(** The callbacks of [results.map] up to their [await]: the timestamp of
    every entry, through [timestampPromiseCache], and the paths given to
    [fs.stat]. *)
Fixpoint timestamps (cache : loc) (dir : option string) (entries : list loc)
  : M O (list (option Date) * list string) :=
  match entries with
  | [] => mret ([], [])
  | entry :: rest =>
      h ← getHeap;
      let cacheKey :=
        Hybrid.source (fieldsAt h entry) +:+ ":" +:+ Hybrid.path (fieldsAt h entry) in
      promises ← readPromiseMap cache;
      found ←
        match promises !! cacheKey with
        | Some cached => mret (cached, [])
        | None =>
            let extracted :=
              TemporalDecay.extractTimestamp isAbsolute resolve stat
                (Hybrid.path (fieldsAt h entry)) (Some (Hybrid.source (fieldsAt h entry)))
                dir in
            store cache (PromiseMap (<[cacheKey := extracted.1]> promises));;
            mret extracted
        end;
      others ← timestamps cache dir rest;
      mret (found.1 :: others.1, found.2 ++ others.2)
  end.

(** The callbacks after their [await]: the entry itself, or a new object
    [{ ...entry, score: decayedScore }]. *)
Fixpoint settle (config : TemporalDecay.TemporalDecayConfig) (now : number)
    (entries : list loc) (stamps : list (option Date)) : M O (list loc) :=
  match entries, stamps with
  | entry :: rest, timestamp :: stamps' =>
      out ←
        match timestamp with
        | None => mret entry
        | Some t =>
            h ← getHeap;
            let decayedScore :=
              TemporalDecay.applyTemporalDecayToScore (Hybrid.score (fieldsAt h entry))
                (TemporalDecay.ageInDaysFromTimestamp t now)
                (TemporalDecay.halfLifeDays config) in
            alloc (Object (rescore (objectAt h entry) decayedScore))
        end;
      outs ← settle config now rest stamps';
      mret (out :: outs)
  | _, _ => mret []
  end.

(** The array returned, and the paths given to [fs.stat]. *)
Definition applyTemporalDecayToHybridResults
    (results : loc)
    (temporalDecay : option TemporalDecay.PartialTemporalDecayConfig)
    (workspaceDir : option string) (nowMs : option number)
  : M O (loc * list string) :=
  let config := TemporalDecay.mergeConfig temporalDecay in
  contents ← readArray results;
  if negb (TemporalDecay.enabled config) then
    copy ← alloc (Array contents);
    mret (copy, [])
  else
    let now := default clock nowMs in
    cache ← alloc (PromiseMap ∅);
    found ← timestamps cache workspaceDir contents;
    outs ← settle config now contents found.1;
    all ← alloc (Array outs);
    mret (all, found.2).
End Decay.
End Stages.
End Stateful.

(** ** Notions used in the statements *)

(** The finite scores lie so close together that their differences fit
    binary64: [maxScore - minScore] and [score - minScore] do not overflow in
    the code.  Finite arithmetic is exact in [Num] and cannot overflow; this
    condition confines a statement to the inputs on which the subtraction of
    the code does not overflow either. *)
Definition spreadFits {T : Type} (score : T → number) (items : list T) : Prop :=
  ∀ x y a b, x ∈ items → y ∈ items → score x = Fin a → score y = Fin b →
    (a - b <= Num.MAX_VALUE)%R.

Section RerankNotions.
Context {T : Type} `{EqDecision T} (item : T → MMR.MMRItem).

(** Every item of the list has a finite score. *)
Definition finiteScores (items : list T) : Prop :=
  ∀ x, x ∈ items → Num.isFinite (MMR.score (item x)) = true.

(** The finite score of an item (0 where it is not finite). *)
Definition scoreR (x : T) : R :=
  match MMR.score (item x) with Fin r => r | _ => 0%R end.

(** [a] may stand before [b] in a list sorted by descending score. *)
Definition scoreGe (a b : T) : Prop :=
  (MMR.score (item b) <=? MMR.score (item a))%num = true.

(** The first item of the largest score, scanning from the left with the
    best so far in hand... *)
Definition argmaxFrom (b : T) (l : list T) : T :=
  foldl (λ b c, if bool_decide (scoreR b < scoreR c)%R then c else b) b l.

(** ... and by recursion on the list. *)
Fixpoint firstMax (l : list T) : option T :=
  match l with
  | [] => None
  | a :: l' =>
      match firstMax l' with
      | None => Some a
      | Some m => if bool_decide (scoreR a < scoreR m)%R then Some m else Some a
      end
  end.
End RerankNotions.

(** Normalisation of a finite score, on the reals. *)
Definition normR (m r x : R) : R :=
  if bool_decide (r = 0)%R then 1%R else ((x - m) / r)%R.




(** The text [memory/YYYY-MM-DD.md] and what makes [Y], [M], [D] groups of
    four, two and two digits. *)
Definition datedTail (Y M D : string) : string :=
  "memory/" +:+ Y +:+ "-" +:+ M +:+ "-" +:+ D +:+ ".md".

Definition dateGroups (Y M D : string) : Prop :=
  String.length Y = 4%nat ∧ TemporalDecay.allDigits Y = true
  ∧ String.length M = 2%nat ∧ TemporalDecay.allDigits M = true
  ∧ String.length D = 2%nat ∧ TemporalDecay.allDigits D = true.

Section DecayNotions.
Context {T : Type} (fields : T → Hybrid.HybridResult).

(** The cache key of an entry. *)
Definition keyOf (entry : T) : string :=
  Hybrid.source (fields entry) +:+ ":" +:+ Hybrid.path (fields entry).

(** What is put in the output for an entry whose timestamp is [ts]. *)
Definition outputFor (config : TemporalDecay.TemporalDecayConfig) (now : number)
    (entry : T) (ts : option Date) : TemporalDecay.Output T :=
  match ts with
  | None => TemporalDecay.Kept entry
  | Some t =>
      TemporalDecay.Rescored entry
        (TemporalDecay.applyTemporalDecayToScore (Hybrid.score (fields entry))
           (TemporalDecay.ageInDaysFromTimestamp t now)
           (TemporalDecay.halfLifeDays config))
  end.

(** No source tag of the results holds a colon, the character that separates
    source and path in the cache key. *)
Definition plainSources (results : list T) : Prop :=
  ∀ e, e ∈ results → ":"%char ∉ list_ascii_of_string (Hybrid.source (fields e)).
End DecayNotions.

(** The result an entry of the output stands for. *)
Definition outputEntry {T : Type} (o : TemporalDecay.Output T) : T :=
  match o with
  | TemporalDecay.Kept entry => entry
  | TemporalDecay.Rescored entry _ => entry
  end.

(** ** Sample inputs *)

(** The three results of the end-to-end example of the specification. *)
Module Sample.
Inductive abc : Type := A | B | C.

#[global] Instance abc_eq_dec : EqDecision abc.
Proof. solve_decision. Defined.

Definition abcItem (x : abc) : MMR.MMRItem :=
  match x with
  | A => MMR.mkMMRItem "A" (Fin 0.9) "cats and dogs"
  | B => MMR.mkMMRItem "B" (Fin 0.85) "cats and dogs too"
  | C => MMR.mkMMRItem "C" (Fin 0.5) "quantum physics"
  end.

Definition cacheABC : gmap string (gset string) := MMR.buildTokenCache abcItem [A; B; C].

Definition config (lambda : number) : MMR.PartialMMRConfig :=
  MMR.mkPartialMMRConfig (Some true) (Some lambda).

(** The same three as hybrid search results. *)
Definition abcResult (x : abc) : Hybrid.HybridResult :=
  Hybrid.mkHybridResult "notes.md" 1 (MMR.score (abcItem x)) (MMR.content (abcItem x)) "memory".

(** An item of infinite score beside an ordinary one. *)
Definition infItem (x : bool) : MMR.MMRItem :=
  if x then MMR.mkMMRItem "x" PosInf "alpha" else MMR.mkMMRItem "y" (Fin 0) "beta".

(** The fields of a hybrid result that [mmrRerank] reads when it is given
    results as items. *)
Definition resultItem (o : Hybrid.HybridResult) : MMR.MMRItem :=
  MMR.mkMMRItem (Hybrid.path o) (Hybrid.score o) (Hybrid.snippet o).

(** A heap with the array [[2; 3]] at address 1 and two of the results as
    objects 2 and 3. *)
Definition heapResults : Stateful.heap Hybrid.HybridResult :=
  <[1%positive := Stateful.Array [2; 3]%positive]>
    (<[2%positive := Stateful.Object (abcResult A)]>
       (<[3%positive := Stateful.Object (abcResult B)]> ∅)).

(** A heap whose only cell, at address 1, is an empty array. *)
Definition heapEmpty : Stateful.heap Hybrid.HybridResult :=
  <[1%positive := Stateful.Array []]> ∅.

(** [{ ...o, score: s }]. *)
Definition rescore (o : Hybrid.HybridResult) (s : number) : Hybrid.HybridResult :=
  Hybrid.mkHybridResult (Hybrid.path o) (Hybrid.startLine o) s (Hybrid.snippet o)
    (Hybrid.source o).

#[global] Instance HybridResult_inhabited : Inhabited Hybrid.HybridResult :=
  populate (Hybrid.mkHybridResult "" 0 NaN "" "").
End Sample.

(** Three items no two of which share a token. *)
Module Diverse.
Inductive topic : Type := Pets | Physics | Tea.

#[global] Instance topic_eq_dec : EqDecision topic.
Proof. solve_decision. Defined.

Definition item (x : topic) : MMR.MMRItem :=
  match x with
  | Pets => MMR.mkMMRItem "pets" (Fin 0.5) "Cats, dogs"
  | Physics => MMR.mkMMRItem "physics" (Fin 0.9) "quantum physics"
  | Tea => MMR.mkMMRItem "tea" (Fin 0.7) "green tea"
  end.
End Diverse.

(** Memory files and a session transcript. *)
Module Notes.
Inductive note : Type := Root | Topic | Daily | Session.

Definition fields (e : note) : Hybrid.HybridResult :=
  match e with
  | Root => Hybrid.mkHybridResult "MEMORY.md" 1 (Fin 0.8) "preferences" "memory"
  | Topic => Hybrid.mkHybridResult "memory/projects.md" 1 (Fin 0.6) "projects" "memory"
  | Daily => Hybrid.mkHybridResult "memory/2024-01-01.md" 1 (Fin 1) "new year" "memory"
  | Session => Hybrid.mkHybridResult "sessions/a.jsonl" 1 (Fin 0.4) "chat" "sessions"
  end.

(** The stage enabled with a half-life of thirty days, the given workspace
    directory, and thirty days after 2024-01-01T00:00:00Z as the injected
    time. *)
Definition params (results : list note) (dir : option string) : TemporalDecay.Params note :=
  TemporalDecay.mkParams results
    (Some (TemporalDecay.mkPartialTemporalDecayConfig (Some true) (Some (Fin 30))))
    dir (Some (Fin 1706659200000)).
End Notes.

(** ** Tactics *)

(** Deciding the comparisons of closed real expressions left in a goal. *)
Ltac r_step :=
  match goal with
  | |- context [Rlt_dec ?x ?y] =>
      first [ let H := fresh in assert (x < y)%R as H by lra;
              destruct (Rlt_dec x y) as [_|?]; [clear H | exfalso; lra]
            | let H := fresh in assert (~ (x < y)%R) as H by lra;
              destruct (Rlt_dec x y) as [?|_]; [exfalso; lra | clear H] ]
  | |- context [Req_dec_T ?x ?y] =>
      first [ let H := fresh in assert (x = y)%R as H by lra;
              destruct (Req_dec_T x y) as [_|?]; [clear H | exfalso; lra]
            | let H := fresh in assert (x <> y)%R as H by lra;
              destruct (Req_dec_T x y) as [?|_]; [exfalso; lra | clear H] ]
  end.

Ltac r_decide := repeat (r_step; cbv beta iota).

Ltac r_compute := vm_compute; r_decide; try reflexivity.

Ltac decide_R :=
  repeat match goal with
  | |- context [bool_decide ?P] =>
      first [ rewrite (bool_decide_eq_true_2 P) by lra
            | rewrite (bool_decide_eq_false_2 P) by lra ]
  end.

Ltac div_lia := Z.to_euclidean_division_equations; lia.

(** * Properties of the re-ranking stage *)

Module MMRFacts.
Import MMR.

(** Small numbers are far below [Number.MAX_VALUE]. *)
Lemma fits_small (r : R) : (r <= 2)%R → (r <= Num.MAX_VALUE)%R.
Proof.
  intros Hr. apply (Rle_trans _ 2); [done|].
  unfold Num.MAX_VALUE. apply IZR_le. by vm_compute.
Qed.

(** ** Token sets and Jaccard similarity *)

Lemma countShared_fold (larger : gset string) (l : list string) (n : Z) :
  foldl (λ n token, if decide (token ∈ larger) then (n + 1)%Z else n) n l
  = (n + Z.of_nat (length (filter (λ t, t ∈ larger) l)))%Z.
Proof.
  revert n. induction l as [|t l IH]; intros n; simpl.
  - lia.
  - rewrite IH, filter_cons. destruct (decide (t ∈ larger)); simpl; lia.
Qed.

Lemma countShared_size (smaller larger : gset string) :
  countShared smaller larger = Z.of_nat (size (smaller ∩ larger)).
Proof.
  unfold countShared. rewrite countShared_fold. rewrite Z.add_0_l. f_equal.
  unfold size, set_size. simpl. apply Permutation_length.
  apply NoDup_Permutation.
  - apply NoDup_filter, NoDup_elements.
  - apply NoDup_elements.
  - intros t. rewrite list_elem_of_filter, !elem_of_elements. set_solver.
Qed.

Lemma size_union_inter (A B : gset string) :
  (Z.of_nat (size A) + Z.of_nat (size B) - Z.of_nat (size (A ∩ B)))%Z
  = Z.of_nat (size (A ∪ B)).
Proof.
  pose proof (size_union_alt A B) as HU. pose proof (size_difference_alt B A) as HD.
  rewrite HU, HD.
  assert (size (B ∩ A) ≤ size B) by (apply subseteq_size; set_solver).
  replace (A ∩ B) with (B ∩ A) by set_solver. lia.
Qed.

Lemma jaccard_nonempty (A B : gset string) :
  A ≠ ∅ → B ≠ ∅ →
  jaccardSimilarity A B = Fin (INR (size (A ∩ B)) / INR (size (A ∪ B))).
Proof.
  intros HA HB.
  assert (size A ≠ 0) as HsA by (rewrite size_non_empty_iff; set_solver).
  assert (size B ≠ 0) as HsB by (rewrite size_non_empty_iff; set_solver).
  assert (size (A ∪ B) ≠ 0) as HsU.
  { rewrite size_non_empty_iff. intros HU. apply HA. set_solver. }
  unfold jaccardSimilarity.
  rewrite !bool_decide_eq_false_2 by done. simpl.
  assert (countShared (if bool_decide (size A ≤ size B) then A else B)
                      (if bool_decide (size A ≤ size B) then B else A)
          = Z.of_nat (size (A ∩ B))) as ->.
  { case_bool_decide; rewrite countShared_size; [done|].
    f_equal. f_equal. set_solver. }
  rewrite size_union_inter.
  rewrite bool_decide_eq_false_2 by lia.
  unfold Num.ofZ, Num.div.
  rewrite bool_decide_eq_false_2.
  - by rewrite !INR_IZR_INZ.
  - intros Hz. apply eq_IZR in Hz. lia.
Qed.

Lemma jaccard_empty_empty : jaccardSimilarity ∅ ∅ = Fin 1.
Proof. reflexivity. Qed.

Lemma jaccard_empty_l (B : gset string) : B ≠ ∅ → jaccardSimilarity ∅ B = Fin 0.
Proof.
  intros HB. unfold jaccardSimilarity. rewrite size_empty.
  assert (size B ≠ 0) by (rewrite size_non_empty_iff; set_solver).
  rewrite (bool_decide_eq_true_2 (0 = 0)) by done.
  by rewrite (bool_decide_eq_false_2 (size B = 0)) by done.
Qed.

Lemma jaccard_empty_r (A : gset string) : A ≠ ∅ → jaccardSimilarity A ∅ = Fin 0.
Proof.
  intros HA. unfold jaccardSimilarity. rewrite size_empty.
  assert (size A ≠ 0) by (rewrite size_non_empty_iff; set_solver).
  rewrite (bool_decide_eq_true_2 (0 = 0)) by done.
  by rewrite (bool_decide_eq_false_2 (size A = 0)) by done.
Qed.

Lemma jaccard_is_Fin (A B : gset string) :
  ∃ r, jaccardSimilarity A B = Fin r ∧ (0 <= r <= 1)%R.
Proof.
  destruct (decide (A = ∅)) as [->|HA]; destruct (decide (B = ∅)) as [->|HB].
  - exists 1%R. split; [reflexivity | lra].
  - exists 0%R. split; [by apply jaccard_empty_l | lra].
  - exists 0%R. split; [by apply jaccard_empty_r | lra].
  - eexists. split; [by apply jaccard_nonempty|].
    assert (size (A ∩ B) ≤ size (A ∪ B)) as Hle by (apply subseteq_size; set_solver).
    assert (size (A ∪ B) ≠ 0) as HsU.
    { rewrite size_non_empty_iff. intros HU. apply HA. set_solver. }
    assert (0 < INR (size (A ∪ B)))%R by (apply lt_0_INR; lia).
    assert (0 <= INR (size (A ∩ B)))%R by apply pos_INR.
    assert (INR (size (A ∩ B)) <= INR (size (A ∪ B)))%R by (apply le_INR; lia).
    split.
    + apply Rmult_le_pos; [done|]. left. by apply Rinv_0_lt_compat.
    + apply Rmult_le_reg_r with (INR (size (A ∪ B))); [done|].
      unfold Rdiv. rewrite Rmult_assoc, Rinv_l by lra. lra.
Qed.

Lemma jaccard_sym (A B : gset string) : jaccardSimilarity A B = jaccardSimilarity B A.
Proof.
  destruct (decide (A = ∅)) as [->|HA]; destruct (decide (B = ∅)) as [->|HB]; try done.
  - by rewrite jaccard_empty_l, jaccard_empty_r.
  - by rewrite jaccard_empty_l, jaccard_empty_r.
  - rewrite !jaccard_nonempty by done.
    by rewrite (comm_L (∩) A B), (comm_L (∪) A B).
Qed.

Lemma jaccard_self (A : gset string) : jaccardSimilarity A A = Fin 1.
Proof.
  destruct (decide (A = ∅)) as [->|HA]; [done|].
  rewrite jaccard_nonempty by done.
  replace (A ∩ A) with A by set_solver. replace (A ∪ A) with A by set_solver.
  f_equal. apply Rdiv_diag.
  assert (size A ≠ 0) by (rewrite size_non_empty_iff; set_solver).
  apply not_0_INR. lia.
Qed.

Lemma jaccard_disjoint (A B : gset string) :
  A ≠ ∅ → B ≠ ∅ → A ## B → jaccardSimilarity A B = Fin 0.
Proof.
  intros HA HB Hd. rewrite jaccard_nonempty by done.
  replace (A ∩ B) with (∅ : gset string) by set_solver.
  rewrite size_empty. simpl. f_equal. lra.
Qed.


(** ** Numbers *)

Lemma maxList_Fin (xs : list number) (x0 : R) :
  Forall (λ x, Num.isFinite x = true) xs →
  ∃ M, foldl Num.max (Fin x0) xs = Fin M ∧ (x0 <= M)%R
       ∧ Forall (λ x, ∃ r, x = Fin r ∧ (r <= M)%R) xs.
Proof.
  revert x0. induction xs as [|x xs IH]; intros x0 Hf.
  - exists x0. split; [done|]. split; [lra | constructor].
  - inversion Hf as [|? ? Hx Hxs]; subst.
    destruct x as [| |r|]; try discriminate. simpl.
    case_bool_decide as Hlt.
    + destruct (IH r Hxs) as (M & HM & Hle & Hall).
      exists M. split; [done|]. split; [lra|].
      constructor; [exists r; split; [done | lra] | done].
    + destruct (IH x0 Hxs) as (M & HM & Hle & Hall).
      exists M. split; [done|]. split; [lra|].
      constructor; [exists r; split; [done | lra] | done].
Qed.

Lemma minList_Fin (xs : list number) (x0 : R) :
  Forall (λ x, Num.isFinite x = true) xs →
  ∃ m, foldl Num.min (Fin x0) xs = Fin m ∧ (m <= x0)%R
       ∧ Forall (λ x, ∃ r, x = Fin r ∧ (m <= r)%R) xs.
Proof.
  revert x0. induction xs as [|x xs IH]; intros x0 Hf.
  - exists x0. split; [done|]. split; [lra | constructor].
  - inversion Hf as [|? ? Hx Hxs]; subst.
    destruct x as [| |r|]; try discriminate. simpl.
    case_bool_decide as Hlt.
    + destruct (IH r Hxs) as (M & HM & Hle & Hall).
      exists M. split; [done|]. split; [lra|].
      constructor; [exists r; split; [done | lra] | done].
    + destruct (IH x0 Hxs) as (M & HM & Hle & Hall).
      exists M. split; [done|]. split; [lra|].
      constructor; [exists r; split; [done | lra] | done].
Qed.

(** The range of a non-empty list of finite scores is finite and not
    negative. *)
Lemma scoreRange_Fin (xs : list number) :
  xs ≠ [] → Forall (λ x, Num.isFinite x = true) xs →
  ∃ M m, Num.maxList xs = Fin M ∧ Num.minList xs = Fin m ∧ (m <= M)%R.
Proof.
  intros Hne Hf. destruct xs as [|x xs]; [done|].
  inversion Hf as [|? ? Hx Hxs]; subst.
  destruct x as [| |r|]; try discriminate.
  unfold Num.maxList, Num.minList. simpl.
  destruct (maxList_Fin xs r Hxs) as (M & HM & HleM & _).
  destruct (minList_Fin xs r Hxs) as (m & Hm & Hlem & _).
  exists M, m. repeat split; [done | done | lra].
Qed.

(** ** Sets of references *)

Section SetFacts.
Context {T : Type} `{EqDecision T}.

Lemma elem_of_newSet (x : T) (items : list T) : x ∈ newSet items ↔ x ∈ items.
Proof.
  induction items as [|y l IH]; simpl; [done|].
  rewrite !elem_of_cons, list_elem_of_filter, IH.
  destruct (decide (x = y)); naive_solver.
Qed.

Lemma NoDup_newSet (items : list T) : NoDup (newSet items).
Proof.
  induction items as [|y l IH]; simpl; [constructor|].
  constructor; [|by apply NoDup_filter].
  rewrite list_elem_of_filter. naive_solver.
Qed.

Lemma setDelete_notin (x : T) (l : list T) : x ∉ l → setDelete x l = l.
Proof.
  induction l as [|y l IH]; intros Hx; [done|].
  unfold setDelete in *. rewrite not_elem_of_cons in Hx. destruct Hx as [Hxy Hx].
  rewrite filter_cons_True by congruence. by rewrite IH.
Qed.

Lemma setDelete_head (x : T) (l : list T) : x ∉ l → setDelete x (x :: l) = l.
Proof.
  intros Hx. unfold setDelete. rewrite filter_cons_False by naive_solver.
  by apply setDelete_notin.
Qed.

Lemma setDelete_cons_ne (x y : T) (l : list T) :
  y ≠ x → setDelete x (y :: l) = y :: setDelete x l.
Proof. intros Hne. unfold setDelete. by rewrite filter_cons_True. Qed.

Lemma newSet_NoDup (items : list T) : NoDup items → newSet items = items.
Proof.
  induction 1 as [|y l Hy Hl IH]; simpl; [done|].
  rewrite IH. f_equal. by apply setDelete_notin.
Qed.

Lemma setDelete_Permutation (x : T) (l : list T) :
  NoDup l → x ∈ l → l ≡ₚ x :: setDelete x l.
Proof.
  induction 1 as [|y l Hy Hl IH]; intros Hx; [by apply elem_of_nil in Hx|].
  destruct (decide (y = x)) as [->|Hne].
  - by rewrite setDelete_head.
  - rewrite setDelete_cons_ne by done.
    apply elem_of_cons in Hx as [?|Hx]; [congruence|].
    rewrite (IH Hx) at 1. apply Permutation_swap.
Qed.

Lemma setDelete_length (x : T) (l : list T) :
  x ∈ l → length (setDelete x l) < length l.
Proof. intros Hx. apply (length_filter_lt _ _ x); naive_solver. Qed.

Lemma NoDup_setDelete (x : T) (l : list T) : NoDup l → NoDup (setDelete x l).
Proof. apply NoDup_filter. Qed.

Lemma elem_of_setDelete (x y : T) (l : list T) : y ∈ setDelete x l → y ∈ l.
Proof. unfold setDelete. rewrite list_elem_of_filter. naive_solver. Qed.

End SetFacts.

Section RerankFacts.
Context {T : Type} `{EqDecision T} (item : T → MMRItem).

(** ** The greedy loop *)

Section GreedyFacts.
Variables (clampedLambda minScore scoreRange : number).
Variable tokenCache : gmap string (gset string).

Notation considerCandidate :=
  (considerCandidate item clampedLambda minScore scoreRange tokenCache).
Notation pickBest := (pickBest item clampedLambda minScore scoreRange tokenCache).
Notation selectLoop := (selectLoop item clampedLambda minScore scoreRange tokenCache).

Lemma considerCandidate_fst (selected : list T) (st : option T * number) (c : T) :
  (considerCandidate selected st c).1 = st.1
  ∨ (considerCandidate selected st c).1 = Some c.
Proof.
  destruct st as [b s]. unfold MMR.considerCandidate.
  destruct (_ || _); simpl; auto.
Qed.

Lemma foldl_considerCandidate_elem
    (selected remaining : list T) (st : option T * number) (b : T) :
  (foldl (considerCandidate selected) st remaining).1 = Some b →
  st.1 = Some b ∨ b ∈ remaining.
Proof.
  revert st. induction remaining as [|c l IH]; intros st Hb; simpl in *; [auto|].
  destruct (IH _ Hb) as [Hst|Hin]; [|right; by apply elem_of_cons; right].
  destruct (considerCandidate_fst selected st c) as [Heq|Heq];
    rewrite Heq in Hst; [auto|].
  right. apply elem_of_cons. left. congruence.
Qed.

Lemma pickBest_elem (selected remaining : list T) (b : T) :
  pickBest selected remaining = Some b → b ∈ remaining.
Proof.
  intros Hb. apply foldl_considerCandidate_elem in Hb as [Hb|Hb]; [done|done].
Qed.

(** Whatever the numbers are, the loop only moves items from
    [remaining] to [selected]. *)
Lemma selectLoop_sub (rounds : nat) (selected remaining : list T) :
  NoDup remaining →
  ∃ rest, selectLoop rounds selected remaining ++ rest ≡ₚ selected ++ remaining.
Proof.
  revert selected remaining.
  induction rounds as [|n IH]; intros selected remaining Hnd; simpl.
  - by exists remaining.
  - destruct remaining as [|c l]; [by exists []|].
    destruct (pickBest selected (c :: l)) as [b|] eqn:Hb; [|by exists (c :: l)].
    apply pickBest_elem in Hb.
    destruct (IH (selected ++ [b]) (setDelete b (c :: l))) as [rest Hrest];
      [by apply NoDup_setDelete|].
    exists rest. rewrite Hrest, <- app_assoc. simpl.
    by rewrite <- (setDelete_Permutation b (c :: l)).
Qed.

(** If every round finds a candidate, every item is selected. *)
Lemma selectLoop_Permutation (rounds : nat) (selected remaining : list T) :
  NoDup remaining → length remaining ≤ rounds →
  (∀ sel rem, rem ≠ [] → rem ⊆ remaining → is_Some (pickBest sel rem)) →
  selectLoop rounds selected remaining ≡ₚ selected ++ remaining.
Proof.
  revert selected remaining.
  induction rounds as [|n IH]; intros selected remaining Hnd Hlen Hpick; simpl.
  - destruct remaining; [by rewrite app_nil_r | simpl in Hlen; lia].
  - destruct remaining as [|c l]; [by rewrite app_nil_r|].
    destruct (Hpick selected (c :: l)) as [b Hb]; [done | done |].
    rewrite Hb. apply pickBest_elem in Hb.
    rewrite IH.
    + rewrite <- app_assoc. simpl.
      by rewrite <- (setDelete_Permutation b (c :: l)).
    + by apply NoDup_setDelete.
    + pose proof (setDelete_length b (c :: l) Hb). lia.
    + intros sel rem Hne Hsub. apply Hpick; [done|].
      intros x Hx. eapply elem_of_setDelete, Hsub, Hx.
Qed.
End GreedyFacts.
End RerankFacts.


Lemma clamp_Fin (lambda : number) :
  lambda ≠ NaN →
  ∃ l, Num.max (Fin 0) (Num.min (Fin 1) lambda) = Fin l ∧ (0 <= l <= 1)%R.
Proof.
  intros Hnan. destruct lambda as [| |x|]; [done| | |].
  - exists 0%R. split; [reflexivity | lra].
  - simpl. case_bool_decide.
    + simpl. case_bool_decide; [exists x | exists 0%R]; split; try done; lra.
    + simpl. rewrite bool_decide_eq_true_2 by lra. exists 1%R. split; [done | lra].
  - simpl. rewrite bool_decide_eq_true_2 by lra. exists 1%R. split; [done | lra].
Qed.

Lemma computeMMRScore_Fin (a b l : R) :
  computeMMRScore (Fin a) (Fin b) (Fin l) = Fin (l * a - (1 - l) * b).
Proof. reflexivity. Qed.

Section RerankFinite.
Context {T : Type} `{EqDecision T} (item : T → MMRItem).

Lemma maxSimilarityToSelected_Fin (t : T) (selected : list T)
    (tokenCache : gmap string (gset string)) :
  ∃ r, maxSimilarityToSelected item t selected tokenCache = Fin r.
Proof.
  unfold maxSimilarityToSelected. destruct selected as [|s0 sel]; [by eexists|].
  generalize (s0 :: sel). intros l. generalize 0%R.
  induction l as [|s l IH]; intros r0; simpl; [by eexists|].
  destruct (jaccard_is_Fin (tokensOf item tokenCache t) (tokensOf item tokenCache s))
    as (r & -> & _).
  case_bool_decide; apply IH.
Qed.

Section Loop.
Variables (l m r : R).
Variable tokenCache : gmap string (gset string).

Notation considerCandidate := (considerCandidate item (Fin l) (Fin m) (Fin r) tokenCache).
Notation pickBest := (pickBest item (Fin l) (Fin m) (Fin r) tokenCache).
Notation selectLoop := (selectLoop item (Fin l) (Fin m) (Fin r) tokenCache).

Lemma normalizeScore_Fin (x : R) :
  normalizeScore (Fin m) (Fin r) (Fin x)
  = Fin (if bool_decide (r = 0)%R then 1 else (x - m) / r).
Proof.
  unfold normalizeScore. simpl. by case_bool_decide.
Qed.

Lemma considerCandidate_Some (selected : list T) (st : option T * number) (c : T) :
  is_Some st.1 → is_Some (considerCandidate selected st c).1.
Proof.
  intros Hst. destruct (considerCandidate_fst item (Fin l) (Fin m) (Fin r)
                          tokenCache selected st c) as [-> | ->]; eauto.
Qed.

Lemma foldl_considerCandidate_Some
    (selected remaining : list T) (st : option T * number) :
  is_Some st.1 → is_Some (foldl (considerCandidate selected) st remaining).1.
Proof.
  revert st. induction remaining as [|c rem IH]; intros st Hst; simpl; [done|].
  by apply IH, considerCandidate_Some.
Qed.

Lemma pickBest_is_Some (selected remaining : list T) :
  remaining ≠ [] → finiteScores item remaining → is_Some (pickBest selected remaining).
Proof.
  intros Hne Hfin. destruct remaining as [|c rem]; [done|].
  unfold MMR.pickBest. simpl. apply foldl_considerCandidate_Some.
  assert (Num.isFinite (score (item c)) = true) as Hc
    by (apply Hfin, elem_of_cons; by left).
  destruct (score (item c)) as [| |x|] eqn:Hx; try discriminate.
  unfold MMR.considerCandidate. rewrite normalizeScore_Fin.
  destruct (maxSimilarityToSelected_Fin c selected tokenCache) as [s ->].
  rewrite computeMMRScore_Fin. simpl. eauto.
Qed.
End Loop.

Lemma finiteScores_Forall (items : list T) :
  finiteScores item items →
  Forall (λ x, Num.isFinite x = true) (map (λ i, score (item i)) items).
Proof.
  intros Hfin. apply Forall_forall. intros x Hx.
  apply list_elem_of_In, in_map_iff in Hx as (i & <- & Hi). by apply Hfin, list_elem_of_In.
Qed.

(** With finite scores and a trade-off parameter that is a number, the
    greedy loop selects every item exactly once. *)
Lemma mmrGreedy_Permutation (l : R) (items : list T) :
  finiteScores item items → mmrGreedy item (Fin l) items ≡ₚ newSet items.
Proof.
  intros Hfin. unfold mmrGreedy.
  destruct items as [|x0 items0] eqn:Hitems; [done|]. rewrite <- Hitems in *.
  destruct (scoreRange_Fin (map (λ i, score (item i)) items)) as (M & m & -> & -> & Hle).
  { by rewrite Hitems. }
  { by apply finiteScores_Forall. }
  change (Fin M - Fin m)%num with (Fin (M - m)).
  rewrite selectLoop_Permutation; try done; [apply NoDup_newSet|].
  intros sel rem Hne Hsub. apply pickBest_is_Some; [done|].
  intros x Hx. apply Hfin, elem_of_newSet, Hsub, Hx.
Qed.

(** *** The stable sort *)

Lemma sortedInsert_Permutation {A} (compare : A → A → number) (x : A) (l : list A) :
  sortedInsert compare x l ≡ₚ x :: l.
Proof.
  induction l as [|y l IH]; simpl; [done|].
  destruct (compare y x <? Fin 0)%num; [|done]. rewrite IH. apply Permutation_swap.
Qed.

Lemma toSorted_Permutation {A} (compare : A → A → number) (l : list A) :
  toSorted compare l ≡ₚ l.
Proof.
  induction l as [|x l IH]; simpl; [done|].
  by rewrite sortedInsert_Permutation, IH.
Qed.

Lemma mmrRerank_Permutation (items : list T) (config : PartialMMRConfig) :
  NoDup items → finiteScores item items → lambda_opt config ≠ Some NaN →
  mmrRerank item items config ≡ₚ items.
Proof.
  intros Hnd Hfin Hnan. unfold mmrRerank.
  destruct (_ || _); [done|].
  destruct (clamp_Fin (default (lambda DEFAULT_MMR_CONFIG) (lambda_opt config)))
    as (l & -> & _).
  { destruct (lambda_opt config) as [x|]; simpl; [congruence | discriminate]. }
  destruct (Fin l =? Fin 1)%num.
  - apply toSorted_Permutation.
  - rewrite mmrGreedy_Permutation by done. by rewrite newSet_NoDup.
Qed.
End RerankFinite.

(** Disabled, or for at most one item, [mmrRerank] returns the items in
    their order. *)
Lemma mmrRerank_unchanged {T : Type} `{EqDecision T} (item : T → MMRItem)
    (items : list T) (config : PartialMMRConfig) :
  default (enabled DEFAULT_MMR_CONFIG) (enabled_opt config) = false
  ∨ length items ≤ 1 →
  mmrRerank item items config = items.
Proof.
  intros Hc. unfold mmrRerank. destruct Hc as [-> | Hlen]; [done|].
  rewrite (bool_decide_eq_true_2 (length items ≤ 1)) by done. by rewrite orb_true_r.
Qed.

(** Whatever the numbers are, [mmrRerank] returns items of its input. *)
Lemma mmrRerank_sub {T : Type} `{EqDecision T} (item : T → MMRItem)
    (items : list T) (config : PartialMMRConfig) (x : T) :
  x ∈ mmrRerank item items config → x ∈ items.
Proof.
  unfold mmrRerank. destruct (_ || _); [done|].
  destruct (_ =? _)%num.
  - by rewrite toSorted_Permutation.
  - unfold mmrGreedy. intros Hx.
    edestruct (selectLoop_sub item) as [rest Hrest]; [apply NoDup_newSet|].
    apply elem_of_newSet. rewrite <- (app_nil_l (newSet items)), <- Hrest.
    apply elem_of_app. left. exact Hx.
Qed.


(** ** Pure relevance ranking: [lambda = 1] *)

Section Relevance.
Context {T : Type} `{EqDecision T} (item : T → MMRItem).

Lemma score_scoreR (x : T) :
  Num.isFinite (score (item x)) = true → score (item x) = Fin (scoreR item x).
Proof. unfold scoreR. by destruct (score (item x)). Qed.

Lemma argmaxFrom_ge (b : T) (l : list T) : (scoreR item b <= scoreR item (argmaxFrom item b l))%R.
Proof.
  unfold argmaxFrom. revert b. induction l as [|c l IH]; intros b; simpl; [lra|].
  case_bool_decide; [|apply IH]. specialize (IH c). lra.
Qed.

Lemma argmaxFrom_dominated (b c : T) (l : list T) :
  (scoreR item c <= scoreR item b)%R →
  argmaxFrom item b l
  = if bool_decide (scoreR item b < scoreR item (argmaxFrom item c l))%R then argmaxFrom item c l else b.
Proof.
  unfold argmaxFrom. revert b c. induction l as [|d l IH]; intros b c Hcb; simpl.
  - by rewrite bool_decide_eq_false_2 by lra.
  - destruct (bool_decide (scoreR item b < scoreR item d)%R) eqn:Hbd.
    + apply bool_decide_eq_true_1 in Hbd.
      rewrite (bool_decide_eq_true_2 (scoreR item c < scoreR item d)%R) by lra.
      pose proof (argmaxFrom_ge d l) as Hge. unfold argmaxFrom in Hge.
      by rewrite bool_decide_eq_true_2 by lra.
    + apply bool_decide_eq_false_1 in Hbd.
      apply IH. case_bool_decide; lra.
Qed.

Lemma firstMax_argmaxFrom (b : T) (l : list T) :
  firstMax item (b :: l) = Some (argmaxFrom item b l).
Proof.
  revert b. induction l as [|c l IH]; intros b; [done|].
  change (firstMax item (b :: c :: l)) with
    (match firstMax item (c :: l) with
     | None => Some b
     | Some m => if bool_decide (scoreR item b < scoreR item m)%R then Some m else Some b
     end).
  rewrite IH. cbn [argmaxFrom foldl].
  fold (argmaxFrom item c l).
  destruct (Rlt_dec (scoreR item b) (scoreR item c)) as [Hbc|Hbc].
  - pose proof (argmaxFrom_ge c l) as Hge.
    rewrite (bool_decide_eq_true_2 (scoreR item b < scoreR item c)%R) by done.
    fold (argmaxFrom item c l).
    by rewrite bool_decide_eq_true_2 by lra.
  - rewrite (bool_decide_eq_false_2 (scoreR item b < scoreR item c)%R) by done.
    fold (argmaxFrom item b l).
    rewrite (argmaxFrom_dominated b c l) by lra. by case_bool_decide.
Qed.

Lemma firstMax_elem (l : list T) (m : T) : firstMax item l = Some m → m ∈ l.
Proof.
  revert m. induction l as [|a l IH]; intros m; simpl; [done|].
  destruct (firstMax item l) as [m'|].
  - case_bool_decide; intros [= <-]; [right; by apply IH | left].
  - intros [= <-]. left.
Qed.

Lemma byScoreDesc_lt (a b : T) :
  Num.isFinite (score (item a)) = true → Num.isFinite (score (item b)) = true →
  (byScoreDesc item a b <? Fin 0)%num = bool_decide (scoreR item b < scoreR item a)%R.
Proof.
  intros Ha Hb. unfold byScoreDesc.
  rewrite (score_scoreR a Ha), (score_scoreR b Hb). simpl.
  apply bool_decide_ext. lra.
Qed.

(** The stable sort puts the first item of the largest score in front and
    sorts the others behind it. *)
Lemma toSorted_firstMax (l : list T) :
  NoDup l → finiteScores item l →
  match firstMax item l with
  | None => l = []
  | Some m =>
      toSorted (byScoreDesc item) l = m :: toSorted (byScoreDesc item) (setDelete m l)
  end.
Proof.
  induction 1 as [|a l Ha Hnd IH]; intros Hfin; simpl; [done|].
  assert (finiteScores item l) as Hfinl.
  { intros x Hx. apply Hfin. by right. }
  assert (Num.isFinite (score (item a)) = true) as Hfa by (apply Hfin; left).
  specialize (IH Hfinl).
  destruct (firstMax item l) as [m|] eqn:Hm.
  - pose proof (firstMax_elem _ _ Hm) as Hml.
    rewrite IH. simpl. rewrite byScoreDesc_lt by auto.
    case_bool_decide.
    + f_equal. rewrite setDelete_cons_ne by (intros ->; done). done.
    + rewrite setDelete_head by done. by rewrite IH.
  - subst l. by rewrite setDelete_head.
Qed.

Section Loop.
Variables (m r : R).
Hypothesis range_nonneg : (0 <= r)%R.
Variable tokenCache : gmap string (gset string).

Notation considerCandidate := (considerCandidate item (Fin 1) (Fin m) (Fin r) tokenCache).
Notation pickBest := (pickBest item (Fin 1) (Fin m) (Fin r) tokenCache).
Notation selectLoop := (selectLoop item (Fin 1) (Fin m) (Fin r) tokenCache).

Notation nrm := (normR m r).

Lemma normR_lt (x y : R) : r ≠ 0%R → (nrm x < nrm y)%R ↔ (x < y)%R.
Proof.
  intros Hr. unfold normR. rewrite bool_decide_eq_false_2 by done.
  assert (0 < / r)%R by (apply Rinv_0_lt_compat; lra).
  unfold Rdiv. split; intros Hlt.
  - apply Rmult_lt_reg_r in Hlt; [lra | done].
  - apply Rmult_lt_compat_r; [done | lra].
Qed.

Lemma normR_eq (x y : R) : r ≠ 0%R → nrm x = nrm y → x = y.
Proof.
  intros Hr Heq.
  destruct (Rtotal_order x y) as [Hlt | [-> | Hgt]]; [|done|].
  - apply normR_lt in Hlt; [lra | done].
  - apply normR_lt in Hgt; [lra | done].
Qed.

(** With [lambda = 1] a candidate replaces the best so far exactly when its
    score is larger. *)
Lemma considerCandidate_relevance (selected : list T) (b c : T) (v : R) :
  Num.isFinite (score (item b)) = true → Num.isFinite (score (item c)) = true →
  v = nrm (scoreR item b) →
  ∃ v', considerCandidate selected (Some b, Fin v) c
        = (Some (if bool_decide (scoreR item b < scoreR item c)%R then c else b), Fin v')
        ∧ v' = nrm (scoreR item (if bool_decide (scoreR item b < scoreR item c)%R then c else b)).
Proof.
  intros Hb Hc ->. unfold MMR.considerCandidate.
  rewrite (score_scoreR b Hb), (score_scoreR c Hc), normalizeScore_Fin.
  destruct (maxSimilarityToSelected_Fin item c selected tokenCache) as [s ->].
  rewrite computeMMRScore_Fin. fold (nrm (scoreR item c)). simpl.
  replace (1 * nrm (scoreR item c) - (1 - 1) * s)%R with (nrm (scoreR item c)) by lra.
  destruct (Rlt_dec (scoreR item b) (scoreR item c)) as [Hbc|Hbc].
  - rewrite !(bool_decide_eq_true_2 (scoreR item b < scoreR item c)%R) by done.
    exists (nrm (scoreR item c)). split; [|done].
    destruct (decide (r = 0%R)) as [Hr|Hr].
    + unfold normR. rewrite !(bool_decide_eq_true_2 (r = 0)%R) by done.
      rewrite (bool_decide_eq_false_2 (1 < 1)%R) by lra.
      by rewrite (bool_decide_eq_true_2 (1 = 1)%R) by done.
    + rewrite (bool_decide_eq_true_2 (nrm (scoreR item b) < nrm (scoreR item c))%R);
        [done|]. by apply normR_lt.
  - rewrite !(bool_decide_eq_false_2 (scoreR item b < scoreR item c)%R) by done.
    exists (nrm (scoreR item b)). split; [|done].
    rewrite andb_false_r, orb_false_r.
    destruct (decide (r = 0%R)) as [Hr|Hr].
    + unfold normR. rewrite !(bool_decide_eq_true_2 (r = 0)%R) by done.
      by rewrite (bool_decide_eq_false_2 (1 < 1)%R) by lra.
    + rewrite (bool_decide_eq_false_2 (nrm (scoreR item b) < nrm (scoreR item c))%R);
        [done|]. rewrite normR_lt; done.
Qed.

Lemma foldl_considerCandidate_relevance
    (selected remaining : list T) (b : T) (v : R) :
  Num.isFinite (score (item b)) = true → finiteScores item remaining →
  v = nrm (scoreR item b) →
  (foldl (considerCandidate selected) (Some b, Fin v) remaining).1
  = Some (argmaxFrom item b remaining).
Proof.
  revert b v. induction remaining as [|c l IH]; intros b v Hb Hfin Hv; [done|].
  assert (Num.isFinite (score (item c)) = true) as Hc by (apply Hfin; left).
  assert (finiteScores item l) as Hfinl by (intros x Hx; apply Hfin; by right).
  cbn [foldl]. destruct (considerCandidate_relevance selected b c v Hb Hc Hv) as (v' & -> & Hv').
  apply IH; [by case_bool_decide | done | done].
Qed.

Lemma pickBest_relevance (selected remaining : list T) :
  finiteScores item remaining → pickBest selected remaining = firstMax item remaining.
Proof.
  intros Hfin. destruct remaining as [|c l]; [done|].
  rewrite firstMax_argmaxFrom. unfold MMR.pickBest.
  assert (Num.isFinite (score (item c)) = true) as Hc by (apply Hfin; left).
  assert (finiteScores item l) as Hfinl by (intros x Hx; apply Hfin; by right).
  cbn [foldl].
  assert (∃ v, considerCandidate selected (None, NegInf) c = (Some c, Fin v)
               ∧ v = nrm (scoreR item c)) as (v & -> & Hv).
  { unfold MMR.considerCandidate.
    rewrite (score_scoreR c Hc), normalizeScore_Fin.
    destruct (maxSimilarityToSelected_Fin item c selected tokenCache) as [s ->].
    rewrite computeMMRScore_Fin. fold (nrm (scoreR item c)). simpl.
    eexists. split; [done | lra]. }
  by apply foldl_considerCandidate_relevance.
Qed.

Lemma selectLoop_relevance (rounds : nat) (selected remaining : list T) :
  NoDup remaining → finiteScores item remaining → length remaining ≤ rounds →
  selectLoop rounds selected remaining
  = selected ++ toSorted (byScoreDesc item) remaining.
Proof.
  revert selected remaining.
  induction rounds as [|n IH]; intros selected remaining Hnd Hfin Hlen.
  - destruct remaining; [by rewrite app_nil_r | simpl in Hlen; lia].
  - destruct remaining as [|c l]; [by rewrite app_nil_r|].
    cbn [MMR.selectLoop]. rewrite pickBest_relevance by done.
    pose proof (toSorted_firstMax _ Hnd Hfin) as Hs.
    destruct (firstMax item (c :: l)) as [b|] eqn:Hb; [|done].
    pose proof (firstMax_elem _ _ Hb) as Hbl.
    rewrite IH.
    + rewrite Hs, <- app_assoc. done.
    + by apply NoDup_setDelete.
    + intros x Hx. eapply Hfin, elem_of_setDelete, Hx.
    + pose proof (setDelete_length b (c :: l) Hbl). lia.
Qed.
End Loop.

(** The greedy loop run with [lambda = 1] sorts by descending score. *)
Lemma mmrGreedy_relevance (items : list T) :
  NoDup items → finiteScores item items →
  mmrGreedy item (Fin 1) items = toSorted (byScoreDesc item) items.
Proof.
  intros Hnd Hfin. unfold mmrGreedy.
  destruct items as [|x0 items0] eqn:Hitems; [done|]. rewrite <- Hitems in *.
  destruct (scoreRange_Fin (map (λ i, score (item i)) items)) as (M & m & -> & -> & Hle).
  { by rewrite Hitems. }
  { by apply finiteScores_Forall. }
  change (Fin M - Fin m)%num with (Fin (M - m)).
  rewrite newSet_NoDup by done.
  rewrite selectLoop_relevance; [done | lra | done | done | done].
Qed.
End Relevance.


Section SortedFacts.
Context {T : Type} `{EqDecision T} (item : T → MMRItem).

Lemma scoreGe_scoreR (a b : T) :
  Num.isFinite (score (item a)) = true → Num.isFinite (score (item b)) = true →
  scoreGe item a b ↔ (scoreR item b <= scoreR item a)%R.
Proof.
  intros Ha Hb. unfold scoreGe.
  rewrite (score_scoreR item a Ha), (score_scoreR item b Hb).
  unfold Num.le. simpl. rewrite orb_true_iff, !bool_decide_eq_true. lra.
Qed.

Lemma sortedInsert_sorted (x : T) (l : list T) :
  finiteScores item (x :: l) →
  StronglySorted (scoreGe item) l → StronglySorted (scoreGe item) (sortedInsert (byScoreDesc item) x l).
Proof.
  intros Hfin Hs. induction Hs as [|y l Hs IH Hy]; simpl.
  - repeat constructor.
  - assert (Num.isFinite (score (item x)) = true) as Hx by (apply Hfin; left).
    assert (Num.isFinite (score (item y)) = true) as Hfy by (apply Hfin; right; left).
    assert (finiteScores item (x :: l)) as Hfin'.
    { intros z Hz. apply Hfin. apply elem_of_cons in Hz as [-> | Hz]; [left | right; by right]. }
    rewrite byScoreDesc_lt by done. case_bool_decide as Hlt.
    + constructor; [by apply IH|].
      rewrite (sortedInsert_Permutation (byScoreDesc item) x l).
      constructor; [|done]. apply scoreGe_scoreR; [done | done | lra].
    + constructor; [by constructor|].
      constructor; [apply scoreGe_scoreR; [done | done | lra]|].
      apply Forall_forall. intros z Hz.
      assert (Num.isFinite (score (item z)) = true) as Hfz
        by (apply Hfin; right; by right).
      rewrite Forall_forall in Hy. specialize (Hy z Hz).
      apply scoreGe_scoreR in Hy; [|done|done].
      apply scoreGe_scoreR; [done | done | lra].
Qed.

Lemma toSorted_sorted (l : list T) :
  finiteScores item l → StronglySorted (scoreGe item) (toSorted (byScoreDesc item) l).
Proof.
  induction l as [|x l IH]; intros Hfin; simpl; [constructor|].
  apply sortedInsert_sorted.
  - intros z Hz. apply Hfin.
    apply elem_of_cons in Hz as [-> | Hz]; [left | right].
    by rewrite <- (toSorted_Permutation (byScoreDesc item) l).
  - apply IH. intros z Hz. apply Hfin. by right.
Qed.

Lemma toSorted_short (l : list T) :
  length l ≤ 1 → toSorted (byScoreDesc item) l = l.
Proof. destruct l as [|x [|y l]]; simpl; [done | done | lia]. Qed.

(** A trade-off parameter of at least 1 is clamped to 1. *)
Lemma clamp_one (lambda : number) :
  (Fin 1 <=? lambda)%num = true → Num.max (Fin 0) (Num.min (Fin 1) lambda) = Fin 1.
Proof.
  intros Hl. destruct lambda as [| |x|]; try discriminate.
  - unfold Num.le in Hl. simpl in Hl.
    rewrite orb_true_iff, !bool_decide_eq_true in Hl.
    simpl. rewrite (bool_decide_eq_false_2 (x < 1)%R) by lra.
    simpl. by rewrite bool_decide_eq_true_2 by lra.
  - simpl. by rewrite bool_decide_eq_true_2 by lra.
Qed.

(** With a trade-off parameter that is [NaN] no candidate is ever chosen. *)
Lemma considerCandidate_nan (minScore scoreRange : number)
    (cache : gmap string (gset string)) (selected : list T)
    (st : option T * number) (c : T) :
  considerCandidate item NaN minScore scoreRange cache selected st c = st.
Proof.
  destruct st as [b s]. unfold considerCandidate, computeMMRScore. simpl.
  by destruct s.
Qed.

Lemma foldl_considerCandidate_nan (minScore scoreRange : number)
    (cache : gmap string (gset string)) (selected remaining : list T)
    (st : option T * number) :
  foldl (considerCandidate item NaN minScore scoreRange cache selected) st remaining = st.
Proof.
  induction remaining as [|c l IH]; simpl; [done|].
  by rewrite considerCandidate_nan.
Qed.

Lemma pickBest_nan (minScore scoreRange : number)
    (cache : gmap string (gset string)) (selected remaining : list T) :
  pickBest item NaN minScore scoreRange cache selected remaining = None.
Proof. unfold pickBest. by rewrite foldl_considerCandidate_nan. Qed.

(** ... so the enabled stage returns nothing for two items or more. *)
Lemma mmrRerank_nan_lambda (items : list T) :
  2 ≤ length items →
  mmrRerank item items {| enabled_opt := Some true; lambda_opt := Some NaN |} = [].
Proof.
  intros Hlen. unfold mmrRerank. simpl.
  rewrite bool_decide_eq_false_2 by lia. simpl.
  unfold mmrGreedy. destruct items as [|x items]; [simpl in Hlen; lia|].
  simpl. by rewrite pickBest_nan.
Qed.
End SortedFacts.

Section Eval.
Context {T : Type} `{EqDecision T} (item : T → MMRItem).
Variables (l m r : R).
Variable tokenCache : gmap string (gset string).

Lemma considerCandidate_eval (selected : list T) (st : option T * number) (c : T)
    (x s : R) :
  r ≠ 0%R →
  score (item c) = Fin x →
  maxSimilarityToSelected item c selected tokenCache = Fin s →
  considerCandidate item (Fin l) (Fin m) (Fin r) tokenCache selected st c
  = let mmrScore := Fin (l * ((x - m) / r) - (1 - l) * s) in
    if (mmrScore >? st.2)%num
       || ((mmrScore =? st.2)%num
           && (Fin x >? match st.1 with Some b => score (item b) | None => NegInf end)%num)
    then (Some c, mmrScore) else st.
Proof.
  intros Hr Hx Hs. destruct st as [b bs]. unfold MMR.considerCandidate.
  rewrite Hx, Hs, normalizeScore_Fin, bool_decide_eq_false_2 by done.
  by rewrite computeMMRScore_Fin.
Qed.
End Eval.

(** *** The three-item example, round by round *)

Import Sample.

Lemma simBA : maxSimilarityToSelected abcItem B [A] cacheABC = Fin (3/4).
Proof. r_compute. Qed.
Lemma simCA : maxSimilarityToSelected abcItem C [A] cacheABC = Fin 0.
Proof. r_compute. Qed.
Lemma simCAB : maxSimilarityToSelected abcItem C [A; B] cacheABC = Fin 0.
Proof. r_compute. Qed.
Lemma scoresABC :
  Num.maxList (map (λ i, score (abcItem i)) [A;B;C]) = Fin 0.9
  ∧ Num.minList (map (λ i, score (abcItem i)) [A;B;C]) = Fin 0.5.
Proof. split; r_compute. Qed.

Ltac candidate st c x s sim :=
  rewrite (considerCandidate_eval abcItem _ _ _ _ _ st c x s)
    by (first [exact sim | lra | reflexivity]);
  cbn [fst snd Num.gt Num.lt Num.eq abcItem score];
  repeat first [ rewrite bool_decide_eq_true_2 by lra
               | rewrite bool_decide_eq_false_2 by lra ];
  cbn [orb andb].


Lemma round1 :
  pickBest abcItem (Fin 0.5) (Fin 0.5) (Fin 0.4) cacheABC [] [A;B;C] = Some A.
Proof.
  unfold pickBest. cbn [foldl].
  candidate (@None abc, NegInf) A 0.9%R 0%R (eq_refl (Fin 0)).
  candidate (Some A, Fin (0.5 * ((0.9 - 0.5) / 0.4) - (1 - 0.5) * 0)) B
            0.85%R 0%R (eq_refl (Fin 0)).
  candidate (Some A, Fin (0.5 * ((0.9 - 0.5) / 0.4) - (1 - 0.5) * 0)) C
            0.5%R 0%R (eq_refl (Fin 0)).
  reflexivity.
Qed.

Lemma round2 :
  pickBest abcItem (Fin 0.5) (Fin 0.5) (Fin 0.4) cacheABC [A] [B;C] = Some B.
Proof.
  unfold pickBest. cbn [foldl].
  candidate (@None abc, NegInf) B 0.85%R (3/4)%R simBA.
  candidate (Some B, Fin (0.5 * ((0.85 - 0.5) / 0.4) - (1 - 0.5) * (3/4))) C
            0.5%R 0%R simCA.
  reflexivity.
Qed.

Lemma round3 :
  pickBest abcItem (Fin 0.5) (Fin 0.5) (Fin 0.4) cacheABC [A;B] [C] = Some C.
Proof.
  unfold pickBest. cbn [foldl].
  candidate (@None abc, NegInf) C 0.5%R 0%R simCAB.
  reflexivity.
Qed.

Lemma selectLoop_step {T} `{EqDecision T} (item : T → MMRItem) l m r cache
    (n : nat) (selected : list T) (c : T) (remaining : list T) (b : T) :
  pickBest item l m r cache selected (c :: remaining) = Some b →
  selectLoop item l m r cache (S n) selected (c :: remaining)
  = selectLoop item l m r cache n (selected ++ [b]) (setDelete b (c :: remaining)).
Proof. intros Hb. cbn [MMR.selectLoop]. by rewrite Hb. Qed.

Lemma abc_rerank : mmrRerank abcItem [A; B; C] (config (Fin 0.5)) = [A; B; C].
Proof.
  unfold mmrRerank, config. cbn [default from_option Datatypes.id enabled_opt lambda_opt negb orb length].
  rewrite bool_decide_eq_false_2 by (simpl; lia). cbn [orb].
  assert (Num.max (Fin 0) (Num.min (Fin 1) (Fin 0.5)) = Fin 0.5) as -> by r_compute.
  simpl (Fin 0.5 =? Fin 1)%num. rewrite bool_decide_eq_false_2 by lra.
  unfold mmrGreedy. destruct scoresABC as [-> ->].
  replace (Fin 0.9 - Fin 0.5)%num with (Fin 0.4) by (simpl; f_equal; lra).
  fold cacheABC. change (newSet [A;B;C]) with [A;B;C]. cbn [length].
  rewrite (selectLoop_step _ _ _ _ _ _ _ _ _ _ round1).
  change (setDelete A [A;B;C]) with [B;C]. cbn [app].
  rewrite (selectLoop_step _ _ _ _ _ _ _ _ _ _ round2).
  change (setDelete B [B;C]) with [C]. cbn [app].
  rewrite (selectLoop_step _ _ _ _ _ _ _ _ _ _ round3).
  reflexivity.
Qed.

End MMRFacts.

(** ** The adapter: item ids are unique, so every result is found again *)

Module AdapterFacts.
Import MMR MMRFacts.

Lemma chars_append (s t : string) :
  list_ascii_of_string (s +:+ t) = list_ascii_of_string s ++ list_ascii_of_string t.
Proof. induction s as [|c s IH]; [done|]. cbn. by rewrite <- IH. Qed.

Lemma chars_inj (s t : string) :
  list_ascii_of_string s = list_ascii_of_string t → s = t.
Proof.
  intros E. rewrite <- (string_of_list_ascii_of_string s),
    <- (string_of_list_ascii_of_string t). by rewrite E.
Qed.

Lemma pretty_N_go_no_colon (x : N) (s : string) :
  ":"%char ∉ list_ascii_of_string s →
  ":"%char ∉ list_ascii_of_string (pretty_N_go x s).
Proof.
  revert s. induction (N.lt_wf_0 x) as [x _ IH]; intros s Hs.
  assert (x = 0 ∨ 0 < x)%N as [-> | Hx] by lia.
  - by rewrite pretty_N_go_0.
  - rewrite pretty_N_go_step by done. apply IH.
    + by apply N.div_lt.
    + cbn. rewrite not_elem_of_cons. split; [|done].
      unfold pretty_N_char. by repeat case_match.
Qed.

Lemma pretty_nat_no_colon (n : nat) :
  ":"%char ∉ list_ascii_of_string (pretty n).
Proof.
  unfold pretty, pretty_nat, pretty, pretty_N. case_decide.
  - cbn. rewrite not_elem_of_cons. split; [done | apply not_elem_of_nil].
  - apply pretty_N_go_no_colon. cbn. apply not_elem_of_nil.
Qed.

(** What follows the last colon of a text is determined by the text. *)
Lemma after_last_colon (l1 l2 d1 d2 : list ascii) :
  ":"%char ∉ d1 → ":"%char ∉ d2 →
  l1 ++ ":"%char :: d1 = l2 ++ ":"%char :: d2 → d1 = d2.
Proof.
  intros H1 H2 E.
  apply app_eq_inv in E as [(k & -> & E) | (k & -> & E)].
  - destruct k as [|c k]; cbn in E; [congruence|].
    injection E as <- ->. exfalso. apply H2.
    rewrite elem_of_app, elem_of_cons. right. by left.
  - destruct k as [|c k]; cbn in E; [congruence|].
    injection E as <- ->. exfalso. apply H1.
    rewrite elem_of_app, elem_of_cons. right. by left.
Qed.

Section Ids.
Context {T : Type} (fields : T → Hybrid.HybridResult).

Lemma id_index (i j : nat) (r r' : T) :
  id (toMMRItem fields i r) = id (toMMRItem fields j r') → i = j.
Proof.
  unfold toMMRItem. cbn [id]. intros E.
  apply (f_equal list_ascii_of_string) in E.
  rewrite !chars_append in E. cbn [list_ascii_of_string app] in E.
  pose proof
    (after_last_colon
       (list_ascii_of_string (Hybrid.path (fields r)) ++
          ":"%char :: list_ascii_of_string (pretty (Hybrid.startLine (fields r))))
       (list_ascii_of_string (Hybrid.path (fields r')) ++
          ":"%char :: list_ascii_of_string (pretty (Hybrid.startLine (fields r'))))
       _ _ (pretty_nat_no_colon i) (pretty_nat_no_colon j)
       ltac:(by rewrite <- !app_assoc)) as E'.
  by apply chars_inj, (inj pretty) in E'.
Qed.

Lemma foldl_set_other (m : gmap string T) (l : list (nat * T)) (k : string) :
  (∀ ir, ir ∈ l → id (toMMRItem fields ir.1 ir.2) ≠ k) →
  foldl (λ m ir, <[id (toMMRItem fields ir.1 ir.2) := ir.2]> m) m l !! k = m !! k.
Proof.
  revert m. induction l as [|x l IH]; intros m Hk; [done|].
  cbn [foldl]. rewrite IH.
  - apply lookup_insert_ne, Hk. by left.
  - intros ir Hir. apply Hk. by right.
Qed.

Lemma foldl_set_get (m : gmap string T) (l : list (nat * T)) (i : nat) (r : T) :
  NoDup l.*1 → (i, r) ∈ l →
  foldl (λ m ir, <[id (toMMRItem fields ir.1 ir.2) := ir.2]> m) m l
    !! id (toMMRItem fields i r) = Some r.
Proof.
  revert m. induction l as [|x l IH]; intros m Hnd Hin.
  - by apply elem_of_nil in Hin.
  - cbn [fmap list_fmap] in Hnd. apply NoDup_cons in Hnd as [Hx Hnd].
    cbn [foldl]. apply elem_of_cons in Hin as [<- | Hin].
    + rewrite foldl_set_other; [by rewrite lookup_insert_eq|].
      intros [j r'] Hj E. apply id_index in E. cbn in E. subst j.
      apply Hx. apply list_elem_of_fmap. by exists (i, r').
    + by apply IH.
Qed.

(** [itemById.get] of the id made at position [i] is the result at [i]. *)
Lemma buildItemById_get (results : list T) (i : nat) (r : T) :
  results !! i = Some r →
  buildItemById fields results !! id (toMMRItem fields i r) = Some r.
Proof.
  intros Hi. unfold buildItemById. apply foldl_set_get.
  - rewrite fst_zip by (by rewrite length_seq). apply NoDup_seq.
  - apply list_elem_of_lookup. exists i. apply lookup_zip_with_Some.
    exists i, r. split; [done|]. split; [|done].
    apply lookup_seq. split; [done|]. by apply lookup_lt_Some in Hi.
Qed.

(** The adapter returns the results at the positions [mmrRerank] returns. *)
Lemma adapter_get (results : list T) (i : nat) (r : T) :
  results !! i = Some r →
  buildItemById fields results !! id (imap (toMMRItem fields) results !!! i) = Some r.
Proof.
  intros Hi.
  rewrite (list_lookup_total_correct (imap (toMMRItem fields) results) i
             (toMMRItem fields i r)).
  - by apply buildItemById_get.
  - by rewrite list_lookup_imap, Hi.
Qed.

(** Looking up the ids of all positions in turn gives the results in their
    order. *)
Lemma adapter_positions (results : list T) :
  (λ i, buildItemById fields results !! id (imap (toMMRItem fields) results !!! i))
    <$> seq 0 (length results)
  = Some <$> results.
Proof.
  apply list_eq. intros i. rewrite !list_lookup_fmap.
  destruct (results !! i) as [r|] eqn:Hi.
  - rewrite (lookup_seq_lt 0 (length results) i) by (by apply lookup_lt_Some in Hi).
    cbn [fmap option_fmap option_map Nat.add]. f_equal.
    by rewrite (adapter_get results i r Hi).
  - by rewrite lookup_seq_ge by (by apply lookup_ge_None in Hi).
Qed.

(** With finite scores and a [lambda] that is a number, the adapter returns
    every result, once. *)
Lemma applyMMRToHybridResults_Permutation (results : list T) (config : PartialMMRConfig) :
  (∀ r, r ∈ results → Num.isFinite (Hybrid.score (fields r)) = true) →
  lambda_opt config ≠ Some NaN →
  applyMMRToHybridResults fields results config ≡ₚ Some <$> results.
Proof.
  intros Hfin Hnan. unfold applyMMRToHybridResults.
  destruct results as [|r0 rs]; [done|].
  set (results := r0 :: rs) in *.
  rewrite (mmrRerank_Permutation (λ i : nat, imap (toMMRItem fields) results !!! i));
    [| apply NoDup_seq | | done].
  - rewrite length_imap. by rewrite adapter_positions.
  - intros i Hi. apply elem_of_seq in Hi. rewrite length_imap in Hi.
    destruct (lookup_lt_is_Some_2 results i) as [r Hr]; [lia|].
    rewrite (list_lookup_total_correct (imap (toMMRItem fields) results) i
               (toMMRItem fields i r)) by (by rewrite list_lookup_imap, Hr).
    cbn. apply Hfin. by apply list_elem_of_lookup_2 in Hr.
Qed.

(** Disabled, or for at most one result, the adapter returns the results in
    their order. *)
Lemma applyMMRToHybridResults_copy (results : list T) (config : PartialMMRConfig) :
  default (enabled DEFAULT_MMR_CONFIG) (enabled_opt config) = false
  ∨ length results ≤ 1 →
  applyMMRToHybridResults fields results config = Some <$> results.
Proof.
  intros Hc. unfold applyMMRToHybridResults.
  destruct results as [|r0 rs]; [done|].
  set (results := r0 :: rs) in *.
  rewrite mmrRerank_unchanged.
  - rewrite length_imap. apply adapter_positions.
  - by rewrite length_seq, length_imap.
Qed.

(** Whatever the numbers are, [itemById.get] finds a result for every item
    [mmrRerank] returns. *)
Lemma applyMMRToHybridResults_found (results : list T) (config : PartialMMRConfig) :
  ∃ l, applyMMRToHybridResults fields results config = Some <$> l
       ∧ ∀ r, r ∈ l → r ∈ results.
Proof.
  unfold applyMMRToHybridResults.
  destruct results as [|r0 rs]; [by exists []|].
  set (results := r0 :: rs) in *.
  set (mmrItems := imap (toMMRItem fields) results).
  pose proof (mmrRerank_sub (λ i : nat, mmrItems !!! i) (seq 0 (length mmrItems)) config)
    as Hsub.
  induction (mmrRerank _ _ _) as [|i l IH].
  { exists []. split; [done|]. intros r Hr. by apply elem_of_nil in Hr. }
  destruct IH as (l' & IH & Hl'). { intros x Hx. apply Hsub. by right. }
  assert (i < length results) as Hi.
  { specialize (Hsub i ltac:(by left)). apply elem_of_seq in Hsub.
    unfold mmrItems in Hsub. rewrite length_imap in Hsub. lia. }
  destruct (lookup_lt_is_Some_2 results i Hi) as [r Hr].
  exists (r :: l'). split.
  - rewrite !fmap_cons, IH. f_equal. unfold mmrItems. by apply adapter_get.
  - intros x [-> | Hx]%elem_of_cons; [by apply list_elem_of_lookup_2 in Hr | by apply Hl'].
Qed.
End Ids.
End AdapterFacts.

(** * Properties of the calendar arithmetic *)

Module DateFacts.
Import JSDate.
Local Open Scope Z_scope.

(** ** Calendar facts *)


Lemma DaysInYear_cases (y : Z) :
  DaysInYear y = 365 ∨ DaysInYear y = 366.
Proof. unfold DaysInYear. destruct (isLeapYear y); auto. Qed.

Lemma isLeapYear_spec (y : Z) :
  isLeapYear y = true ↔ y mod 4 = 0 ∧ (y mod 100 ≠ 0 ∨ y mod 400 = 0).
Proof.
  unfold isLeapYear.
  rewrite andb_true_iff, orb_true_iff, negb_true_iff, !bool_decide_eq_true,
    bool_decide_eq_false. tauto.
Qed.

Lemma DayFromYear_succ (y : Z) : DayFromYear (y + 1) = DayFromYear y + DaysInYear y.
Proof.
  unfold DaysInYear, DayFromYear.
  destruct (isLeapYear y) eqn:Hl.
  - apply isLeapYear_spec in Hl. div_lia.
  - assert (¬ (y mod 4 = 0 ∧ (y mod 100 ≠ 0 ∨ y mod 400 = 0))) as Hn.
    { rewrite <- isLeapYear_spec. congruence. }
    div_lia.
Qed.

Lemma DayFromYear_lt (y y' : Z) : y < y' → DayFromYear y < DayFromYear y'.
Proof. unfold DayFromYear. div_lia. Qed.

Lemma YearFromDay_spec (d : Z) :
  DayFromYear (YearFromDay d) <= d < DayFromYear (YearFromDay d + 1).
Proof.
  unfold YearFromDay.
  repeat case_bool_decide.
  - split; [done|]. unfold DayFromYear in *. div_lia.
  - split; [done|]. replace (1970 + 400 * d / 146097 + 1) with (1970 + 400 * d / 146097 + 1) by lia. div_lia.
  - replace (1970 + 400 * d / 146097 - 1 + 1) with (1970 + 400 * d / 146097) by lia.
    split; [|div_lia]. unfold DayFromYear in *. div_lia.
Qed.

Lemma DayFromYear_le (y y' : Z) : y <= y' → DayFromYear y <= DayFromYear y'.
Proof. unfold DayFromYear. div_lia. Qed.

Lemma YearFromDay_unique (d y : Z) :
  DayFromYear y <= d < DayFromYear (y + 1) → YearFromDay d = y.
Proof.
  intros Hy. pose proof (YearFromDay_spec d) as Hs.
  destruct (Z.lt_trichotomy (YearFromDay d) y) as [Hlt | [Heq | Hgt]]; [|done|].
  - pose proof (DayFromYear_le (YearFromDay d + 1) y). lia.
  - pose proof (DayFromYear_le (y + 1) (YearFromDay d)). lia.
Qed.

Lemma Day_MakeDate (day : Z) : Day (MakeDate day 0) = day.
Proof. unfold Day, MakeDate, msPerDay. div_lia. Qed.

Lemma DayWithinYear_range (t : Z) :
  0 <= DayWithinYear t < DaysInYear (YearFromTime t).
Proof.
  unfold DayWithinYear, YearFromTime.
  pose proof (YearFromDay_spec (Day t)) as Hs.
  rewrite DayFromYear_succ in Hs. lia.
Qed.

(** Every time value falls on a day of the calendar. *)
Lemma time_fields_valid (t : Z) :
  validDate (YearFromTime t) (MonthFromTime t + 1) (DateFromTime t).
Proof.
  pose proof (DayWithinYear_range t) as Hr.
  unfold validDate, DateFromTime, MonthFromTime, InLeapYear, daysInMonth, DaysInYear in *.
  destruct (isLeapYear (YearFromTime t)); repeat case_bool_decide; simpl; lia.
Qed.

Lemma MakeDay_valid (y m d : Z) :
  validDate y m d →
  ∃ w, MakeDay y (m - 1) d = DayFromYear y + w ∧ 0 <= w < DaysInYear y
       ∧ w = (match m with
              | 1 => 0 | 2 => 31 | 3 => 59 | 4 => 90 | 5 => 120 | 6 => 151 | 7 => 181
              | 8 => 212 | 9 => 243 | 10 => 273 | 11 => 304 | _ => 334
              end) + (if bool_decide (3 <= m) then (if isLeapYear y then 1 else 0) else 0)
             + d - 1.
Proof.
  intros [Hm Hd]. unfold MakeDay, monthStart.
  replace ((m - 1) / 12) with 0 by div_lia.
  replace ((m - 1) mod 12) with (m - 1) by div_lia.
  rewrite Z.add_0_r. eexists. split; [|split; [|reflexivity]].
  - assert (m = 1 ∨ m = 2 ∨ m = 3 ∨ m = 4 ∨ m = 5 ∨ m = 6 ∨ m = 7 ∨ m = 8 ∨ m = 9
            ∨ m = 10 ∨ m = 11 ∨ m = 12) as Hcases by lia.
    repeat (destruct Hcases as [-> | Hcases]); try subst m; simpl;
      destruct (isLeapYear y); lia.
  - assert (m = 1 ∨ m = 2 ∨ m = 3 ∨ m = 4 ∨ m = 5 ∨ m = 6 ∨ m = 7 ∨ m = 8 ∨ m = 9
            ∨ m = 10 ∨ m = 11 ∨ m = 12) as Hcases by lia.
    unfold daysInMonth, DaysInYear in *.
    repeat (destruct Hcases as [-> | Hcases]); try subst m; simpl in *;
      destruct (isLeapYear y); lia.
Qed.

(** A valid calendar date is read back from the time value made for it. *)
Lemma MakeDay_roundtrip (y m d : Z) :
  validDate y m d →
  let t := MakeDate (MakeDay y (m - 1) d) 0 in
  YearFromTime t = y ∧ MonthFromTime t = m - 1 ∧ DateFromTime t = d.
Proof.
  intros Hv t. destruct (MakeDay_valid y m d Hv) as (w & Hday & Hw & Hwm).
  destruct Hv as [Hm Hd].
  assert (YearFromTime t = y) as Hy.
  { unfold YearFromTime, t. rewrite Day_MakeDate, Hday.
    apply YearFromDay_unique. rewrite DayFromYear_succ. lia. }
  assert (DayWithinYear t = w) as Hdw.
  { unfold DayWithinYear. rewrite Hy. unfold t. rewrite Day_MakeDate, Hday. lia. }
  split; [done|].
  assert (m = 1 ∨ m = 2 ∨ m = 3 ∨ m = 4 ∨ m = 5 ∨ m = 6 ∨ m = 7 ∨ m = 8 ∨ m = 9
          ∨ m = 10 ∨ m = 11 ∨ m = 12) as Hcases by lia.
  unfold DateFromTime, MonthFromTime, InLeapYear. rewrite Hy, Hdw.
  unfold daysInMonth, DaysInYear in *.
  repeat (destruct Hcases as [-> | Hcases]); try subst m; simpl in *;
    destruct (isLeapYear y); simpl in *; subst w;
    repeat case_bool_decide; simpl; lia.
Qed.

End DateFacts.

(** * Properties of the decay stage *)

Module DecayFacts.
Import TemporalDecay.
Import DateFacts.

(** ** Strings and the dated-path pattern *)

Lemma length_append (s1 s2 : string) :
  String.length (s1 +:+ s2) = (String.length s1 + String.length s2)%nat.
Proof. induction s1 as [|c s1 IH]; simpl; [done | by rewrite IH]. Qed.

Lemma append_cons (c : ascii) (s1 s2 : string) :
  String c s1 +:+ s2 = String c (s1 +:+ s2).
Proof. reflexivity. Qed.

Lemma append_nil (s : string) : "" +:+ s = s.
Proof. reflexivity. Qed.

Lemma append_assoc (s1 s2 s3 : string) : (s1 +:+ s2) +:+ s3 = s1 +:+ (s2 +:+ s3).
Proof.
  induction s1 as [|c s1 IH]; [done|]. by rewrite !append_cons, IH.
Qed.

Lemma string_length4 (s : string) :
  String.length s = 4%nat →
  ∃ a b c d, s = String a (String b (String c (String d EmptyString))).
Proof.
  destruct s as [|a [|b [|c [|d [|? ?]]]]]; try discriminate. intros _. by exists a, b, c, d.
Qed.

Lemma string_length2 (s : string) :
  String.length s = 2%nat → ∃ a b, s = String a (String b EmptyString).
Proof.
  destruct s as [|a [|b [|? ?]]]; try discriminate. intros _. by exists a, b.
Qed.

Lemma isDigit_code (c : ascii) :
  Str.isDigit c = true → (48 <= Z.of_N (Str.code c) <= 57)%Z.
Proof.
  unfold Str.isDigit, Str.between. rewrite andb_true_iff, !N.leb_le.
  change (Str.code "0") with 48%N. change (Str.code "9") with 57%N. lia.
Qed.

Lemma digitsToZ_4 (s : string) :
  String.length s = 4%nat → allDigits s = true → (0 <= digitsToZ s <= 9999)%Z.
Proof.
  intros Hl Hd. destruct (string_length4 s Hl) as (a & b & c & d & ->).
  simpl in Hd. rewrite !andb_true_iff in Hd. destruct Hd as (Ha & Hb & Hc & Hd & _).
  apply isDigit_code in Ha, Hb, Hc, Hd. unfold digitsToZ. simpl. lia.
Qed.

Lemma digitsToZ_2 (s : string) :
  String.length s = 2%nat → allDigits s = true → (0 <= digitsToZ s <= 99)%Z.
Proof.
  intros Hl Hd. destruct (string_length2 s Hl) as (a & b & ->).
  simpl in Hd. rewrite !andb_true_iff in Hd. destruct Hd as (Ha & Hb & _).
  apply isDigit_code in Ha, Hb. unfold digitsToZ. simpl. lia.
Qed.

Lemma matchDatedTail_datedTail (Y M D : string) :
  dateGroups Y M D → matchDatedTail (datedTail Y M D) = Some (Y, M, D).
Proof.
  intros (HlY & HdY & HlM & HdM & HlD & HdD).
  destruct (string_length4 Y HlY) as (y1 & y2 & y3 & y4 & ->).
  destruct (string_length2 M HlM) as (m1 & m2 & ->).
  destruct (string_length2 D HlD) as (d1 & d2 & ->).
  unfold matchDatedTail, datedTail. rewrite !append_cons, !append_nil. cbn [substring].
  rewrite bool_decide_eq_true_2 by reflexivity.
  rewrite HdY, HdM, HdD. reflexivity.
Qed.

Lemma matchDatedTail_length (s : string) (g : string * string * string) :
  matchDatedTail s = Some g → String.length s = 20%nat.
Proof.
  unfold matchDatedTail.
  destruct (bool_decide (s = _)) eqn:Heq; [|done].
  apply bool_decide_eq_true_1 in Heq.
  destruct (bool_decide (String.length (substring 7 4 s) = 4%nat)) eqn:H4; [|done].
  destruct (allDigits (substring 7 4 s)); [|done].
  destruct (bool_decide (String.length (substring 12 2 s) = 2%nat)) eqn:H2; [|done].
  destruct (allDigits (substring 12 2 s)); [|done].
  destruct (bool_decide (String.length (substring 15 2 s) = 2%nat)) eqn:H2'; [|done].
  intros _. apply bool_decide_eq_true_1 in H4, H2, H2'.
  rewrite Heq, !length_append, H4, H2, H2'. reflexivity.
Qed.

Lemma ends_with_slash_tail (c : ascii) (dir : string) :
  (∃ p, String c dir = p +:+ "/") →
  (dir = "" ∧ c = "/"%char) ∨ (dir ≠ "" ∧ ∃ p, dir = p +:+ "/").
Proof.
  intros [[|c0 p] Hp]; simpl in Hp.
  - injection Hp as -> ->. by left.
  - injection Hp as -> ->. right. split; [by destruct p | by exists p].
Qed.

Lemma execDatedFrom_here (s : string) (g : string * string * string) :
  matchDatedTail s = Some g → execDatedFrom true s = Some g.
Proof. intros Hs. destruct s; cbn [execDatedFrom]; by rewrite Hs. Qed.

Lemma execDatedFrom_through (dir tail : string) (g : string * string * string) (b : bool) :
  matchDatedTail tail = Some g →
  (dir = "" → b = true) → (dir ≠ "" → ∃ p, dir = p +:+ "/") →
  execDatedFrom b (dir +:+ tail) = Some g.
Proof.
  intros Htail. pose proof (matchDatedTail_length _ _ Htail) as Hlen.
  revert b. induction dir as [|c dir IH]; intros b Hb Hdir.
  - rewrite (Hb eq_refl), append_nil. by apply execDatedFrom_here.
  - destruct (ends_with_slash_tail c dir (Hdir ltac:(done))) as [[-> ->] | [Hne Hp]].
    + rewrite ?append_cons, ?append_nil. cbn [execDatedFrom].
      assert (matchDatedTail (String "/" tail) = None) as Hnone.
      { destruct (matchDatedTail (String "/" tail)) as [g'|] eqn:Hg; [|done].
        apply matchDatedTail_length in Hg. simpl in Hg. lia. }
      rewrite Hnone. destruct b; rewrite bool_decide_eq_true_2 by done;
        by apply execDatedFrom_here.
    + rewrite ?append_cons, ?append_nil. cbn [execDatedFrom].
      assert (matchDatedTail (String c (dir +:+ tail)) = None) as Hnone.
      { destruct (matchDatedTail (String c (dir +:+ tail))) as [g'|] eqn:Hg; [|done].
        apply matchDatedTail_length in Hg. simpl in Hg. rewrite length_append in Hg. lia. }
      rewrite Hnone. destruct b; apply IH; done.
Qed.

Lemma exec_dated (dir Y M D : string) :
  dateGroups Y M D → (dir = "" ∨ ∃ p, dir = p +:+ "/") →
  DATED_MEMORY_PATH_RE_exec (dir +:+ datedTail Y M D) = Some (Y, M, D).
Proof.
  intros Hg Hdir. apply execDatedFrom_through.
  - by apply matchDatedTail_datedTail.
  - done.
  - intros Hne. destruct Hdir; done.
Qed.

(** ** Dates embedded in a path *)

Lemma parse_valid (filePath dir Y M D : string) :
  normalizePath filePath = dir +:+ datedTail Y M D →
  dateGroups Y M D → (dir = "" ∨ ∃ p, dir = p +:+ "/") →
  JSDate.validDate (digitsToZ Y) (digitsToZ M) (digitsToZ D) →
  (100 <= digitsToZ Y)%Z →
  ∃ t, parseMemoryDateFromPath filePath = Some (DateAt t)
       ∧ (t mod JSDate.msPerDay = 0)%Z
       ∧ JSDate.YearFromTime t = digitsToZ Y
       ∧ JSDate.MonthFromTime t = (digitsToZ M - 1)%Z
       ∧ JSDate.DateFromTime t = digitsToZ D.
Proof.
  intros Hnorm Hg Hdir Hvalid Hy.
  pose proof Hg as (HlY & HdY & HlM & HdM & HlD & HdD).
  pose proof (digitsToZ_4 Y HlY HdY) as HYr.
  unfold parseMemoryDateFromPath. rewrite Hnorm, exec_dated by done.
  set (y := digitsToZ Y) in *. set (m := digitsToZ M) in *. set (d := digitsToZ D) in *.
  unfold JSDate.UTC. rewrite bool_decide_eq_false_2 by lia.
  destruct (MakeDay_roundtrip y m d Hvalid) as (Hyear & Hmonth & Hdate).
  destruct (MakeDay_valid y m d Hvalid) as (w & Hday & Hw & _).
  set (t := JSDate.MakeDate (JSDate.MakeDay y (m - 1) d) 0) in *.
  assert (JSDate.TimeClip t = Some t) as ->.
  { unfold JSDate.TimeClip. rewrite bool_decide_eq_false_2; [done|].
    unfold t, JSDate.MakeDate, JSDate.msPerDay. rewrite Hday.
    pose proof (DaysInYear_cases y).
    unfold JSDate.DayFromYear. Z.to_euclidean_division_equations; lia. }
  rewrite !bool_decide_eq_true_2 by done. simpl.
  exists t. repeat split; try done.
  unfold t, JSDate.MakeDate, JSDate.msPerDay.
  rewrite Z.add_0_r. apply Z_mod_mult.
Qed.

Lemma parse_invalid (filePath dir Y M D : string) :
  normalizePath filePath = dir +:+ datedTail Y M D →
  dateGroups Y M D → (dir = "" ∨ ∃ p, dir = p +:+ "/") →
  ¬ JSDate.validDate (digitsToZ Y) (digitsToZ M) (digitsToZ D) →
  parseMemoryDateFromPath filePath = None.
Proof.
  intros Hnorm Hg Hdir Hinvalid.
  unfold parseMemoryDateFromPath. rewrite Hnorm, exec_dated by done.
  destruct (JSDate.UTC _ _ _) as [t|]; [|done].
  pose proof (time_fields_valid t) as Hv.
  repeat case_bool_decide; simpl; try done.
  exfalso. apply Hinvalid.
  replace (digitsToZ M) with (JSDate.MonthFromTime t + 1)%Z by lia. congruence.
Qed.

Lemma evergreen_dated_false (filePath dir Y M D : string) :
  normalizePath filePath = dir +:+ datedTail Y M D →
  dateGroups Y M D → (dir = "" ∨ ∃ p, dir = p +:+ "/") →
  isEvergreenMemoryPath filePath = false.
Proof.
  intros Hnorm Hg Hdir. unfold isEvergreenMemoryPath. rewrite Hnorm.
  assert (String.length (dir +:+ datedTail Y M D) ≥ 20) as Hlen.
  { rewrite length_append.
    rewrite (matchDatedTail_length _ _ (matchDatedTail_datedTail Y M D Hg)). lia. }
  rewrite !bool_decide_eq_false_2.
  - simpl. destruct (startsWith _ _); [|done]. simpl.
    unfold DATED_MEMORY_PATH_RE_test. rewrite exec_dated by done.
    by rewrite bool_decide_eq_true_2 by eauto.
  - intros Heq. rewrite Heq in Hlen. simpl in Hlen. lia.
  - intros Heq. rewrite Heq in Hlen. simpl in Hlen. lia.
Qed.


(** ** The decay multiplier *)

Lemma le_Fin (x y : R) : (Fin x <=? Fin y)%num = bool_decide (x <= y)%R.
Proof.
  unfold Num.le. simpl. apply eq_true_iff_eq.
  rewrite orb_true_iff, !bool_decide_eq_true. lra.
Qed.

Lemma toDecayLambda_neutral (h : number) :
  Num.isFinite h = false ∨ (h <=? Fin 0)%num = true → toDecayLambda h = Fin 0.
Proof.
  intros [Hh | Hh]; unfold toDecayLambda; rewrite Hh; [done|].
  by rewrite orb_true_r.
Qed.

Lemma multiplier_neutral (age h : number) :
  Num.isFinite h = false ∨ (h <=? Fin 0)%num = true →
  calculateTemporalDecayMultiplier age h = Fin 1.
Proof.
  intros Hh. unfold calculateTemporalDecayMultiplier.
  rewrite (toDecayLambda_neutral h Hh), le_Fin.
  by rewrite bool_decide_eq_true_2 by lra.
Qed.

(** *** The decay law in exact arithmetic *)











(** An age that is [NaN] or [+Infinity] is so after the clamp, and the
    multiplier is 1 whatever the half-life. *)
Lemma multiplier_unusable_age (age h : number) :
  age = NaN ∨ age = PosInf → calculateTemporalDecayMultiplier age h = Fin 1.
Proof.
  intros [-> | ->]; unfold calculateTemporalDecayMultiplier; cbn; by rewrite orb_true_r.
Qed.


(** ** The decay batch *)

Section BatchFacts.
Variable isAbsolute : string → bool.
Variable resolve : string → string → string.
Variable stat : string → option number.
Variable clock : number.
Context {T : Type} (fields : T → Hybrid.HybridResult).

Notation extractTimestamp := (extractTimestamp isAbsolute resolve stat).
Notation decayEntry := (decayEntry isAbsolute resolve stat fields).
Notation applyTemporalDecayToHybridResults :=
  (applyTemporalDecayToHybridResults isAbsolute resolve stat clock fields).

Lemma decayEntry_miss config dir now (st : BatchState) (entry : T) :
  cache st !! keyOf fields entry = None →
  decayEntry config dir now st entry
  = let r := extractTimestamp (Hybrid.path (fields entry))
               (Some (Hybrid.source (fields entry))) dir in
    {| cache := <[keyOf fields entry := r.1]> (cache st);
       lookups := lookups st ++ r.2;
       output := output st ++ [outputFor fields config now entry r.1] |}.
Proof.
  intros Hmiss. unfold TemporalDecay.decayEntry. fold (keyOf fields entry). rewrite Hmiss.
  by destruct (extractTimestamp _ _ _) as [ts paths].
Qed.

Lemma decayEntry_hit config dir now (st : BatchState) (entry : T) (ts : option Date) :
  cache st !! keyOf fields entry = Some ts →
  decayEntry config dir now st entry
  = {| cache := cache st;
       lookups := lookups st;
       output := output st ++ [outputFor fields config now entry ts] |}.
Proof.
  intros Hhit. unfold TemporalDecay.decayEntry. fold (keyOf fields entry). by rewrite Hhit.
Qed.

Lemma decayEntry_output config dir now (st : BatchState) (entry : T) :
  ∃ o, output (decayEntry config dir now st entry) = output st ++ [o].
Proof.
  destruct (cache st !! keyOf fields entry) as [ts|] eqn:Hc.
  - rewrite (decayEntry_hit _ _ _ _ _ ts) by done. by eexists.
  - rewrite decayEntry_miss by done. by eexists.
Qed.

Lemma foldl_decayEntry_output config dir now (st : BatchState) (l : list T) :
  ∃ outs, output (foldl (decayEntry config dir now) st l) = output st ++ outs
          ∧ length outs = length l.
Proof.
  revert st. induction l as [|e l IH]; intros st; simpl.
  - exists []. by rewrite app_nil_r.
  - destruct (IH (decayEntry config dir now st e)) as (outs & -> & Hlen).
    destruct (decayEntry_output config dir now st e) as [o ->].
    exists (o :: outs). rewrite <- app_assoc. simpl. by rewrite Hlen.
Qed.

Lemma foldl_decayEntry_cache_None config dir now (st : BatchState) (l : list T) (k : string) :
  cache st !! k = None → (∀ e, e ∈ l → keyOf fields e ≠ k) →
  cache (foldl (decayEntry config dir now) st l) !! k = None.
Proof.
  revert st. induction l as [|e l IH]; intros st Hk Hl; simpl; [done|].
  apply IH; [|intros e' He'; apply Hl; by right].
  assert (keyOf fields e ≠ k) as Hne by (apply Hl; left).
  destruct (cache st !! keyOf fields e) as [ts|] eqn:Hc.
  - by rewrite (decayEntry_hit _ _ _ _ _ ts) by done.
  - rewrite decayEntry_miss by done. simpl. by rewrite lookup_insert_ne.
Qed.

(** Without a workspace directory [fs.stat] is never called. *)
Lemma extractTimestamp_no_dir (filePath : string) (source dir : option string) :
  dir = None ∨ dir = Some ""%string → (extractTimestamp filePath source dir).2 = [].
Proof.
  intros Hdir. unfold TemporalDecay.extractTimestamp.
  destruct (parseMemoryDateFromPath filePath); [done|].
  destruct (_ && _); [done|]. by destruct Hdir as [-> | ->].
Qed.

Lemma foldl_decayEntry_no_dir config dir now (st : BatchState) (l : list T) :
  dir = None ∨ dir = Some ""%string →
  lookups (foldl (decayEntry config dir now) st l) = lookups st.
Proof.
  intros Hdir. revert st. induction l as [|e l IH]; intros st; simpl; [done|].
  rewrite IH. destruct (cache st !! keyOf fields e) as [ts|] eqn:Hc.
  - by rewrite (decayEntry_hit _ _ _ _ _ ts) by done.
  - rewrite decayEntry_miss by done. simpl.
    rewrite extractTimestamp_no_dir by done. by rewrite app_nil_r.
Qed.

(** The entry at a position where its key is seen for the first time. *)
Lemma foldl_first_occurrence config dir now (st : BatchState)
    (pre post : list T) (entry : T) :
  cache st !! keyOf fields entry = None →
  (∀ e, e ∈ pre → keyOf fields e ≠ keyOf fields entry) →
  output (foldl (decayEntry config dir now) st (pre ++ entry :: post))
    !! (length (output st) + length pre)
  = Some (outputFor fields config now entry
            (extractTimestamp (Hybrid.path (fields entry))
               (Some (Hybrid.source (fields entry))) dir).1).
Proof.
  intros Hmiss Hfirst. rewrite foldl_app. cbn [foldl].
  pose proof (foldl_decayEntry_cache_None config dir now st pre _ Hmiss Hfirst) as Hc.
  destruct (foldl_decayEntry_output config dir now st pre) as (outs & Houts & Hlen).
  destruct (foldl_decayEntry_output config dir now
              (decayEntry config dir now (foldl (decayEntry config dir now) st pre) entry)
              post) as (outs' & -> & _).
  rewrite decayEntry_miss by done. cbn [output]. rewrite Houts.
  rewrite <- !app_assoc.
  rewrite lookup_app_r by lia.
  replace (length (output st) + length pre - length (output st)) with (length pre) by lia.
  rewrite lookup_app_r by lia. rewrite Hlen, Nat.sub_diag. done.
Qed.

Lemma batch_first_occurrence (params : Params T) (pre post : list T) (entry : T) :
  enabled (mergeConfig (temporalDecay params)) = true →
  results params = pre ++ entry :: post →
  (∀ e, e ∈ pre → keyOf fields e ≠ keyOf fields entry) →
  (applyTemporalDecayToHybridResults params).1 !! length pre
  = Some (outputFor fields (mergeConfig (temporalDecay params))
            (default clock (nowMs params)) entry
            (extractTimestamp (Hybrid.path (fields entry))
               (Some (Hybrid.source (fields entry))) (workspaceDir params)).1).
Proof.
  intros Hen Hres Hfirst. unfold TemporalDecay.applyTemporalDecayToHybridResults.
  rewrite Hen, Hres. cbn [negb fst].
  by apply (foldl_first_occurrence _ _ _ {| cache := ∅; lookups := []; output := [] |}).
Qed.

Lemma batch_length (params : Params T) :
  length (applyTemporalDecayToHybridResults params).1 = length (results params).
Proof.
  unfold TemporalDecay.applyTemporalDecayToHybridResults.
  destruct (negb _); simpl; [by rewrite length_fmap|].
  destruct (foldl_decayEntry_output (mergeConfig (temporalDecay params))
              (workspaceDir params) (default clock (nowMs params))
              {| cache := ∅; lookups := []; output := [] |} (results params))
    as (outs & -> & Hlen). done.
Qed.

Lemma batch_no_dir (params : Params T) :
  workspaceDir params = None ∨ workspaceDir params = Some ""%string →
  (applyTemporalDecayToHybridResults params).2 = [].
Proof.
  intros Hdir. unfold TemporalDecay.applyTemporalDecayToHybridResults.
  destruct (negb _); simpl; [done|]. by rewrite foldl_decayEntry_no_dir.
Qed.

(** A failed lookup, or one that gives a time that is not finite. *)
Lemma extractTimestamp_failed (filePath : string) (source : option string) (dir : string) :
  parseMemoryDateFromPath filePath = None →
  bool_decide (source = Some "memory"%string) && isEvergreenMemoryPath filePath = false →
  dir ≠ ""%string →
  let absolutePath := if isAbsolute filePath then filePath else resolve dir filePath in
  stat absolutePath = None
  ∨ (∃ mtimeMs, stat absolutePath = Some mtimeMs ∧ Num.isFinite mtimeMs = false) →
  extractTimestamp filePath source (Some dir) = (None, [absolutePath]).
Proof.
  intros Hparse Hever Hdir abs Hstat. unfold TemporalDecay.extractTimestamp.
  rewrite Hparse, Hever. destruct dir as [|c dir]; [done|]. fold abs.
  destruct Hstat as [-> | (mtimeMs & -> & ->)]; done.
Qed.

(** An evergreen memory file has no timestamp. *)
Lemma isEvergreen_no_date (filePath : string) :
  isEvergreenMemoryPath filePath = true → parseMemoryDateFromPath filePath = None.
Proof.
  unfold isEvergreenMemoryPath, parseMemoryDateFromPath, DATED_MEMORY_PATH_RE_test.
  destruct (DATED_MEMORY_PATH_RE_exec (normalizePath filePath)) as [g|] eqn:Hexec; [|done].
  intros Hever. exfalso.
  rewrite (bool_decide_eq_true_2 (is_Some (Some g))) in Hever by eauto.
  destruct (bool_decide (normalizePath filePath = "MEMORY.md"%string)) eqn:H1.
  { apply bool_decide_eq_true_1 in H1. rewrite H1 in Hexec. vm_compute in Hexec. done. }
  destruct (bool_decide (normalizePath filePath = "memory.md"%string)) eqn:H2.
  { apply bool_decide_eq_true_1 in H2. rewrite H2 in Hexec. vm_compute in Hexec. done. }
  simpl in Hever. by destruct (startsWith _ _).
Qed.

Lemma extractTimestamp_evergreen (filePath : string) (dir : option string) :
  isEvergreenMemoryPath filePath = true →
  extractTimestamp filePath (Some "memory"%string) dir = (None, []).
Proof.
  intros Hever. unfold TemporalDecay.extractTimestamp.
  rewrite (isEvergreen_no_date _ Hever), Hever.
  by rewrite bool_decide_eq_true_2.
Qed.
End BatchFacts.


(** ** The timestamp cache is transparent when keys are unambiguous *)

Section CacheTransparency.
Variable isAbsolute : string → bool.
Variable resolve : string → string → string.
Variable stat : string → option number.
Context {T : Type} (fields : T → Hybrid.HybridResult).
Variable config : TemporalDecay.TemporalDecayConfig.
Variable dir : option string.
Variable now : number.
Variable all : list T.

(** No two results of the batch with different sources or paths have the
    same cache key. *)
Hypothesis keys_unambiguous :
  ∀ e e', e ∈ all → e' ∈ all → keyOf fields e = keyOf fields e' →
    Hybrid.source (fields e) = Hybrid.source (fields e')
    ∧ Hybrid.path (fields e) = Hybrid.path (fields e').

Lemma foldl_decayEntry_transparent (st : TemporalDecay.BatchState) (l : list T) :
  (∀ e, e ∈ l → e ∈ all) →
  (∀ k ts, TemporalDecay.cache st !! k = Some ts →
     ∃ e, e ∈ all ∧ keyOf fields e = k
          ∧ ts = (TemporalDecay.extractTimestamp isAbsolute resolve stat
                    (Hybrid.path (fields e)) (Some (Hybrid.source (fields e))) dir).1) →
  TemporalDecay.output
    (foldl (TemporalDecay.decayEntry isAbsolute resolve stat fields config dir now) st l)
  = TemporalDecay.output st
    ++ ((λ e, outputFor fields config now e
                (TemporalDecay.extractTimestamp isAbsolute resolve stat
                   (Hybrid.path (fields e)) (Some (Hybrid.source (fields e))) dir).1)
          <$> l).
Proof.
  revert st. induction l as [|e l IH]; intros st Hl Hinv.
  - simpl. by rewrite app_nil_r.
  - assert (e ∈ all) as He by (apply Hl; left).
    cbn [foldl fmap list_fmap].
    destruct (TemporalDecay.cache st !! keyOf fields e) as [ts|] eqn:Hc.
    + rewrite (decayEntry_hit isAbsolute resolve stat fields config dir now st e ts Hc).
      rewrite IH.
      * cbn [TemporalDecay.output]. rewrite <- app_assoc.
        destruct (Hinv _ _ Hc) as (e' & He' & Hk & ->).
        destruct (keys_unambiguous e' e He' He Hk) as [-> ->]. done.
      * intros e' He'. apply Hl. by right.
      * done.
    + rewrite (decayEntry_miss isAbsolute resolve stat fields config dir now st e Hc).
      rewrite IH.
      * cbn [TemporalDecay.output]. by rewrite <- app_assoc.
      * intros e' He'. apply Hl. by right.
      * cbn [TemporalDecay.cache]. intros k ts Hk.
        destruct (decide (keyOf fields e = k)) as [<- | Hne].
        -- rewrite lookup_insert_eq in Hk. injection Hk as <-. by exists e.
        -- rewrite lookup_insert_ne in Hk by done. by apply Hinv.
Qed.
End CacheTransparency.

(** When no two results with different sources or paths share a cache key,
    every result gets the output its own timestamp gives. *)
Lemma batch_transparent
    (isAbsolute : string → bool) (resolve : string → string → string)
    (stat : string → option number) (clock : number)
    {T : Type} (fields : T → Hybrid.HybridResult) (params : TemporalDecay.Params T) :
  TemporalDecay.enabled (TemporalDecay.mergeConfig (TemporalDecay.temporalDecay params)) = true →
  (∀ e e', e ∈ TemporalDecay.results params → e' ∈ TemporalDecay.results params →
     keyOf fields e = keyOf fields e' →
     Hybrid.source (fields e) = Hybrid.source (fields e')
     ∧ Hybrid.path (fields e) = Hybrid.path (fields e')) →
  (TemporalDecay.applyTemporalDecayToHybridResults isAbsolute resolve stat clock fields
     params).1
  = (λ e, outputFor fields (TemporalDecay.mergeConfig (TemporalDecay.temporalDecay params))
            (default clock (TemporalDecay.nowMs params)) e
            (TemporalDecay.extractTimestamp isAbsolute resolve stat
               (Hybrid.path (fields e)) (Some (Hybrid.source (fields e)))
               (TemporalDecay.workspaceDir params)).1)
    <$> TemporalDecay.results params.
Proof.
  intros Hen Hkeys. unfold TemporalDecay.applyTemporalDecayToHybridResults.
  rewrite Hen. cbn [negb fst].
  rewrite (foldl_decayEntry_transparent isAbsolute resolve stat fields _ _ _
             (TemporalDecay.results params) Hkeys); [done | done |].
  intros k ts Hk. cbn [TemporalDecay.cache] in Hk. by rewrite lookup_empty in Hk.
Qed.

(** ** Source tags without a colon make the cache keys unambiguous *)

(** What stands before the first colon of a text, and what follows it, are
    determined by the text. *)
Lemma before_first_colon (l1 l2 d1 d2 : list ascii) :
  ":"%char ∉ l1 → ":"%char ∉ l2 →
  l1 ++ ":"%char :: d1 = l2 ++ ":"%char :: d2 → l1 = l2 ∧ d1 = d2.
Proof.
  intros H1 H2 E.
  apply app_eq_inv in E as [(k & -> & E) | (k & -> & E)].
  - destruct k as [|c k]; cbn in E.
    + injection E as ->. by rewrite app_nil_r.
    + injection E as <- ->. exfalso. apply H1.
      rewrite elem_of_app, elem_of_cons. right. by left.
  - destruct k as [|c k]; cbn in E.
    + injection E as ->. by rewrite app_nil_r.
    + injection E as <- ->. exfalso. apply H2.
      rewrite elem_of_app, elem_of_cons. right. by left.
Qed.

Lemma keyOf_plain_inj {T : Type} (fields : T → Hybrid.HybridResult) (e e' : T) :
  ":"%char ∉ list_ascii_of_string (Hybrid.source (fields e)) →
  ":"%char ∉ list_ascii_of_string (Hybrid.source (fields e')) →
  keyOf fields e = keyOf fields e' →
  Hybrid.source (fields e) = Hybrid.source (fields e')
  ∧ Hybrid.path (fields e) = Hybrid.path (fields e').
Proof.
  intros He He' Hkey. unfold keyOf in Hkey.
  apply (f_equal list_ascii_of_string) in Hkey.
  rewrite !AdapterFacts.chars_append in Hkey. cbn [list_ascii_of_string app] in Hkey.
  destruct (before_first_colon _ _ _ _ He He' Hkey) as [Hs Hp].
  split; by apply AdapterFacts.chars_inj.
Qed.

(** The disabled stage keeps every result and makes no lookup. *)
Lemma batch_disabled
    (isAbsolute : string → bool) (resolve : string → string → string)
    (stat : string → option number) (clock : number)
    {T : Type} (fields : T → Hybrid.HybridResult) (params : TemporalDecay.Params T) :
  TemporalDecay.enabled (TemporalDecay.mergeConfig (TemporalDecay.temporalDecay params)) = false →
  TemporalDecay.applyTemporalDecayToHybridResults isAbsolute resolve stat clock fields params
  = (TemporalDecay.Kept <$> TemporalDecay.results params, []).
Proof.
  intros Hen. unfold TemporalDecay.applyTemporalDecayToHybridResults. by rewrite Hen.
Qed.

(** The source tags of the sample notes hold no colon. *)
Lemma notes_plain (e : Notes.note) :
  ":"%char ∉ list_ascii_of_string (Hybrid.source (Notes.fields e)).
Proof.
  destruct e; cbn; rewrite !not_elem_of_cons; repeat split; try discriminate;
    apply not_elem_of_nil.
Qed.



End DecayFacts.

(** * Properties of the stages on the heap *)

Module HeapFacts.
Import Stateful.

(** ** Rules for computations on the heap *)

Section Logic.
Context {O : Type}.
Implicit Types h : heap O.

Lemma wp_ret {A : Type} (a : A) h (Q : A → heap O → Prop) : Q a h → wp (mret a) h Q.
Proof. intros HQ. by exists a, h. Qed.

Lemma wp_bind {A B : Type} (m : M O A) (k : A → M O B) h (Q : B → heap O → Prop) :
  wp m h (λ a h', wp (k a) h' Q) → wp (m ≫= k) h Q.
Proof.
  intros (a & h' & Hm & b & h'' & Hk & HQ). exists b, h''. split; [|done].
  unfold mbind, M_bind. by rewrite Hm.
Qed.

Lemma wp_mono {A : Type} (m : M O A) h (Q Q' : A → heap O → Prop) :
  wp m h Q → (∀ a h', Q a h' → Q' a h') → wp m h Q'.
Proof. intros (a & h' & Hm & HQ) HQQ'. exists a, h'. split; [done | by apply HQQ']. Qed.

Lemma wp_getHeap h (Q : heap O → heap O → Prop) : Q h h → wp getHeap h Q.
Proof. intros HQ. by exists h, h. Qed.

Lemma wp_alloc (c : cell O) h (Q : loc → heap O → Prop) :
  (∀ l, h !! l = None → Q l (<[l := c]> h)) → wp (alloc c) h Q.
Proof.
  intros HQ. exists (fresh (dom h)), (<[fresh (dom h) := c]> h). split; [done|].
  apply HQ, not_elem_of_dom, is_fresh.
Qed.

Lemma wp_store (l : loc) (c : cell O) h (Q : () → heap O → Prop) :
  Q () (<[l := c]> h) → wp (store l c) h Q.
Proof. intros HQ. by exists (), (<[l := c]> h). Qed.

Lemma wp_readArray (a : loc) (elements : list loc) h (Q : list loc → heap O → Prop) :
  h !! a = Some (Array elements) → Q elements h → wp (readArray a) h Q.
Proof. intros Ha HQ. exists elements, h. split; [|done]. unfold readArray. by rewrite Ha. Qed.

Lemma wp_readNumbers (a : loc) (elements : list number) h (Q : list number → heap O → Prop) :
  h !! a = Some (Numbers elements) → Q elements h → wp (readNumbers a) h Q.
Proof. intros Ha HQ. exists elements, h. split; [|done]. unfold readNumbers. by rewrite Ha. Qed.

Lemma wp_readSet (s : loc) (elements : list loc) h (Q : list loc → heap O → Prop) :
  h !! s = Some (RefSet elements) → Q elements h → wp (readSet s) h Q.
Proof. intros Ha HQ. exists elements, h. split; [|done]. unfold readSet. by rewrite Ha. Qed.

Lemma wp_readTokenMap (m : loc) entries h (Q : gmap string (gset string) → heap O → Prop) :
  h !! m = Some (TokenMap entries) → Q entries h → wp (readTokenMap m) h Q.
Proof. intros Ha HQ. exists entries, h. split; [|done]. unfold readTokenMap. by rewrite Ha. Qed.

Lemma wp_readRefMap (m : loc) entries h (Q : gmap string loc → heap O → Prop) :
  h !! m = Some (RefMap entries) → Q entries h → wp (readRefMap m) h Q.
Proof. intros Ha HQ. exists entries, h. split; [|done]. unfold readRefMap. by rewrite Ha. Qed.

Lemma wp_readPromiseMap (m : loc) entries h (Q : gmap string (option Date) → heap O → Prop) :
  h !! m = Some (PromiseMap entries) → Q entries h → wp (readPromiseMap m) h Q.
Proof.
  intros Ha HQ. exists entries, h. split; [|done]. unfold readPromiseMap. by rewrite Ha.
Qed.

Lemma wp_push (a x : loc) (elements : list loc) h (Q : () → heap O → Prop) :
  h !! a = Some (Array elements) →
  Q () (<[a := Array (elements ++ [x])]> h) → wp (push a x) h Q.
Proof.
  intros Ha HQ. unfold push. apply wp_bind. eapply wp_readArray; [done|].
  by apply wp_store.
Qed.

Lemma wp_setDelete (s x : loc) (elements : list loc) h (Q : () → heap O → Prop) :
  h !! s = Some (RefSet elements) →
  Q () (<[s := RefSet (MMR.setDelete x elements)]> h) → wp (setDelete s x) h Q.
Proof.
  intros Ha HQ. unfold setDelete. apply wp_bind. eapply wp_readSet; [done|].
  by apply wp_store.
Qed.

(** ** Heaps that only grow *)

Lemma preserved_refl h : preserved h h.
Proof. by intros l c. Qed.

Lemma preserved_trans h1 h2 h3 : preserved h1 h2 → preserved h2 h3 → preserved h1 h3.
Proof. intros H12 H23 l c Hl. by apply H23, H12. Qed.

(** A cell of the new heap that is not one of the old heap may be written. *)
Lemma preserved_insert h h' (l : loc) (c : cell O) :
  preserved h h' → h !! l = None → preserved h (<[l := c]> h').
Proof.
  intros Hp Hl l' c' Hl'. rewrite lookup_insert_ne; [by apply Hp|].
  intros <-. congruence.
Qed.

Lemma preserved_fresh h h' (l : loc) : preserved h h' → h' !! l = None → h !! l = None.
Proof.
  intros Hp Hl. destruct (h !! l) as [c|] eqn:Hc; [|done].
  apply Hp in Hc. congruence.
Qed.

(** A new cell is not one of the cells there are. *)
Lemma fresh_ne h (l l' : loc) (c : cell O) : h !! l = Some c → h !! l' = None → l ≠ l'.
Proof. intros Hl Hl' ->. congruence. Qed.

Lemma lookup_fresh_insert h (l l' : loc) (c c' : cell O) :
  h !! l = Some c → h !! l' = None → <[l' := c']> h !! l = Some c.
Proof. intros Hl Hl'. rewrite lookup_insert_ne; [done|]. intros ->. congruence. Qed.

Lemma grown_refl h : grown h h.
Proof. intros l. by left. Qed.

Lemma grown_insert h h' (l : loc) (c : cell O) :
  grown h h' → h !! l = None → plain c → grown h (<[l := c]> h').
Proof.
  intros Hg Hl Hc l'. destruct (decide (l' = l)) as [-> | Hne].
  - right. split; [done|]. exists c. by rewrite lookup_insert_eq.
  - rewrite lookup_insert_ne by done. apply Hg.
Qed.

Lemma grown_preserved h h' : grown h h' → preserved h h'.
Proof.
  intros Hg l c Hl. destruct (Hg l) as [-> | [Hn _]]; [done | congruence].
Qed.

Lemma grown_fresh h h' (l : loc) : grown h h' → h' !! l = None → h !! l = None.
Proof. intros Hg. apply preserved_fresh. by apply grown_preserved. Qed.

Lemma grown_trans h1 h2 h3 : grown h1 h2 → grown h2 h3 → grown h1 h3.
Proof.
  intros H12 H23 l. destruct (H23 l) as [-> | (Hn & c & Hc & Hp)]; [apply H12|].
  destruct (H12 l) as [E | (Hn1 & _)].
  - right. split; [congruence|]. by exists c.
  - right. split; [done|]. by exists c.
Qed.
End Logic.

(** ** Reading objects *)

Section Objects.
Context {O : Type} `{Inhabited O}.
Implicit Types h : heap O.

(** Writing a cell that is not an object, where no object was, does not
    change what is read from the objects. *)
Lemma objectAt_insert h (l : loc) (c : cell O) :
  (∀ o, c ≠ Object o) → (∀ o, h !! l ≠ Some (Object o)) →
  objectAt (<[l := c]> h) = objectAt h.
Proof.
  intros Hc Hl. apply functional_extensionality. intros r. unfold objectAt.
  destruct (decide (r = l)) as [-> | Hne].
  - rewrite lookup_insert_eq. destruct c; try done; [by destruct (Hc o)| ..];
      destruct (h !! l) as [[]|] eqn:E; try done; by destruct (Hl o).
  - by rewrite lookup_insert_ne.
Qed.

End Objects.

(** ** The diversity stage on the heap *)

Section MMRHeap.
Context {O : Type} `{Inhabited O} (item : O → MMR.MMRItem).
Implicit Types h : heap O.

(** New cells that are not objects do not change what is read from the
    objects. *)
Lemma grown_itemAt h h' : grown h h' → itemAt item h' = itemAt item h.
Proof.
  intros Hg. apply functional_extensionality. intros r. unfold itemAt.
  destruct (Hg r) as [-> | (-> & c & -> & Hc)]; [done|]. by destruct c.
Qed.

Lemma fillTokenCache_spec (tokenCache : loc) (items : list loc) h0 h entries :
  grown h0 h → h0 !! tokenCache = None → h !! tokenCache = Some (TokenMap entries) →
  wp (fillTokenCache item tokenCache items) h
    (λ _ h', grown h0 h'
             ∧ h' !! tokenCache
               = Some (TokenMap
                         (foldl (λ cache t,
                                   <[MMR.id (itemAt item h0 t)
                                     := MMR.tokenize (MMR.content (itemAt item h0 t))]> cache)
                                entries items))).
Proof.
  revert h entries. induction items as [|i rest IH]; intros h entries Hg Hown Hcache.
  - by apply wp_ret.
  - cbn [fillTokenCache foldl]. apply wp_bind, wp_getHeap.
    apply wp_bind. eapply wp_readTokenMap; [done|].
    apply wp_bind, wp_store. rewrite (grown_itemAt h0 h Hg).
    apply IH; [by apply grown_insert | done | by rewrite lookup_insert_eq].
Qed.

Lemma selectLoop_spec (rounds : nat) (clampedLambda minScore scoreRange : number)
    (tokenCache selected remaining : loc) h0 h entries chosen candidates :
  grown h0 h → h0 !! selected = None → h0 !! remaining = None →
  selected ≠ remaining → tokenCache ≠ selected → tokenCache ≠ remaining →
  h !! tokenCache = Some (TokenMap entries) →
  h !! selected = Some (Array chosen) →
  h !! remaining = Some (RefSet candidates) →
  wp (selectLoop item rounds clampedLambda minScore scoreRange tokenCache selected remaining) h
    (λ _ h', grown h0 h'
             ∧ h' !! selected
               = Some (Array (MMR.selectLoop (itemAt item h0) clampedLambda minScore
                                scoreRange entries rounds chosen candidates))).
Proof.
  revert h chosen candidates.
  induction rounds as [|rounds IH];
    intros h chosen candidates Hg Hsel Hrem Hne1 Hne2 Hne3 Hcache Hchosen Hcand.
  - by apply wp_ret.
  - cbn [selectLoop MMR.selectLoop].
    apply wp_bind. eapply wp_readSet; [done|].
    destruct candidates as [|c0 cs]; [by apply wp_ret|].
    apply wp_bind, wp_getHeap.
    apply wp_bind. eapply wp_readTokenMap; [done|].
    apply wp_bind. eapply wp_readArray; [done|].
    rewrite (grown_itemAt h0 h Hg).
    destruct (MMR.pickBest _ _ _ _ _ _ _) as [bestItem|]; [|by apply wp_ret].
    apply wp_bind. eapply wp_push; [done|].
    apply wp_bind. eapply wp_setDelete; [by rewrite lookup_insert_ne|].
    apply IH; try done.
    + by repeat apply grown_insert.
    + by rewrite !lookup_insert_ne.
    + by rewrite lookup_insert_ne, lookup_insert_eq.
    + by rewrite lookup_insert_eq.
Qed.

(** [mmrRerank] returns: the array returned is new, the heap has only
    grown by cells that are not objects, and the new array holds what the
    function on lists gives for the contents of the input. *)
Lemma mmrRerank_spec (items : loc) (config : MMR.PartialMMRConfig) h contents :
  h !! items = Some (Array contents) →
  wp (mmrRerank item items config) h
    (λ r h', h !! r = None ∧ grown h h'
             ∧ h' !! r = Some (Array (MMR.mmrRerank (itemAt item h) contents config))).
Proof.
  intros Hitems. unfold mmrRerank, MMR.mmrRerank.
  apply wp_bind. eapply wp_readArray; [done|].
  destruct (negb _ || _).
  { apply wp_bind. eapply wp_readArray; [done|].
    apply wp_alloc. intros l Hl. split; [done|]. split.
    - apply grown_insert; [apply grown_refl | done | done].
    - by rewrite lookup_insert_eq. }
  destruct (_ =? _)%num.
  { apply wp_bind. eapply wp_readArray; [done|].
    apply wp_bind, wp_alloc. intros copy Hcopy.
    apply wp_bind. eapply wp_readArray; [by rewrite lookup_insert_eq|].
    apply wp_bind, wp_getHeap. apply wp_alloc. intros l Hl.
    assert (grown h (<[copy := Array contents]> h)) as Hg
      by (apply grown_insert; [apply grown_refl | done | done]).
    split; [by apply (grown_fresh _ _ _ Hg)|]. split.
    - apply grown_insert; [done | by apply (grown_fresh _ _ _ Hg) | done].
    - by rewrite lookup_insert_eq, (grown_itemAt h _ Hg). }
  apply wp_bind, wp_alloc. intros tokenCache Hcache.
  set (h1 := <[tokenCache := TokenMap ∅]> h).
  assert (grown h h1) as Hg1
    by (apply grown_insert; [apply grown_refl | done | done]).
  apply wp_bind. eapply wp_readArray; [by apply (grown_preserved _ _ Hg1)|].
  apply wp_bind.
  eapply wp_mono.
  { apply (fillTokenCache_spec tokenCache contents h h1 ∅ Hg1 Hcache).
    unfold h1. by rewrite lookup_insert_eq. }
  intros [] h2 [Hg2 Hcache2]. cbn beta.
  apply wp_bind. eapply wp_readArray; [by apply (grown_preserved _ _ Hg2)|].
  apply wp_bind, wp_getHeap. rewrite (grown_itemAt h h2 Hg2).
  apply wp_bind, wp_alloc. intros scores Hscores.
  set (h3 := <[scores := _]> h2).
  assert (grown h h3) as Hg3.
  { apply grown_insert; [done | by apply (grown_fresh _ _ _ Hg2) | done]. }
  apply wp_bind. eapply wp_readNumbers; [unfold h3; by rewrite lookup_insert_eq|].
  apply wp_bind. eapply wp_readArray; [by apply (grown_preserved _ _ Hg3)|].
  apply wp_bind, wp_getHeap. rewrite (grown_itemAt h h3 Hg3).
  apply wp_bind, wp_alloc. intros scores' Hscores'.
  set (h4 := <[scores' := _]> h3).
  assert (grown h h4) as Hg4.
  { apply grown_insert; [done | by apply (grown_fresh _ _ _ Hg3) | done]. }
  apply wp_bind. eapply wp_readNumbers; [unfold h4; by rewrite lookup_insert_eq|].
  apply wp_bind, wp_alloc. intros selected Hselected.
  set (h5 := <[selected := _]> h4).
  assert (grown h h5) as Hg5.
  { apply grown_insert; [done | by apply (grown_fresh _ _ _ Hg4) | done]. }
  apply wp_bind. eapply wp_readArray; [by apply (grown_preserved _ _ Hg5)|].
  apply wp_bind, wp_alloc. intros remaining Hremaining.
  set (h6 := <[remaining := _]> h5).
  assert (grown h h6) as Hg6.
  { apply grown_insert; [done | by apply (grown_fresh _ _ _ Hg5) | done]. }
  assert (h3 !! tokenCache = Some (TokenMap (MMR.buildTokenCache (itemAt item h) contents)))
    as Hc3 by (by apply lookup_fresh_insert).
  assert (h4 !! tokenCache = Some (TokenMap (MMR.buildTokenCache (itemAt item h) contents)))
    as Hc4 by (by apply lookup_fresh_insert).
  assert (h5 !! tokenCache = Some (TokenMap (MMR.buildTokenCache (itemAt item h) contents)))
    as Hc5 by (by apply lookup_fresh_insert).
  assert (h5 !! selected = Some (Array [])) as Hs5 by apply lookup_insert_eq.
  pose proof (fresh_ne h5 _ _ _ Hs5 Hremaining) as Hne1.
  pose proof (fresh_ne h4 _ _ _ Hc4 Hselected) as Hne2.
  pose proof (fresh_ne h5 _ _ _ Hc5 Hremaining) as Hne3.
  apply wp_bind.
  eapply wp_mono.
  { apply selectLoop_spec
      with (h0 := h) (entries := MMR.buildTokenCache (itemAt item h) contents)
           (chosen := []) (candidates := MMR.newSet contents); try done.
    - by apply (grown_fresh _ _ _ Hg4).
    - by apply (grown_fresh _ _ _ Hg5).
    - unfold h6. by rewrite lookup_insert_ne.
    - unfold h6. by rewrite lookup_insert_ne.
    - unfold h6. by rewrite lookup_insert_eq. }
  intros [] h7 [Hg7 Hsel7]. cbn beta.
  apply wp_ret. split; [by apply (grown_fresh _ _ _ Hg4)|]. split; [done|].
  by rewrite Hsel7.
Qed.
End MMRHeap.

(** ** The adapter on the heap *)

Section AdapterHeap.
Context {O : Type} `{Inhabited O}.
Context (item : O → MMR.MMRItem) (fields : O → Hybrid.HybridResult).
Implicit Types h : heap O.

Lemma makeItems_spec (itemById : loc) (index : nat) (results : list loc) h entries :
  h !! itemById = Some (RefMap entries) →
  wp (makeItems fields itemById index results) h
    (λ created h',
       (∀ l c, l ≠ itemById → h !! l = Some c → h' !! l = Some c)
       ∧ objectAt h' = objectAt h
       ∧ h' !! itemById
         = Some (RefMap
                   (foldl (λ m ir, <[MMR.id (MMR.toMMRItem (fieldsAt fields h) ir.1 ir.2)
                                     := ir.2]> m)
                          entries (zip (seq index (length results)) results)))
       ∧ Forall2 (λ l ir,
                    h' !! l = Some (Item (MMR.toMMRItem (fieldsAt fields h) ir.1 ir.2))
                    ∧ h !! l = None)
                 created (zip (seq index (length results)) results)).
Proof.
  revert index h entries. induction results as [|r rest IH]; intros index h entries Hmap.
  - apply wp_ret. by repeat split.
  - cbn [makeItems]. apply wp_bind, wp_getHeap.
    apply wp_bind. eapply wp_readRefMap; [done|].
    apply wp_bind, wp_store.
    apply wp_bind, wp_alloc. intros l Hl.
    set (mmrItem := MMR.toMMRItem (fieldsAt fields h) index r) in *.
    set (h1 := <[itemById := RefMap (<[MMR.id mmrItem := r]> entries)]> h) in *.
    set (h2 := <[l := Item mmrItem]> h1).
    assert (l ≠ itemById) as Hne.
    { intros ->. unfold h1 in Hl. by rewrite lookup_insert_eq in Hl. }
    assert (h !! l = None) as Hl0.
    { unfold h1 in Hl. by rewrite lookup_insert_ne in Hl. }
    assert (objectAt h2 = objectAt h) as Hobj.
    { transitivity (objectAt h1).
      - unfold h2. apply objectAt_insert; [done|]. intros o. by rewrite Hl.
      - unfold h1. apply objectAt_insert; [done|]. intros o. by rewrite Hmap. }
    apply wp_bind. eapply wp_mono.
    { apply (IH (S index) h2 (<[MMR.id mmrItem := r]> entries)).
      unfold h2, h1. by rewrite lookup_insert_ne, lookup_insert_eq. }
    intros created h' (Hkeep & Hobj' & Hmap' & Hcreated). cbn beta.
    apply wp_ret.
    assert (fieldsAt fields h2 = fieldsAt fields h) as Hf
      by (unfold fieldsAt; by rewrite Hobj).
    rewrite Hf in Hmap', Hcreated.
    split; [|split; [|split]].
    + intros l' c Hne' Hc. apply Hkeep; [done|].
      unfold h2, h1. rewrite lookup_insert_ne, lookup_insert_ne; [done | done |].
      intros ->. congruence.
    + by rewrite Hobj'.
    + done.
    + cbn [length seq zip zip_with]. constructor.
      * split; [|done]. apply Hkeep; [done|]. unfold h2. by rewrite lookup_insert_eq.
      * eapply Forall2_impl; [exact Hcreated|]. intros l' ir [Hitem Hnone].
        split; [done|].
        destruct (decide (l' = l)) as [-> | Hne'].
        { unfold h2 in Hnone. by rewrite lookup_insert_eq in Hnone. }
        destruct (decide (l' = itemById)) as [-> | Hne''].
        { unfold h2, h1 in Hnone.
          by rewrite lookup_insert_ne, lookup_insert_eq in Hnone. }
        unfold h2, h1 in Hnone. by rewrite !lookup_insert_ne in Hnone.
Qed.

Lemma findResults_spec (itemById : loc) (reranked : list loc) h entries :
  h !! itemById = Some (RefMap entries) →
  Forall (λ i, is_Some (entries !! MMR.id (itemAt item h i))) reranked →
  wp (findResults item itemById reranked) h
    (λ found h',
       h' = h
       ∧ Forall2 (λ i r, entries !! MMR.id (itemAt item h i) = Some r) reranked found).
Proof.
  intros Hmap. induction reranked as [|i rest IH]; intros Hall.
  - apply wp_ret. by split.
  - apply Forall_cons in Hall as [[r Hr] Hall].
    cbn [findResults]. apply wp_bind, wp_getHeap.
    apply wp_bind. eapply wp_readRefMap; [done|].
    rewrite Hr. apply wp_bind. eapply wp_mono; [by apply IH|].
    intros found h' [-> Hfound]. cbn beta. apply wp_ret. split; [done|].
    by constructor.
Qed.

(** [applyMMRToHybridResults] returns.  An empty array is returned itself,
    the heap as it was.  Otherwise the array returned is new, nothing that
    was in the heap has changed, every element of the new array is one of
    the input, and with the stage disabled, or for one result, the new array
    has the contents of the input. *)
Lemma applyMMRToHybridResults_spec (results : loc) (config : MMR.PartialMMRConfig)
    h contents :
  h !! results = Some (Array contents) →
  wp (applyMMRToHybridResults item fields results config) h
    (λ r h',
       preserved h h'
       ∧ (contents = [] → r = results ∧ h' = h)
       ∧ (contents ≠ [] →
          h !! r = None
          ∧ ∃ found,
              h' !! r = Some (Array found)
              ∧ (∀ x, x ∈ found → x ∈ contents)
              ∧ (default (MMR.enabled MMR.DEFAULT_MMR_CONFIG) (MMR.enabled_opt config)
                 = false
                 ∨ length contents ≤ 1 → found = contents))).
Proof.
  intros Hresults. unfold applyMMRToHybridResults.
  apply wp_bind. eapply wp_readArray; [done|].
  destruct contents as [|r0 rs].
  { apply wp_ret. split; [apply preserved_refl|]. by split. }
  cbv iota. assert (r0 :: rs ≠ []) as Hne by done.
  set (contents := r0 :: rs) in *. clearbody contents.
  apply wp_bind, wp_alloc. intros itemById HitemById.
  set (h1 := <[itemById := RefMap ∅]> h).
  apply wp_bind. eapply wp_mono.
  { apply (makeItems_spec itemById 0 contents h1 ∅). unfold h1. by rewrite lookup_insert_eq. }
  intros created h2 (Hkeep & Hobj & Hmap & Hcreated). cbn beta.
  assert (fieldsAt fields h1 = fieldsAt fields h) as Hf.
  { unfold fieldsAt, h1. rewrite objectAt_insert; [done | done |].
    intros o. by rewrite HitemById. }
  rewrite Hf in Hmap, Hcreated.
  change (foldl _ ∅ (zip (seq 0 (length contents)) contents))
    with (MMR.buildItemById (fieldsAt fields h) contents) in Hmap.
  assert (preserved h h2) as Hp2.
  { intros l c Hl. apply Hkeep; [intros ->; congruence|].
    unfold h1. rewrite lookup_insert_ne; [done|]. intros ->. congruence. }
  apply wp_bind, wp_alloc. intros mmrItems HmmrItems.
  set (h3 := <[mmrItems := Array created]> h2).
  apply wp_bind. eapply wp_mono.
  { apply (mmrRerank_spec item mmrItems config h3 created). unfold h3.
    by rewrite lookup_insert_eq. }
  intros reranked h4 (Hreranked & Hg4 & Hout). cbn beta.
  set (rerankedItems := MMR.mmrRerank (itemAt item h3) created config) in *.
  apply wp_bind. eapply wp_readArray; [done|].
  assert (preserved h3 h4) as Hp34 by (by apply grown_preserved).
  assert (∀ i, i ∈ created →
            ∃ j r, contents !! j = Some r
                   ∧ itemAt item h4 i = MMR.toMMRItem (fieldsAt fields h) j r) as Hitems.
  { intros i Hi. apply list_elem_of_lookup in Hi as [j Hj].
    destruct (Forall2_lookup_l _ _ _ _ _ Hcreated Hj) as ([k r] & Hzip & Hcell & _).
    apply lookup_zip_with_Some in Hzip as (k' & r' & [= <- <-] & Hk & Hr).
    apply lookup_seq in Hk as [-> _]. cbn in Hcell.
    exists j, r. split; [done|]. unfold itemAt.
    rewrite (Hp34 i (Item (MMR.toMMRItem (fieldsAt fields h) j r))); [done|].
    unfold h3. rewrite lookup_insert_ne; [done|]. intros ->. congruence. }
  assert (h4 !! itemById = Some (RefMap (MMR.buildItemById (fieldsAt fields h) contents)))
    as Hmap4.
  { apply Hp34. unfold h3. rewrite lookup_insert_ne; [done|]. intros ->. congruence. }
  assert (∀ i, i ∈ rerankedItems → i ∈ created) as Hsub
    by (intros i; apply MMRFacts.mmrRerank_sub).
  apply wp_bind. eapply wp_mono.
  { apply (findResults_spec itemById rerankedItems h4 _ Hmap4).
    apply Forall_forall. intros i Hi.
    destruct (Hitems i (Hsub i Hi)) as (j & r & Hj & ->).
    exists r. by apply AdapterFacts.buildItemById_get. }
  intros found h5 [-> Hfound]. cbn beta.
  apply wp_alloc. intros out Hout5.
  assert (preserved h h4) as Hp4.
  { apply (preserved_trans _ h2); [done|]. apply (preserved_trans _ h3); [|done].
    intros l c Hl. unfold h3. rewrite lookup_insert_ne; [done|]. intros ->. congruence. }
  assert (h !! out = None) as Hfresh by (by apply (preserved_fresh _ _ _ Hp4)).
  split; [by apply preserved_insert|]. split; [done|]. intros _.
  split; [done|]. exists found. split; [by rewrite lookup_insert_eq|]. split.
  - intros x Hx. apply list_elem_of_lookup in Hx as [k Hk].
    destruct (Forall2_lookup_r _ _ _ _ _ Hfound Hk) as (i & Hi & Hget).
    apply list_elem_of_lookup_2 in Hi.
    destruct (Hitems i (Hsub i Hi)) as (j & r & Hj & Hitem).
    rewrite Hitem, (AdapterFacts.buildItemById_get _ _ _ _ Hj) in Hget.
    injection Hget as <-. by apply list_elem_of_lookup_2 in Hj.
  - intros Hcopy.
    assert (rerankedItems = created) as Hsame
      by (unfold rerankedItems; apply MMRFacts.mmrRerank_unchanged;
          rewrite (Forall2_length _ _ _ Hcreated), length_zip_with, length_seq;
          destruct Hcopy; [by left | right; lia]).
    rewrite Hsame in Hfound.
    apply list_eq. intros k.
    destruct (contents !! k) as [r|] eqn:Hr.
    + assert (zip (seq 0 (length contents)) contents !! k = Some (k, r)) as Hzip.
      { apply lookup_zip_with_Some. exists k, r. split; [done|]. split; [|done].
        apply lookup_seq. split; [done|]. by apply lookup_lt_Some in Hr. }
      destruct (Forall2_lookup_r _ _ _ _ _ Hcreated Hzip) as (i & Hi & Hcell & _).
      destruct (Forall2_lookup_l _ _ _ _ _ Hfound Hi) as (x & Hx & Hget).
      assert (i ∈ created) as Hin by (by apply list_elem_of_lookup_2 in Hi).
      destruct (Hitems i Hin) as (j & r' & Hj & Hitem).
      assert (itemAt item h4 i = MMR.toMMRItem (fieldsAt fields h) k r) as Hitem'.
      { unfold itemAt.
        rewrite (Hp34 i (Item (MMR.toMMRItem (fieldsAt fields h) k r))); [done|].
        unfold h3. rewrite lookup_insert_ne; [done|]. intros ->. congruence. }
      rewrite Hitem', (AdapterFacts.buildItemById_get _ _ _ _ Hr) in Hget.
      by rewrite Hx, Hget.
    + apply lookup_ge_None in Hr. apply lookup_ge_None.
      rewrite <- (Forall2_length _ _ _ Hfound), (Forall2_length _ _ _ Hcreated).
      by rewrite length_zip_with, length_seq, Nat.min_id.
Qed.
End AdapterHeap.

(** ** The decay stage on the heap *)

Section DecayHeap.
Context {O : Type} `{Inhabited O}.
Context (fields : O → Hybrid.HybridResult) (rescore : O → number → O).
Variable isAbsolute : string → bool.
Variable resolve : string → string → string.
Variable stat : string → option number.
Variable clock : number.
Implicit Types h : heap O.

(** A rescored entry of the output is an entry of the input. *)
Lemma rescored_entry {T : Type} (fieldsOf : T → Hybrid.HybridResult)
    (config : TemporalDecay.TemporalDecayConfig) (now : number)
    (entries : list T) (stamps : list (option Date)) (e : T) (s : number) :
  TemporalDecay.Rescored e s ∈ zip_with (outputFor fieldsOf config now) entries stamps →
  e ∈ entries.
Proof.
  revert stamps. induction entries as [|x rest IH]; intros stamps Ho;
    destruct stamps as [|y stamps]; cbn in Ho; try by apply elem_of_nil in Ho.
  apply elem_of_cons in Ho as [Ho | Ho].
  - destruct y; cbn in Ho; [|discriminate]. injection Ho as -> _. by left.
  - right. by eapply IH.
Qed.

(** The synchronous part of the callbacks writes to the promise cache only,
    and finds the timestamps and makes the lookups of the function on
    lists. *)
Lemma timestamps_spec (cache : loc) (dir : option string) (entries : list loc) h promises :
  h !! cache = Some (PromiseMap promises) →
  wp (timestamps fields isAbsolute resolve stat cache dir entries) h
    (λ found h',
       length found.1 = length entries
       ∧ ∃ promises',
           h' = <[cache := PromiseMap promises']> h
           ∧ ∀ config now (st : TemporalDecay.BatchState),
               TemporalDecay.cache st = promises →
               foldl (TemporalDecay.decayEntry isAbsolute resolve stat (fieldsAt fields h)
                        config dir now) st entries
               = {| TemporalDecay.cache := promises';
                    TemporalDecay.lookups := TemporalDecay.lookups st ++ found.2;
                    TemporalDecay.output :=
                      TemporalDecay.output st
                      ++ zip_with (outputFor (fieldsAt fields h) config now) entries found.1 |}).
Proof.
  revert h promises. induction entries as [|entry rest IH]; intros h promises Hcache.
  - apply wp_ret. split; [done|]. exists promises. split; [by rewrite insert_id|].
    intros config now [c l o] Hc. cbn in *. subst. by rewrite !app_nil_r.
  - cbn [timestamps]. apply wp_bind, wp_getHeap.
    apply wp_bind. eapply wp_readPromiseMap; [done|].
    fold (keyOf (fieldsAt fields h) entry).
    destruct (promises !! keyOf (fieldsAt fields h) entry) as [cached|] eqn:Hkey.
    + apply wp_bind, wp_ret. apply wp_bind. eapply wp_mono; [by apply IH|].
      intros found h' (Hlen & promises' & -> & Hpure). cbn beta.
      apply wp_ret. cbn [fst snd]. split; [by rewrite length_cons, Hlen|].
      exists promises'. split; [done|].
      intros config now st Hst. cbn [foldl zip_with].
      rewrite (DecayFacts.decayEntry_hit isAbsolute resolve stat (fieldsAt fields h)
                 config dir now st entry cached) by (by rewrite Hst).
      rewrite Hpure by done. cbn [TemporalDecay.lookups TemporalDecay.output].
      by rewrite <- app_assoc.
    + set (extracted := TemporalDecay.extractTimestamp isAbsolute resolve stat _ _ dir).
      apply wp_bind. apply wp_bind, wp_store. apply wp_ret.
      set (h1 := <[cache := PromiseMap (<[keyOf (fieldsAt fields h) entry := extracted.1]>
                                          promises)]> h).
      assert (fieldsAt fields h1 = fieldsAt fields h) as Hf.
      { unfold fieldsAt, h1. rewrite objectAt_insert; [done | done |].
        intros o. by rewrite Hcache. }
      apply wp_bind. eapply wp_mono.
      { apply (IH h1). unfold h1. by rewrite lookup_insert_eq. }
      intros found h' (Hlen & promises' & -> & Hpure). cbn beta.
      apply wp_ret. cbn [fst snd]. split; [by rewrite length_cons, Hlen|].
      exists promises'. split; [unfold h1; by rewrite insert_insert_eq|].
      intros config now st Hst. cbn [foldl zip_with].
      rewrite (DecayFacts.decayEntry_miss isAbsolute resolve stat (fieldsAt fields h)
                 config dir now st entry) by (by rewrite Hst).
      cbn zeta. rewrite Hf in Hpure. rewrite Hpure by (by rewrite Hst).
      cbn [TemporalDecay.lookups TemporalDecay.output].
      by rewrite <- !app_assoc.
Qed.

(** The part of the callbacks after [await] allocates the rescored copies
    and changes nothing that was in the heap. *)
Lemma settle_spec (config : TemporalDecay.TemporalDecayConfig) (now : number)
    (entries : list loc) (stamps : list (option Date)) h0 h :
  preserved h0 h → length stamps = length entries →
  wp (settle fields rescore config now entries stamps) h
    (λ outs h',
       preserved h h'
       ∧ length outs = length entries
       ∧ (stamps = replicate (length entries) None → outs = entries ∧ h' = h)
       ∧ (Forall (λ e, is_Some (h0 !! e)) entries →
          ∀ j o out,
            zip_with (outputFor (fieldsAt fields h0) config now) entries stamps !! j = Some o →
            outs !! j = Some out →
            stands rescore h h' o out)).
Proof.
  revert stamps h. induction entries as [|entry rest IH]; intros stamps h Hp Hlen.
  - destruct stamps; [|done]. apply wp_ret. split; [apply preserved_refl|].
    repeat split; try done.
    all: intros _ j o out Hj; by rewrite lookup_nil in Hj.
  - destruct stamps as [|timestamp stamps]; [done|]. cbn [settle].
    injection Hlen as Hlen.
    destruct timestamp as [t|].
    + apply wp_bind. apply wp_bind, wp_getHeap. apply wp_alloc. intros l Hl.
      set (decayedScore := TemporalDecay.applyTemporalDecayToScore _ _ _).
      set (h1 := <[l := Object (rescore (objectAt h entry) decayedScore)]> h).
      assert (preserved h h1) as Hp1 by (apply preserved_insert; [apply preserved_refl | done]).
      apply wp_bind. eapply wp_mono.
      { apply (IH stamps h1); [by apply (preserved_trans _ h) | done]. }
      intros outs h' (Hp' & Hlen' & _ & Hstands). cbn beta. apply wp_ret.
      split; [by apply (preserved_trans _ h1)|].
      split; [by rewrite !length_cons, Hlen'|]. split; [done|].
      intros Hwf j o out Ho Hout. apply Forall_cons in Hwf as [[c Hc] Hwf].
      destruct j as [|j]; cbn in Ho, Hout.
      * injection Ho as <-. injection Hout as <-. cbn [outputFor stands].
        assert (objectAt h entry = objectAt h0 entry) as Hobj
          by (unfold objectAt; by rewrite (Hp _ _ Hc), Hc).
        split; [done|].
        assert (fieldsAt fields h entry = fieldsAt fields h0 entry) as Hf
          by (unfold fieldsAt; by rewrite Hobj).
        rewrite <- Hf. apply Hp'. unfold h1. by rewrite lookup_insert_eq.
      * specialize (Hstands Hwf j o out Ho Hout).
        destruct o as [e | e s]; [done|]. cbn [stands] in *.
        destruct Hstands as [Hnone Hcell]. split; [by apply (preserved_fresh _ _ _ Hp1)|].
        rewrite Hcell. do 3 f_equal. unfold objectAt, h1.
        apply list_elem_of_lookup_2 in Ho.
        assert (e ∈ rest) as He by (by eapply rescored_entry).
        rewrite Forall_forall in Hwf. destruct (Hwf e He) as [c' Hc'].
        apply Hp in Hc'. rewrite lookup_insert_ne; [done|]. intros ->. congruence.
    + apply wp_bind, wp_ret. apply wp_bind. eapply wp_mono; [by apply (IH stamps h)|].
      intros outs h' (Hp' & Hlen' & Hnone & Hstands). cbn beta. apply wp_ret.
      split; [done|]. split; [by rewrite !length_cons, Hlen'|]. split.
      * cbn [length replicate]. intros [= Hs]. destruct (Hnone Hs) as [-> ->]. done.
      * intros Hwf j o out Ho Hout. apply Forall_cons in Hwf as [_ Hwf].
        destruct j as [|j]; cbn in Ho, Hout.
        -- injection Ho as <-. by injection Hout as <-.
        -- by apply (Hstands Hwf j).
Qed.

(** [applyTemporalDecayToHybridResults] returns: the array returned is new,
    nothing that was in the heap has changed, the lookups are those of the
    function on lists, and the new array has one element for every result:
    where every element of the input is a cell of the heap, what stands for
    the entry of the output of the function on lists.  The disabled stage
    only allocates the new array, with the contents of the input. *)
Lemma applyTemporalDecayToHybridResults_spec
    (results : loc) (temporalDecay : option TemporalDecay.PartialTemporalDecayConfig)
    (workspaceDir : option string) (nowMs : option number) h contents :
  h !! results = Some (Array contents) →
  let pure :=
    TemporalDecay.applyTemporalDecayToHybridResults isAbsolute resolve stat clock
      (fieldsAt fields h)
      (TemporalDecay.mkParams contents temporalDecay workspaceDir nowMs) in
  wp (applyTemporalDecayToHybridResults fields rescore isAbsolute resolve stat clock
        results temporalDecay workspaceDir nowMs) h
    (λ ret h',
       h !! ret.1 = None ∧ preserved h h' ∧ ret.2 = pure.2
       ∧ (∃ outs,
            h' !! ret.1 = Some (Array outs) ∧ length outs = length contents
            ∧ (Forall (λ e, is_Some (h !! e)) contents →
               ∀ j o out, pure.1 !! j = Some o → outs !! j = Some out →
                          match o with
                          | TemporalDecay.Kept entry => out = entry
                          | TemporalDecay.Rescored entry s =>
                              h !! out = None
                              ∧ h' !! out = Some (Object (rescore (objectAt h entry) s))
                          end))
       ∧ (TemporalDecay.enabled (TemporalDecay.mergeConfig temporalDecay) = false →
          h' = <[ret.1 := Array contents]> h)).
Proof.
  intros Hresults pure. unfold pure, applyTemporalDecayToHybridResults,
    TemporalDecay.applyTemporalDecayToHybridResults.
  cbn [TemporalDecay.temporalDecay TemporalDecay.results TemporalDecay.workspaceDir
       TemporalDecay.nowMs].
  apply wp_bind. eapply wp_readArray; [done|].
  destruct (TemporalDecay.enabled (TemporalDecay.mergeConfig temporalDecay)); cbn [negb].
  2:{ apply wp_bind, wp_alloc. intros copy Hcopy. apply wp_ret. cbn [fst snd].
      split; [done|]. split; [apply preserved_insert; [apply preserved_refl | done]|].
      split; [done|]. split; [|done].
      exists contents. split; [by rewrite lookup_insert_eq|]. split; [done|].
      intros _ j o out Ho Hout. rewrite list_lookup_fmap, Hout in Ho.
      by injection Ho as <-. }
  apply wp_bind, wp_alloc. intros cache Hcache.
  set (h1 := <[cache := PromiseMap ∅]> h).
  assert (fieldsAt fields h1 = fieldsAt fields h) as Hf.
  { unfold fieldsAt, h1. rewrite objectAt_insert; [done | done |].
    intros o. by rewrite Hcache. }
  apply wp_bind. eapply wp_mono.
  { apply (timestamps_spec cache workspaceDir contents h1 ∅). unfold h1.
    by rewrite lookup_insert_eq. }
  intros found h2 (Hlen & promises' & -> & Hpure). cbn beta.
  rewrite Hf in Hpure.
  set (h2 := <[cache := PromiseMap promises']> h1).
  assert (preserved h h2) as Hp2.
  { unfold h2, h1. rewrite insert_insert_eq. apply preserved_insert; [apply preserved_refl | done]. }
  apply wp_bind. eapply wp_mono.
  { apply (settle_spec (TemporalDecay.mergeConfig temporalDecay) (default clock nowMs)
             contents found.1 h h2 Hp2 Hlen). }
  intros outs h3 (Hp3 & Hlen3 & _ & Hstands). cbn beta.
  apply wp_bind, wp_alloc. intros all Hall. apply wp_ret. cbn [fst snd].
  assert (preserved h h3) as Hp by (by apply (preserved_trans _ h2)).
  split; [by apply (preserved_fresh _ _ _ Hp)|].
  split; [apply preserved_insert; [done | by apply (preserved_fresh _ _ _ Hp)]|].
  rewrite (Hpure _ _ {| TemporalDecay.cache := ∅; TemporalDecay.lookups := [];
                        TemporalDecay.output := [] |}) by done.
  cbn [TemporalDecay.output TemporalDecay.lookups app fst snd].
  split; [done|]. split; [|done].
  exists outs. split; [by rewrite lookup_insert_eq|]. split; [done|].
  intros Hwf j o out Ho Hout.
  specialize (Hstands Hwf j o out Ho Hout). unfold stands in Hstands.
  destruct o as [e | e s]; [done|]. destruct Hstands as [Hnone Hcell].
  assert (out ≠ all) as Hne by (intros ->; congruence).
  split; [by apply (preserved_fresh _ _ _ Hp2)|].
  rewrite lookup_insert_ne by done. rewrite Hcell. do 3 f_equal.
  unfold objectAt. apply list_elem_of_lookup_2 in Ho.
  assert (e ∈ contents) as He by (by eapply rescored_entry).
  rewrite Forall_forall in Hwf. destruct (Hwf e He) as [c Hc].
  by rewrite (Hp2 _ _ Hc), Hc.
Qed.
End DecayHeap.
End HeapFacts.

(** * The claims of the specification *)

Import MMRFacts DateFacts DecayFacts HeapFacts.

(** ** The end-to-end example *)

(** C1, as the specification states it, fails: for the three results A
    (score 0.9, "cats and dogs"), B (0.85, "cats and dogs too") and C (0.5,
    "quantum physics") with lambda = 0.5 the enabled stage does not return
    the order A, C, B. *)
Lemma C1_order_is_not_A_C_B :
  MMR.mmrRerank Sample.abcItem [Sample.A; Sample.B; Sample.C] (Sample.config (Fin 0.5))
  ≠ [Sample.A; Sample.C; Sample.B].
Proof. rewrite abc_rerank. discriminate. Qed.

(** C1 (amended): for the three results A (score 0.9, "cats and dogs"), B
    (0.85, "cats and dogs too") and C (0.5, "quantum physics") with
    lambda = 0.5 the enabled stage returns the order A, B, C: after A is
    chosen, B scores 0.5 * 0.875 - 0.5 * 0.75 = 0.0625 and C scores 0. *)
Theorem C1_order_is_A_B_C :
  MMR.mmrRerank Sample.abcItem [Sample.A; Sample.B; Sample.C] (Sample.config (Fin 0.5))
  = [Sample.A; Sample.B; Sample.C].
Proof. exact abc_rerank. Qed.

(** ** Re-ranking is a permutation *)

(** C2 fails on the code for a trade-off parameter that is not a number: with
    [lambda = NaN] every MMR score is [NaN], no candidate is ever chosen, the
    loop leaves by its safety exit and the three results are all dropped, by
    [mmrRerank] and by [applyMMRToHybridResults] alike. *)
Theorem C2_nan_lambda_drops_every_item :
  MMR.mmrRerank Sample.abcItem [Sample.A; Sample.B; Sample.C] (Sample.config NaN) = []
  ∧ MMR.applyMMRToHybridResults Sample.abcResult [Sample.A; Sample.B; Sample.C]
      (Sample.config NaN) = [].
Proof.
  split.
  - apply mmrRerank_nan_lambda. simpl. lia.
  - unfold MMR.applyMMRToHybridResults, Sample.config.
    rewrite mmrRerank_nan_lambda; [done|]. simpl. lia.
Qed.

(** ** Dates embedded in a path *)

(** C3, as the specification states it, fails: a path that ends in
    [memory/2024-01-15.txt] carries a valid date but an extension other than
    [.md], and no date is read from it. *)
Lemma C3_other_extension_has_no_date :
  TemporalDecay.parseMemoryDateFromPath "memory/2024-01-15.txt" = None.
Proof. vm_compute. reflexivity. Qed.

(** C3 (amended): if the normalised identity is [dir ++ memory/YYYY-MM-DD.md]
    with [dir] empty or ending in a slash (the extension is [.md]; the
    directory name is matched as written), then for a valid calendar date of
    year 0100 or later its timestamp is that date at UTC midnight, found
    without consulting the filesystem; for a date that is not a valid
    calendar date no date is read, the path is not evergreen either, and with
    a workspace directory the result is that of the last-modified lookup. *)
Theorem C3_dated_md_path
    (isAbsolute : string → bool) (resolve : string → string → string)
    (stat : string → option number) (filePath dir Y M D : string) :
  TemporalDecay.normalizePath filePath = dir +:+ datedTail Y M D →
  dateGroups Y M D →
  (dir = ""%string ∨ ∃ p, dir = p +:+ "/"%string) →
  let y := TemporalDecay.digitsToZ Y in
  let m := TemporalDecay.digitsToZ M in
  let d := TemporalDecay.digitsToZ D in
  (JSDate.validDate y m d → (100 <= y)%Z →
   ∃ t, TemporalDecay.parseMemoryDateFromPath filePath = Some (DateAt t)
        ∧ (t mod JSDate.msPerDay = 0)%Z
        ∧ JSDate.YearFromTime t = y
        ∧ JSDate.MonthFromTime t = (m - 1)%Z
        ∧ JSDate.DateFromTime t = d
        ∧ ∀ source workspaceDir,
            TemporalDecay.extractTimestamp isAbsolute resolve stat
              filePath source workspaceDir = (Some (DateAt t), []))
  ∧ (¬ JSDate.validDate y m d →
     TemporalDecay.parseMemoryDateFromPath filePath = None
     ∧ ∀ source (workspaceDir : string), workspaceDir ≠ ""%string →
         let absolutePath :=
           if isAbsolute filePath then filePath else resolve workspaceDir filePath in
         TemporalDecay.extractTimestamp isAbsolute resolve stat
           filePath source (Some workspaceDir)
         = (match stat absolutePath with
            | Some mtimeMs =>
                if negb (Num.isFinite mtimeMs) then None else Some (newDate mtimeMs)
            | None => None
            end, [absolutePath])).
Proof.
  intros Hnorm Hg Hdir y m d. split.
  - intros Hvalid Hy.
    destruct (parse_valid filePath dir Y M D Hnorm Hg Hdir Hvalid Hy)
      as (t & Hparse & Hmid & Hyear & Hmonth & Hdate).
    exists t. repeat split; try done.
    intros source workspaceDir. unfold TemporalDecay.extractTimestamp. by rewrite Hparse.
  - intros Hinvalid.
    pose proof (parse_invalid filePath dir Y M D Hnorm Hg Hdir Hinvalid) as Hparse.
    split; [done|]. intros source workspaceDir Hws absolutePath.
    unfold TemporalDecay.extractTimestamp.
    rewrite Hparse, (evergreen_dated_false filePath dir Y M D Hnorm Hg Hdir).
    rewrite andb_false_r. by destruct workspaceDir.
Qed.

Lemma C3_dated_md_path_witness :
  (∃ t, TemporalDecay.parseMemoryDateFromPath "docs\memory\2024-02-29.md" = Some (DateAt t)
        ∧ (t mod JSDate.msPerDay = 0)%Z
        ∧ JSDate.YearFromTime t = 2024%Z
        ∧ JSDate.MonthFromTime t = 1%Z
        ∧ JSDate.DateFromTime t = 29%Z
        ∧ ∀ source workspaceDir,
            TemporalDecay.extractTimestamp (λ _, false) (λ dir p, dir +:+ "/" +:+ p)
              (λ _, None) "docs\memory\2024-02-29.md" source workspaceDir
            = (Some (DateAt t), []))
  ∧ TemporalDecay.parseMemoryDateFromPath "memory/2024-02-30.md" = None.
Proof.
  split.
  - apply (C3_dated_md_path (λ _, false) (λ dir p, dir +:+ "/" +:+ p) (λ _, None)
             "docs\memory\2024-02-29.md" "docs/" "2024" "02" "29").
    + reflexivity.
    + repeat split; reflexivity.
    + right. exists "docs"%string. reflexivity.
    + split; vm_compute; split; discriminate.
    + vm_compute. discriminate.
  - apply (C3_dated_md_path (λ _, false) (λ dir p, dir +:+ "/" +:+ p) (λ _, None)
             "memory/2024-02-30.md" "" "2024" "02" "30").
    + reflexivity.
    + repeat split; reflexivity.
    + left. reflexivity.
    + intros [_ [_ Hd]]. vm_compute in Hd. apply Hd. reflexivity.
Defined.

(** ** Evergreen files *)

(** An evergreen memory file is kept as it is wherever its cache key has not
    been used by an earlier result of the batch. *)
Lemma evergreen_kept_at_first_occurrence
    (isAbsolute : string → bool) (resolve : string → string → string)
    (stat : string → option number) (clock : number)
    {T : Type} (fields : T → Hybrid.HybridResult)
    (params : TemporalDecay.Params T) (pre post : list T) (entry : T) :
  TemporalDecay.enabled (TemporalDecay.mergeConfig (TemporalDecay.temporalDecay params)) = true →
  TemporalDecay.results params = pre ++ entry :: post →
  (∀ e, e ∈ pre → keyOf fields e ≠ keyOf fields entry) →
  Hybrid.source (fields entry) = "memory"%string →
  TemporalDecay.isEvergreenMemoryPath (Hybrid.path (fields entry)) = true →
  (TemporalDecay.applyTemporalDecayToHybridResults isAbsolute resolve stat clock fields
     params).1 !! length pre = Some (TemporalDecay.Kept entry).
Proof.
  intros Hen Hres Hfirst Hsrc Hever.
  rewrite (batch_first_occurrence isAbsolute resolve stat clock fields params pre post entry)
    by done.
  by rewrite Hsrc, extractTimestamp_evergreen.
Qed.

(** In a batch in which no two results with different sources or paths have
    the same cache key, every evergreen memory file is kept as it is. *)
Lemma evergreen_kept_where_keys_unambiguous
    (isAbsolute : string → bool) (resolve : string → string → string)
    (stat : string → option number) (clock : number)
    {T : Type} (fields : T → Hybrid.HybridResult)
    (params : TemporalDecay.Params T) (i : nat) (entry : T) :
  TemporalDecay.enabled (TemporalDecay.mergeConfig (TemporalDecay.temporalDecay params)) = true →
  (∀ e e', e ∈ TemporalDecay.results params → e' ∈ TemporalDecay.results params →
     keyOf fields e = keyOf fields e' →
     Hybrid.source (fields e) = Hybrid.source (fields e')
     ∧ Hybrid.path (fields e) = Hybrid.path (fields e')) →
  TemporalDecay.results params !! i = Some entry →
  Hybrid.source (fields entry) = "memory"%string →
  TemporalDecay.isEvergreenMemoryPath (Hybrid.path (fields entry)) = true →
  (TemporalDecay.applyTemporalDecayToHybridResults isAbsolute resolve stat clock fields
     params).1 !! i = Some (TemporalDecay.Kept entry).
Proof.
  intros Hen Hkeys Hi Hsrc Hever.
  rewrite (batch_transparent isAbsolute resolve stat clock fields params Hen Hkeys).
  rewrite list_lookup_fmap, Hi. cbn [fmap option_fmap option_map].
  by rewrite Hsrc, extractTimestamp_evergreen.
Qed.

(** C4: a result classified as evergreen (source tag [memory], and a path
    that is [MEMORY.md], [memory.md] or a file under [memory/] that is not a
    dated file) is returned by the decay stage as the same object, so with its
    score, for every injected time, every half-life, every workspace directory
    and file system, the stage enabled or not.  The source tags of the batch
    are tags such as [memory]: none holds a colon. *)
Theorem C4_evergreen_is_never_decayed
    (isAbsolute : string → bool) (resolve : string → string → string)
    (stat : string → option number) (clock : number)
    {T : Type} (fields : T → Hybrid.HybridResult)
    (params : TemporalDecay.Params T) (i : nat) (entry : T) :
  plainSources fields (TemporalDecay.results params) →
  TemporalDecay.results params !! i = Some entry →
  Hybrid.source (fields entry) = "memory"%string →
  TemporalDecay.isEvergreenMemoryPath (Hybrid.path (fields entry)) = true →
  let out :=
    (TemporalDecay.applyTemporalDecayToHybridResults isAbsolute resolve stat clock fields
       params).1 in
  out !! i = Some (TemporalDecay.Kept entry)
  ∧ TemporalDecay.outputScore fields <$> out !! i = Some (Hybrid.score (fields entry)).
Proof.
  intros Hplain Hi Hsrc Hever out.
  assert (out !! i = Some (TemporalDecay.Kept entry)) as ->; [|done].
  unfold out.
  destruct (TemporalDecay.enabled
              (TemporalDecay.mergeConfig (TemporalDecay.temporalDecay params))) eqn:Hen.
  - apply evergreen_kept_where_keys_unambiguous; try done.
    intros e e' He He'. apply keyOf_plain_inj; by apply Hplain.
  - rewrite batch_disabled by done. cbn [fst]. by rewrite list_lookup_fmap, Hi.
Qed.

Lemma C4_evergreen_is_never_decayed_witness :
  (TemporalDecay.applyTemporalDecayToHybridResults (λ _, false)
     (λ dir p, dir +:+ "/" +:+ p) (λ _, Some (Fin 0)) (Fin 0) Notes.fields
     (Notes.params [Notes.Daily; Notes.Session; Notes.Root; Notes.Topic]
        (Some "/work"%string))).1 !! 3%nat
  = Some (TemporalDecay.Kept Notes.Topic).
Proof.
  apply (C4_evergreen_is_never_decayed (λ _, false) (λ dir p, dir +:+ "/" +:+ p)
           (λ _, Some (Fin 0)) (Fin 0) Notes.fields
           (Notes.params [Notes.Daily; Notes.Session; Notes.Root; Notes.Topic]
              (Some "/work"%string))
           3 Notes.Topic).
  - intros e _. apply notes_plain.
  - reflexivity.
  - reflexivity.
  - vm_compute. reflexivity.
Defined.

(** ** The shortcut for lambda = 1 *)

(** With a lambda of 1 or more the enabled stage returns the list sorted. *)
Lemma mmrRerank_lambda_one
    {T : Type} `{EqDecision T} (item : T → MMR.MMRItem) (items : list T)
    (lambda : number) :
  (Fin 1 <=? lambda)%num = true →
  MMR.mmrRerank item items (MMR.mkPartialMMRConfig (Some true) (Some lambda))
  = MMR.toSorted (MMR.byScoreDesc item) items.
Proof.
  intros Hl. unfold MMR.mmrRerank.
  cbn [MMR.enabled_opt MMR.lambda_opt default from_option Datatypes.id negb orb].
  rewrite (clamp_one lambda Hl).
  case_bool_decide as Hlen; [by rewrite toSorted_short|].
  cbn [Num.eq]. by rewrite bool_decide_eq_true_2.
Qed.

(** Why the greedy loop needs scores whose differences fit binary64: of the
    two finite scores [1e308] and [-1e308] the range overflows to
    [Infinity]; the normalised relevance of the higher one is [NaN] and so is
    its MMR score, for which [mmrScore > bestMMRScore] and
    [mmrScore === bestMMRScore] are both false, so the loop never selects
    that item; the relevance of the lower one is 0. *)
Lemma score_range_overflows_binary64 :
  let maxScore := 1e308%float in
  let minScore := (-1e308)%float in
  let scoreRange := (maxScore - minScore)%float in
  Binary64.isFinite maxScore = true ∧ Binary64.isFinite minScore = true
  ∧ scoreRange = infinity
  ∧ is_nan (Binary64.normalizeScore minScore scoreRange maxScore) = true
  ∧ Binary64.normalizeScore minScore scoreRange minScore = 0%float
  ∧ is_nan (Binary64.computeMMRScore
              (Binary64.normalizeScore minScore scoreRange maxScore) 0 1) = true
  ∧ is_nan (Binary64.computeMMRScore
              (Binary64.normalizeScore minScore scoreRange maxScore) 0 0.7) = true.
Proof. repeat apply conj; vm_compute; reflexivity. Qed.

(** C5, as the specification states it, fails for some lists.  Beside an
    item of infinite score the score range is infinite, the normalised
    relevance of that item is [NaN], and the greedy loop leaves the item out;
    and an item object that occurs twice in the list is taken once by the
    greedy loop, which works on [new Set(items)].  The shortcut for
    [lambda = 1] returns both lists sorted, with every item. *)
Lemma C5_greedy_loop_differs :
  MMR.mmrRerank Sample.infItem [true; false] (Sample.config (Fin 1)) = [true; false]
  ∧ MMR.mmrGreedy Sample.infItem (Fin 1) [true; false] = [false]
  ∧ MMR.mmrRerank Sample.infItem [false; false] (Sample.config (Fin 1)) = [false; false]
  ∧ MMR.mmrGreedy Sample.infItem (Fin 1) [false; false] = [false].
Proof.
  assert ((Fin 1 <=? Fin 1)%num = true) as Hl.
  { rewrite le_Fin. apply bool_decide_eq_true_2. lra. }
  unfold Sample.config. rewrite !mmrRerank_lambda_one by done.
  repeat apply conj; r_compute.
Qed.

(** C5 (amended): for every list of items, whatever their contents, when the
    stage is enabled and lambda is 1 or more (so that it clamps to 1) the
    output is the input sorted by [b.score - a.score] with the stable sort, a
    permutation of the input; where the scores are finite it is in descending
    order of score; and where moreover the items are distinct objects and the
    score range does not overflow, it is what the greedy loop returns when run
    with lambda = 1. *)
Theorem C5_lambda_one_sorts_by_score
    {T : Type} `{EqDecision T} (item : T → MMR.MMRItem) (items : list T)
    (lambda : number) :
  (Fin 1 <=? lambda)%num = true →
  let out := MMR.mmrRerank item items (MMR.mkPartialMMRConfig (Some true) (Some lambda)) in
  out = MMR.toSorted (MMR.byScoreDesc item) items
  ∧ out ≡ₚ items
  ∧ (finiteScores item items → StronglySorted (scoreGe item) out)
  ∧ (finiteScores item items → NoDup items →
     spreadFits (λ x, MMR.score (item x)) items →
     out = MMR.mmrGreedy item (Fin 1) items).
Proof.
  intros Hl out.
  assert (out = MMR.toSorted (MMR.byScoreDesc item) items) as Hout
    by (by apply mmrRerank_lambda_one).
  rewrite Hout. split; [done|]. split; [apply toSorted_Permutation|].
  split; [intros Hfin; by apply toSorted_sorted|].
  intros Hfin Hnd _. by rewrite mmrGreedy_relevance.
Qed.

Lemma C5_lambda_one_sorts_by_score_witness :
  let out := MMR.mmrRerank Sample.abcItem [Sample.C; Sample.B; Sample.A]
               (MMR.mkPartialMMRConfig (Some true) (Some (Fin 1))) in
  out = MMR.toSorted (MMR.byScoreDesc Sample.abcItem) [Sample.C; Sample.B; Sample.A]
  ∧ out ≡ₚ [Sample.C; Sample.B; Sample.A]
  ∧ StronglySorted (scoreGe Sample.abcItem) out
  ∧ out = MMR.mmrGreedy Sample.abcItem (Fin 1) [Sample.C; Sample.B; Sample.A].
Proof.
  assert (finiteScores Sample.abcItem [Sample.C; Sample.B; Sample.A]) as Hfin.
  { intros x _. destruct x; reflexivity. }
  destruct (C5_lambda_one_sorts_by_score Sample.abcItem
              [Sample.C; Sample.B; Sample.A] (Fin 1)) as (Hsort & Hperm & Hdesc & Hgreedy).
  { rewrite le_Fin. apply bool_decide_eq_true_2. lra. }
  split; [done|]. split; [done|]. split; [by apply Hdesc|].
  apply Hgreedy; [done | |].
  - repeat constructor; rewrite ?elem_of_cons, ?elem_of_nil; intuition discriminate.
  - intros x y a b _ _ Ha Hb. apply fits_small.
    destruct x, y; simplify_eq/=; lra.
Defined.

(** ** The decay multiplier *)

(** The decay law for half-lives that cannot be used, and for ages that are
    [NaN] or [+Infinity], in binary64: the multiplier is 1. *)
Lemma multiplier_neutral_binary64 (age halfLifeDays : float) :
  Binary64.isFinite halfLifeDays = false ∨ (halfLifeDays <=? 0)%float = true →
  Binary64.calculateTemporalDecayMultiplier age halfLifeDays = Some 1%float.
Proof.
  intros Hh. unfold Binary64.calculateTemporalDecayMultiplier.
  assert (Binary64.toDecayLambda halfLifeDays = 0%float) as ->.
  { unfold Binary64.toDecayLambda. destruct Hh as [-> | ->]; [done|].
    by rewrite orb_true_r. }
  reflexivity.
Qed.

Lemma multiplier_unusable_age_binary64 (halfLifeDays : float) :
  Binary64.calculateTemporalDecayMultiplier nan halfLifeDays = Some 1%float
  ∧ Binary64.calculateTemporalDecayMultiplier infinity halfLifeDays = Some 1%float.
Proof.
  unfold Binary64.calculateTemporalDecayMultiplier.
  change (Binary64.max 0 nan) with nan.
  change (Binary64.max 0 infinity) with infinity.
  change (Binary64.isFinite nan) with false.
  change (Binary64.isFinite infinity) with false.
  cbn [negb]. by rewrite orb_true_r.
Qed.

(** With a half-life of thirty days an age of zero, or of [-Infinity], gives
    the multiplier 1. *)
Lemma multiplier_thirty_days_binary64 :
  Binary64.calculateTemporalDecayMultiplier 0 30 = Some 1%float
  ∧ Binary64.calculateTemporalDecayMultiplier neg_infinity 30 = Some 1%float.
Proof. split; vm_compute; reflexivity. Qed.




(** ** Jaccard similarity *)

(** C7: Jaccard similarity of token sets is symmetric; it is 1 for two
    results of identical content; it is 0 when exactly one of the sets is
    empty and 1 when both are; otherwise it is |intersection| / |union|, which
    is 0 for disjoint sets. *)
Theorem C7_jaccard_similarity :
  (∀ A B : gset string, MMR.jaccardSimilarity A B = MMR.jaccardSimilarity B A)
  ∧ (∀ content : string, MMR.textSimilarity content content = Fin 1)
  ∧ (∀ A : gset string, A ≠ ∅ →
       MMR.jaccardSimilarity ∅ A = Fin 0 ∧ MMR.jaccardSimilarity A ∅ = Fin 0)
  ∧ MMR.jaccardSimilarity ∅ ∅ = Fin 1
  ∧ (∀ A B : gset string, A ≠ ∅ → B ≠ ∅ →
       MMR.jaccardSimilarity A B = Fin (INR (size (A ∩ B)) / INR (size (A ∪ B))))
  ∧ (∀ A B : gset string, A ≠ ∅ → B ≠ ∅ → A ## B → MMR.jaccardSimilarity A B = Fin 0).
Proof.
  split; [apply jaccard_sym|].
  split; [intros content; apply jaccard_self|].
  split; [intros A HA; split; [by apply jaccard_empty_l | by apply jaccard_empty_r]|].
  split; [apply jaccard_empty_empty|].
  split; [apply jaccard_nonempty | apply jaccard_disjoint].
Qed.

Lemma C7_jaccard_similarity_witness :
  MMR.jaccardSimilarity (MMR.tokenize "cats and dogs") (MMR.tokenize "cats and dogs too")
  = Fin (INR (size (MMR.tokenize "cats and dogs" ∩ MMR.tokenize "cats and dogs too"))
         / INR (size (MMR.tokenize "cats and dogs" ∪ MMR.tokenize "cats and dogs too")))
  ∧ MMR.jaccardSimilarity (MMR.tokenize "cats and dogs") (MMR.tokenize "quantum physics")
    = Fin 0.
Proof.
  destruct C7_jaccard_similarity as (_ & _ & _ & _ & Hratio & Hdisjoint).
  assert (∀ s : gset string, (0 < size s)%nat → s ≠ ∅) as Hne.
  { intros s Hs ->. rewrite size_empty in Hs. lia. }
  split.
  - apply Hratio; apply Hne; vm_compute; lia.
  - apply Hdisjoint; [apply Hne; vm_compute; lia | apply Hne; vm_compute; lia |].
    apply disjoint_intersection_L, leibniz_equiv, size_empty_iff.
    vm_compute. reflexivity.
Defined.

(** ** Malformed configuration and unusable ages *)

(** A timestamp in the future of "now" has age zero. *)
Lemma age_of_future_timestamp (timestamp : Date) (nowMs : number) :
  (nowMs <? getTime timestamp)%num = true →
  TemporalDecay.ageInDaysFromTimestamp timestamp nowMs = Fin 0.
Proof.
  intros Hfuture. unfold TemporalDecay.ageInDaysFromTimestamp, TemporalDecay.DAY_MS.
  destruct timestamp as [|t]; [by destruct nowMs|].
  destruct nowMs as [| |n|]; try discriminate.
  - simpl. decide_R. f_equal. lra.
  - simpl in Hfuture. apply bool_decide_eq_true_1 in Hfuture.
    simpl. unfold Num.ofZ in *. decide_R. simpl. decide_R. f_equal. lra.
Qed.

(** A result whose last-modified lookup is made and fails is kept as it
    is. *)
Lemma failed_lookup_kept
    (isAbsolute : string → bool) (resolve : string → string → string)
    (stat : string → option number) (clock : number)
    {T : Type} (fields : T → Hybrid.HybridResult)
    (params : TemporalDecay.Params T) (pre post : list T) (entry : T) (dir : string) :
  TemporalDecay.enabled (TemporalDecay.mergeConfig (TemporalDecay.temporalDecay params)) = true →
  TemporalDecay.results params = pre ++ entry :: post →
  (∀ e, e ∈ pre → keyOf fields e ≠ keyOf fields entry) →
  TemporalDecay.workspaceDir params = Some dir → dir ≠ ""%string →
  TemporalDecay.parseMemoryDateFromPath (Hybrid.path (fields entry)) = None →
  bool_decide (Some (Hybrid.source (fields entry)) = Some "memory"%string)
  && TemporalDecay.isEvergreenMemoryPath (Hybrid.path (fields entry)) = false →
  let absolutePath :=
    if isAbsolute (Hybrid.path (fields entry)) then Hybrid.path (fields entry)
    else resolve dir (Hybrid.path (fields entry)) in
  stat absolutePath = None
  ∨ (∃ mtimeMs, stat absolutePath = Some mtimeMs ∧ Num.isFinite mtimeMs = false) →
  (TemporalDecay.applyTemporalDecayToHybridResults isAbsolute resolve stat clock fields
     params).1 !! length pre = Some (TemporalDecay.Kept entry).
Proof.
  intros Hen Hres Hfirst Hdir Hne Hparse Hever absolutePath Hstat.
  rewrite (batch_first_occurrence isAbsolute resolve stat clock fields params pre post entry)
    by done.
  rewrite Hdir.
  by rewrite (extractTimestamp_failed isAbsolute resolve stat _ _ dir Hparse Hever Hne Hstat).
Qed.

(** C8 fails on the code for a half-life that is finite and positive but so
    small that [Math.LN2 / halfLifeDays] overflows (here [1e-320]):
    [toDecayLambda] returns [Infinity], and for an age of [-Infinity], which
    the clamp turns into zero, the multiplier is
    [Math.exp(-Infinity * 0) = NaN], not 1.  So it is for a timestamp in the
    future of "now", whose age is zero: the multiplier is [NaN] and the score
    of the result becomes [NaN].  (Here the timestamp is 2024-01-31 and "now"
    is 2024-01-01.) *)
Theorem C8_tiny_half_life_gives_nan :
  Binary64.calculateTemporalDecayMultiplier neg_infinity Binary64.tinyHalfLife = Some nan
  ∧ Binary64.ageInDaysFromTimestamp 1706659200000 1704067200000 = 0%float
  ∧ Binary64.calculateTemporalDecayMultiplier
      (Binary64.ageInDaysFromTimestamp 1706659200000 1704067200000) Binary64.tinyHalfLife
    = Some nan
  ∧ Binary64.applyTemporalDecayToScore 1
      (Binary64.ageInDaysFromTimestamp 1706659200000 1704067200000) Binary64.tinyHalfLife
    = Some nan.
Proof. repeat apply conj; vm_compute; reflexivity. Qed.

(** ** No mutation *)

(** C9, as the specification states it, fails for an empty batch given to
    [applyMMRToHybridResults]: the array returned is the input array itself,
    not a new one. *)
Lemma C9_empty_batch_is_not_copied :
  ¬ ∃ r h',
      Stateful.applyMMRToHybridResults Sample.resultItem (λ o, o) 1%positive
        (Sample.config (Fin 0.5)) Sample.heapEmpty = Some (r, h')
      ∧ Sample.heapEmpty !! r = None.
Proof.
  intros (r & h' & Hrun & Hfresh).
  assert (Stateful.applyMMRToHybridResults Sample.resultItem (λ o, o) 1%positive
            (Sample.config (Fin 0.5)) Sample.heapEmpty
          = Some (1%positive, Sample.heapEmpty)) as Hone by reflexivity.
  rewrite Hone in Hrun. injection Hrun as <- <-. vm_compute in Hfresh. discriminate.
Qed.

(** C9 (amended): neither stage changes the input array or the objects in
    it.  The stages are computations on a heap that read cells, allocate
    cells and write to cells ([selected.push], [remaining.delete], the [set]
    of the three maps).  Run on a heap in which the input array exists,
    [mmrRerank] and [applyTemporalDecayToHybridResults] return, the array
    returned is a cell that did not exist before, and every cell of the heap
    is as it was: every write went to a cell that the stage had made.
    [mmrRerank] returns what the function on lists gives for the contents of
    the input; disabled, or for at most one item, these are the contents of
    the input.  The decay stage makes the lookups of the function on lists,
    and its array holds for every result the result itself or a new object;
    disabled, it only makes the new array, with the contents of the input,
    and no lookup.  [applyMMRToHybridResults] does the same for a batch that
    is not empty (its array holds results of the input: all of them, in
    order, when it is disabled or there is one result), and returns an empty
    input array itself, the heap as it was. *)
Theorem C9_stages_do_not_mutate
    {O : Type} `{Inhabited O}
    (item : O → MMR.MMRItem) (fields : O → Hybrid.HybridResult)
    (rescore : O → number → O)
    (isAbsolute : string → bool) (resolve : string → string → string)
    (stat : string → option number) (clock : number)
    (input : Stateful.loc) (h : Stateful.heap O) (contents : list Stateful.loc) :
  h !! input = Some (Stateful.Array contents) →
  (∀ config : MMR.PartialMMRConfig,
     ∃ r h',
       Stateful.mmrRerank item input config h = Some (r, h')
       ∧ h !! r = None
       ∧ Stateful.preserved h h'
       ∧ h' !! input = Some (Stateful.Array contents)
       ∧ h' !! r
         = Some (Stateful.Array (MMR.mmrRerank (Stateful.itemAt item h) contents config))
       ∧ (default (MMR.enabled MMR.DEFAULT_MMR_CONFIG) (MMR.enabled_opt config) = false
          ∨ length contents ≤ 1 →
          h' !! r = Some (Stateful.Array contents)))
  ∧ (∀ config : MMR.PartialMMRConfig,
       ∃ r h',
         Stateful.applyMMRToHybridResults item fields input config h = Some (r, h')
         ∧ Stateful.preserved h h'
         ∧ h' !! input = Some (Stateful.Array contents)
         ∧ (contents = [] → r = input ∧ h' = h)
         ∧ (contents ≠ [] →
            h !! r = None
            ∧ ∃ found,
                h' !! r = Some (Stateful.Array found)
                ∧ (∀ x, x ∈ found → x ∈ contents)
                ∧ (default (MMR.enabled MMR.DEFAULT_MMR_CONFIG) (MMR.enabled_opt config)
                   = false
                   ∨ length contents ≤ 1 →
                   found = contents)))
  ∧ (∀ (temporalDecay : option TemporalDecay.PartialTemporalDecayConfig)
       (workspaceDir : option string) (nowMs : option number),
       let onLists :=
         TemporalDecay.applyTemporalDecayToHybridResults isAbsolute resolve stat clock
           (Stateful.fieldsAt fields h)
           (TemporalDecay.mkParams contents temporalDecay workspaceDir nowMs) in
       ∃ r lookups h',
         Stateful.applyTemporalDecayToHybridResults fields rescore
           isAbsolute resolve stat clock input temporalDecay workspaceDir nowMs h
         = Some (r, lookups, h')
         ∧ h !! r = None
         ∧ Stateful.preserved h h'
         ∧ h' !! input = Some (Stateful.Array contents)
         ∧ lookups = onLists.2
         ∧ (∃ outs,
              h' !! r = Some (Stateful.Array outs)
              ∧ length outs = length contents
              ∧ (Forall (λ e, is_Some (h !! e)) contents →
                 ∀ j o out, onLists.1 !! j = Some o → outs !! j = Some out →
                            Stateful.stands rescore h h' o out))
         ∧ (TemporalDecay.enabled (TemporalDecay.mergeConfig temporalDecay) = false →
            h' = <[r := Stateful.Array contents]> h ∧ lookups = [])).
Proof.
  intros Hinput. split; [|split].
  - intros config.
    destruct (mmrRerank_spec item input config h contents Hinput)
      as (r & h' & Hrun & Hfresh & Hg & Hr).
    exists r, h'. split; [done|]. split; [done|].
    split; [by apply grown_preserved|]. split; [by apply (grown_preserved _ _ Hg)|].
    split; [done|]. intros Hcopy. by rewrite Hr, mmrRerank_unchanged.
  - intros config.
    destruct (applyMMRToHybridResults_spec item fields input config h contents Hinput)
      as (r & h' & Hrun & Hp & Hempty & Hnew).
    exists r, h'. split; [done|]. split; [done|]. split; [by apply Hp | done].
  - intros temporalDecay workspaceDir nowMs onLists.
    destruct (applyTemporalDecayToHybridResults_spec fields rescore isAbsolute resolve
                stat clock input temporalDecay workspaceDir nowMs h contents Hinput)
      as ([r lookups] & h' & Hrun & Hfresh & Hp & Hlookups & Houts & Hoff).
    cbn [fst snd] in *.
    exists r, lookups, h'. split; [done|]. split; [done|]. split; [done|].
    split; [by apply Hp|]. split; [done|]. split; [done|].
    intros Hdis. split; [by apply Hoff|].
    rewrite Hlookups. unfold onLists. by rewrite batch_disabled.
Qed.

Lemma C9_stages_do_not_mutate_witness :
  (∃ r h',
     Stateful.mmrRerank Sample.resultItem 1%positive (Sample.config (Fin 0.5))
       Sample.heapResults = Some (r, h')
     ∧ Sample.heapResults !! r = None
     ∧ Stateful.preserved Sample.heapResults h'
     ∧ h' !! 1%positive = Some (Stateful.Array [2%positive; 3%positive]))
  ∧ (∃ r h',
       Stateful.applyMMRToHybridResults Sample.resultItem (λ o, o) 1%positive
         (MMR.mkPartialMMRConfig None None) Sample.heapResults = Some (r, h')
       ∧ Sample.heapResults !! r = None
       ∧ h' !! r = Some (Stateful.Array [2%positive; 3%positive]))
  ∧ (∃ r lookups h',
       Stateful.applyTemporalDecayToHybridResults (λ o, o) Sample.rescore
         (λ _, false) (λ dir p, dir +:+ "/" +:+ p) (λ _, None) (Fin 0)
         1%positive None None None Sample.heapResults = Some (r, lookups, h')
       ∧ h' !! r = Some (Stateful.Array [2%positive; 3%positive])
       ∧ lookups = []).
Proof.
  destruct (C9_stages_do_not_mutate Sample.resultItem (λ o, o) Sample.rescore
              (λ _, false) (λ dir p, dir +:+ "/" +:+ p) (λ _, None) (Fin 0)
              1%positive Sample.heapResults [2%positive; 3%positive])
    as (Hmmr & Hadapter & Hdecay).
  { reflexivity. }
  split; [|split].
  - destruct (Hmmr (Sample.config (Fin 0.5)))
      as (r & h' & Hrun & Hfresh & Hp & Hin & _).
    by exists r, h'.
  - destruct (Hadapter (MMR.mkPartialMMRConfig None None))
      as (r & h' & Hrun & _ & _ & _ & Hnew).
    destruct (Hnew ltac:(discriminate)) as (Hfresh & found & Hr & _ & Hcopy).
    exists r, h'. split; [done|]. split; [done|].
    rewrite Hr, Hcopy; [done|]. by left.
  - destruct (Hdecay None None None)
      as (r & lookups & h' & Hrun & _ & _ & _ & _ & _ & Hoff).
    exists r, lookups, h'. split; [done|].
    destruct (Hoff eq_refl) as [-> ->]. split; [|done].
    by rewrite lookup_insert_eq.
Defined.

(** ** No workspace directory *)

(** Without a workspace directory the last-modified lookup is never made,
    whatever the batch. *)
Lemma no_workspace_no_lookup
    (isAbsolute : string → bool) (resolve : string → string → string)
    (stat : string → option number) (clock : number)
    {T : Type} (fields : T → Hybrid.HybridResult) (params : TemporalDecay.Params T) :
  TemporalDecay.workspaceDir params = None
  ∨ TemporalDecay.workspaceDir params = Some ""%string →
  (TemporalDecay.applyTemporalDecayToHybridResults isAbsolute resolve stat clock fields
     params).2 = [].
Proof. apply batch_no_dir. Qed.

(** A result with no embedded date is kept as it is when there is no
    workspace directory, wherever its cache key has not been used by an
    earlier result of the batch. *)
Lemma undated_kept_at_first_occurrence
    (isAbsolute : string → bool) (resolve : string → string → string)
    (stat : string → option number) (clock : number)
    {T : Type} (fields : T → Hybrid.HybridResult)
    (params : TemporalDecay.Params T) (pre post : list T) (entry : T) :
  TemporalDecay.enabled (TemporalDecay.mergeConfig (TemporalDecay.temporalDecay params)) = true →
  TemporalDecay.results params = pre ++ entry :: post →
  (∀ e, e ∈ pre → keyOf fields e ≠ keyOf fields entry) →
  TemporalDecay.workspaceDir params = None
  ∨ TemporalDecay.workspaceDir params = Some ""%string →
  TemporalDecay.parseMemoryDateFromPath (Hybrid.path (fields entry)) = None →
  (TemporalDecay.applyTemporalDecayToHybridResults isAbsolute resolve stat clock fields
     params).1 !! length pre = Some (TemporalDecay.Kept entry).
Proof.
  intros Hen Hres Hfirst Hdir Hparse.
  rewrite (batch_first_occurrence isAbsolute resolve stat clock fields params pre post entry)
    by done.
  unfold TemporalDecay.extractTimestamp. rewrite Hparse.
  destruct (_ && _); [done|]. by destruct Hdir as [-> | ->].
Qed.

(** In a batch in which no two results with different sources or paths have
    the same cache key, and with no workspace directory, every result with no
    embedded date is kept as it is. *)
Lemma undated_kept_where_keys_unambiguous
    (isAbsolute : string → bool) (resolve : string → string → string)
    (stat : string → option number) (clock : number)
    {T : Type} (fields : T → Hybrid.HybridResult)
    (params : TemporalDecay.Params T) (i : nat) (entry : T) :
  TemporalDecay.enabled (TemporalDecay.mergeConfig (TemporalDecay.temporalDecay params)) = true →
  (∀ e e', e ∈ TemporalDecay.results params → e' ∈ TemporalDecay.results params →
     keyOf fields e = keyOf fields e' →
     Hybrid.source (fields e) = Hybrid.source (fields e')
     ∧ Hybrid.path (fields e) = Hybrid.path (fields e')) →
  TemporalDecay.results params !! i = Some entry →
  TemporalDecay.workspaceDir params = None
  ∨ TemporalDecay.workspaceDir params = Some ""%string →
  TemporalDecay.parseMemoryDateFromPath (Hybrid.path (fields entry)) = None →
  (TemporalDecay.applyTemporalDecayToHybridResults isAbsolute resolve stat clock fields
     params).1 !! i = Some (TemporalDecay.Kept entry).
Proof.
  intros Hen Hkeys Hi Hdir Hparse.
  rewrite (batch_transparent isAbsolute resolve stat clock fields params Hen Hkeys).
  rewrite list_lookup_fmap, Hi. cbn [fmap option_fmap option_map].
  unfold TemporalDecay.extractTimestamp. rewrite Hparse.
  destruct (_ && _); [done|]. by destruct Hdir as [-> | ->].
Qed.

(** C10: when no workspace directory is supplied (none, or the empty
    string) the last-modified time is never asked for, whatever the batch and
    also for absolute paths; and every result whose path has no embedded date
    is returned as the same object, so with its score.  The source tags of
    the batch are tags such as [memory] or [sessions]: none holds a colon. *)
Theorem C10_no_workspace_no_decay_of_undated
    (isAbsolute : string → bool) (resolve : string → string → string)
    (stat : string → option number) (clock : number)
    {T : Type} (fields : T → Hybrid.HybridResult) (params : TemporalDecay.Params T) :
  TemporalDecay.workspaceDir params = None
  ∨ TemporalDecay.workspaceDir params = Some ""%string →
  let run :=
    TemporalDecay.applyTemporalDecayToHybridResults isAbsolute resolve stat clock fields
      params in
  run.2 = []
  ∧ (plainSources fields (TemporalDecay.results params) →
     ∀ i entry,
       TemporalDecay.results params !! i = Some entry →
       TemporalDecay.parseMemoryDateFromPath (Hybrid.path (fields entry)) = None →
       run.1 !! i = Some (TemporalDecay.Kept entry)).
Proof.
  intros Hdir run. split; [by apply batch_no_dir|].
  intros Hplain i entry Hi Hparse. unfold run.
  destruct (TemporalDecay.enabled
              (TemporalDecay.mergeConfig (TemporalDecay.temporalDecay params))) eqn:Hen.
  - apply undated_kept_where_keys_unambiguous; try done.
    intros e e' He He'. apply keyOf_plain_inj; by apply Hplain.
  - rewrite batch_disabled by done. cbn [fst]. by rewrite list_lookup_fmap, Hi.
Qed.

Lemma C10_no_workspace_no_decay_of_undated_witness :
  (TemporalDecay.applyTemporalDecayToHybridResults (λ _, true)
     (λ dir p, dir +:+ "/" +:+ p) (λ _, Some (Fin 0)) (Fin 0) Notes.fields
     (Notes.params [Notes.Daily; Notes.Session] None)).2 = []
  ∧ (TemporalDecay.applyTemporalDecayToHybridResults (λ _, true)
       (λ dir p, dir +:+ "/" +:+ p) (λ _, Some (Fin 0)) (Fin 0) Notes.fields
       (Notes.params [Notes.Daily; Notes.Session] None)).1 !! 1%nat
    = Some (TemporalDecay.Kept Notes.Session).
Proof.
  destruct (C10_no_workspace_no_decay_of_undated (λ _, true)
              (λ dir p, dir +:+ "/" +:+ p) (λ _, Some (Fin 0)) (Fin 0) Notes.fields
              (Notes.params [Notes.Daily; Notes.Session] None))
    as [Hlookups Hkept].
  { left. reflexivity. }
  split; [exact Hlookups|].
  apply Hkept.
  - intros e _. apply notes_plain.
  - reflexivity.
  - vm_compute. reflexivity.
Defined.

(** * Further properties of the code *)

(** ** Tokens *)

Module TokenFacts.
Import Str MMR.

Lemma lowerChar_idem (c : ascii) : lowerChar (lowerChar c) = lowerChar c.
Proof. destruct c as [[] [] [] [] [] [] [] []]; reflexivity. Qed.

Lemma toLowerCase_idem (s : string) : toLowerCase (toLowerCase s) = toLowerCase s.
Proof. induction s as [|c s IH]; [done|]. cbn. by rewrite lowerChar_idem, IH. Qed.

Lemma toLowerCase_append (s t : string) :
  toLowerCase (s +:+ t) = toLowerCase s +:+ toLowerCase t.
Proof.
  induction s as [|c s IH]; [done|].
  rewrite DecayFacts.append_cons. cbn [toLowerCase]. by rewrite IH, DecayFacts.append_cons.
Qed.

(** A lower-cased character of the class is a character of the class that
    lower-casing leaves as it is. *)
Lemma isWordChar_lower (c : ascii) : isWordChar c = true → lowerChar c = c.
Proof. destruct c as [[] [] [] [] [] [] [] []]; vm_compute; congruence. Qed.

Lemma chars_snoc (s : string) (c : ascii) :
  list_ascii_of_string (s +:+ String c EmptyString) = list_ascii_of_string s ++ [c].
Proof. induction s as [|d s IH]; [done|]. cbn. by rewrite <- IH. Qed.

Lemma snoc_nonempty (s : string) (c : ascii) : s +:+ String c EmptyString ≠ EmptyString.
Proof. by destruct s. Qed.

Lemma elem_of_flush (cur t : string) : t ∈ flush cur ↔ t = cur ∧ cur ≠ EmptyString.
Proof.
  destruct cur; cbn.
  - rewrite elem_of_nil. naive_solver.
  - rewrite list_elem_of_singleton. naive_solver.
Qed.

(** Every run found is made of characters of the class, and is not empty. *)
Lemma matchWordsGo_word (cur s t : string) :
  Forall (λ c, isWordChar c = true) (list_ascii_of_string cur) →
  t ∈ matchWordsGo cur s →
  t ≠ EmptyString ∧ Forall (λ c, isWordChar c = true) (list_ascii_of_string t).
Proof.
  revert cur. induction s as [|c s IH]; intros cur Hcur; cbn.
  - rewrite elem_of_flush. by intros [-> ?].
  - destruct (isWordChar c) eqn:Hc.
    + apply IH. rewrite chars_snoc. apply Forall_app. split; [done|]. by constructor.
    + rewrite elem_of_app, elem_of_flush. intros [[-> ?] | Ht]; [done|].
      by apply (IH EmptyString); [constructor|].
Qed.

(** A character outside the class ends the run being read; what follows is
    read from an empty run. *)
Lemma matchWordsGo_break (cur a b : string) (c : ascii) :
  isWordChar c = false →
  matchWordsGo cur (a +:+ String c b) = matchWordsGo cur a ++ matchWordsGo EmptyString b.
Proof.
  intros Hc. revert cur. induction a as [|d a IH]; intros cur.
  - rewrite DecayFacts.append_nil. cbn [matchWordsGo]. by rewrite Hc.
  - rewrite DecayFacts.append_cons. cbn [matchWordsGo].
    destruct (isWordChar d); [apply IH|]. by rewrite IH, app_assoc.
Qed.

Lemma tokenize_lower (text : string) : tokenize (toLowerCase text) = tokenize text.
Proof. unfold tokenize. by rewrite toLowerCase_idem. Qed.

Lemma tokenize_word (text t : string) :
  t ∈ tokenize text →
  t ≠ EmptyString
  ∧ Forall (λ c, isWordChar c = true) (list_ascii_of_string t)
  ∧ toLowerCase t = t.
Proof.
  unfold tokenize, matchWords. rewrite elem_of_list_to_set. intros Ht.
  apply matchWordsGo_word in Ht as [Hne Hall]; [|constructor].
  split; [done|]. split; [done|].
  clear Hne. induction t as [|c t IH]; [done|]. cbn in *.
  apply Forall_cons in Hall as [Hc Hall]. by rewrite (isWordChar_lower c Hc), IH.
Qed.

Lemma tokenize_break (a b : string) (c : ascii) :
  isWordChar (lowerChar c) = false →
  tokenize (a +:+ String c b) = tokenize a ∪ tokenize b.
Proof.
  intros Hc. unfold tokenize, matchWords. rewrite toLowerCase_append. cbn [toLowerCase].
  rewrite matchWordsGo_break by done. by rewrite list_to_set_app_L.
Qed.
End TokenFacts.

(** ** Similarity *)

Module SimilarityFacts.
Import MMR.

(** The similarity is [1] only for equal sets. *)
Lemma jaccard_one (A B : gset string) : jaccardSimilarity A B = Fin 1 → A = B.
Proof.
  destruct (decide (A = ∅)) as [->|HA]; destruct (decide (B = ∅)) as [->|HB]; [done|..].
  - rewrite jaccard_empty_l by done. intros [= H]. lra.
  - rewrite jaccard_empty_r by done. intros [= H]. lra.
  - rewrite jaccard_nonempty by done. intros [= H].
    assert (size (A ∪ B) ≠ 0) as Hu.
    { rewrite size_non_empty_iff. intros Hu. apply HA. set_solver. }
    assert (INR (size (A ∪ B)) ≠ 0%R) as Hu' by (apply not_0_INR; lia).
    assert (INR (size (A ∩ B)) = INR (size (A ∪ B))) as Heq.
    { apply (Rmult_eq_reg_r (/ INR (size (A ∪ B)))).
      - unfold Rdiv in H. rewrite H. by rewrite Rinv_r.
      - by apply Rinv_neq_0_compat. }
    apply INR_eq in Heq.
    assert (A ∩ B ≡ A ∪ B) as Hsets.
    { apply set_subseteq_size_equiv; [set_solver | lia]. }
    apply leibniz_equiv. set_solver.
Qed.

Section MaxSim.
Context {T : Type} `{EqDecision T} (item : T → MMRItem).
Variable tokenCache : gmap string (gset string).

Notation sim a b :=
  (jaccardSimilarity (tokensOf item tokenCache a) (tokensOf item tokenCache b)).

Lemma foldl_maxSim (t : T) (l : list T) (r0 : R) :
  (0 <= r0 <= 1)%R →
  ∃ r, foldl (λ maxSim selected,
               if (sim t selected >? maxSim)%num then sim t selected else maxSim)
         (Fin r0) l = Fin r
       ∧ (r0 <= r <= 1)%R
       ∧ (∀ s, s ∈ l → (sim t s <=? Fin r)%num = true)
       ∧ (r = r0 ∨ ∃ s, s ∈ l ∧ sim t s = Fin r).
Proof.
  revert r0. induction l as [|s l IH]; intros r0 Hr0; cbn [foldl].
  - exists r0. split; [done|]. split; [lra|]. split; [|by left].
    intros s Hs. by apply elem_of_nil in Hs.
  - destruct (jaccard_is_Fin (tokensOf item tokenCache t) (tokensOf item tokenCache s))
      as (x & Hx & Hxr).
    rewrite Hx. cbn [Num.gt Num.lt]. case_bool_decide as Hlt.
    + destruct (IH x Hxr) as (r & -> & Hr & Hall & Hatt).
      exists r. split; [done|]. split; [lra|]. split.
      * intros s' [-> | Hs']%elem_of_cons; [|by apply Hall].
        rewrite Hx, DecayFacts.le_Fin. apply bool_decide_eq_true_2. lra.
      * right. destruct Hatt as [-> | (s' & Hs' & Hs'r)].
        -- exists s. split; [left | done].
        -- exists s'. split; [by right | done].
    + destruct (IH r0 Hr0) as (r & -> & Hr & Hall & Hatt).
      exists r. split; [done|]. split; [lra|]. split.
      * intros s' [-> | Hs']%elem_of_cons; [|by apply Hall].
        rewrite Hx, DecayFacts.le_Fin. apply bool_decide_eq_true_2. lra.
      * destruct Hatt as [-> | (s' & Hs' & Hs'r)]; [by left|].
        right. exists s'. split; [by right | done].
Qed.

(** [maxSimilarityToSelected] is the largest similarity to a selected item,
    and 0 when nothing is selected. *)
Lemma maxSimilarityToSelected_max (t : T) (selected : list T) :
  ∃ r, maxSimilarityToSelected item t selected tokenCache = Fin r
       ∧ (0 <= r <= 1)%R
       ∧ (∀ s, s ∈ selected → (sim t s <=? Fin r)%num = true)
       ∧ match selected with
         | [] => r = 0%R
         | _ => ∃ s, s ∈ selected ∧ sim t s = Fin r
         end.
Proof.
  unfold maxSimilarityToSelected. destruct selected as [|s0 sel].
  - exists 0%R. split; [done|]. split; [lra|]. split; [|done].
    intros s Hs. by apply elem_of_nil in Hs.
  - destruct (foldl_maxSim t (s0 :: sel) 0) as (r & Hr & Hrange & Hall & Hatt); [lra|].
    exists r. split; [exact Hr|]. split; [lra|]. split; [done|].
    destruct Hatt as [-> | Hatt]; [|done].
    (* the maximum is 0: every similarity is 0, that of the first item too *)
    exists s0. split; [left|].
    destruct (jaccard_is_Fin (tokensOf item tokenCache t) (tokensOf item tokenCache s0))
      as (x & Hx & Hxr).
    specialize (Hall s0 ltac:(left)). rewrite Hx, DecayFacts.le_Fin in Hall.
    apply bool_decide_eq_true_1 in Hall. rewrite Hx. f_equal. lra.
Qed.
End MaxSim.
End SimilarityFacts.

(** ** Rounds in which all candidates have the same penalty *)

Module UniformFacts.
Import MMR.

Section Uniform.
Context {T : Type} `{EqDecision T} (item : T → MMRItem).
Variables (l m r : R).
Hypothesis lambda_range : (0 <= l <= 1)%R.
Hypothesis range_nonneg : (0 <= r)%R.
Variable tokenCache : gmap string (gset string).

Notation considerCandidate := (considerCandidate item (Fin l) (Fin m) (Fin r) tokenCache).
Notation pickBest := (pickBest item (Fin l) (Fin m) (Fin r) tokenCache).
Notation selectLoop := (selectLoop item (Fin l) (Fin m) (Fin r) tokenCache).
Notation nrm := (normR m r).

Lemma normR_le (x y : R) : (x <= y)%R → (nrm x <= nrm y)%R.
Proof.
  intros Hxy. unfold normR. case_bool_decide; [lra|].
  assert (0 < / r)%R by (apply Rinv_0_lt_compat; lra).
  unfold Rdiv. apply Rmult_le_compat_r; lra.
Qed.

(** The MMR score of an item when the penalty is [s]. *)
Notation mmr s x := (l * nrm (scoreR item x) - (1 - l) * s)%R.

(** Where all candidates have the same penalty, a candidate replaces the
    best so far exactly when its score is larger: a larger score gives an MMR
    score that is larger, or equal and then wins the tie-break. *)
Lemma considerCandidate_uniform (selected : list T) (b c : T) (s : R) :
  Num.isFinite (score (item b)) = true → Num.isFinite (score (item c)) = true →
  maxSimilarityToSelected item c selected tokenCache = Fin s →
  considerCandidate selected (Some b, Fin (mmr s b)) c
  = let w := if bool_decide (scoreR item b < scoreR item c)%R then c else b in
    (Some w, Fin (mmr s w)).
Proof.
  intros Hb Hc Hs. unfold MMR.considerCandidate.
  rewrite (score_scoreR item b Hb), (score_scoreR item c Hc), normalizeScore_Fin, Hs.
  rewrite computeMMRScore_Fin. fold (nrm (scoreR item c)).
  cbn [Num.gt Num.lt Num.eq]. cbn zeta.
  destruct (Rlt_dec (scoreR item b) (scoreR item c)) as [Hbc|Hbc].
  - rewrite (bool_decide_eq_true_2 (scoreR item b < scoreR item c)%R) by done.
    assert (nrm (scoreR item b) <= nrm (scoreR item c))%R as Hn by (apply normR_le; lra).
    assert (mmr s b <= mmr s c)%R as Hm by nra.
    destruct (Rle_lt_or_eq_dec _ _ Hm) as [Hlt | Heq].
    + by rewrite (bool_decide_eq_true_2 (mmr s b < mmr s c)%R) by done.
    + rewrite (bool_decide_eq_true_2 (mmr s c = mmr s b)%R) by done.
      by rewrite orb_true_r.
  - rewrite !(bool_decide_eq_false_2 (scoreR item b < scoreR item c)%R) by done.
    assert (nrm (scoreR item c) <= nrm (scoreR item b))%R as Hn by (apply normR_le; lra).
    assert (mmr s c <= mmr s b)%R as Hm by nra.
    rewrite (bool_decide_eq_false_2 (mmr s b < mmr s c)%R) by lra.
    by rewrite andb_false_r.
Qed.

Lemma foldl_considerCandidate_uniform (selected remaining : list T) (b : T) (s : R) :
  Num.isFinite (score (item b)) = true → finiteScores item remaining →
  (∀ c, c ∈ remaining → maxSimilarityToSelected item c selected tokenCache = Fin s) →
  (foldl (considerCandidate selected) (Some b, Fin (mmr s b)) remaining).1
  = Some (argmaxFrom item b remaining).
Proof.
  revert b. induction remaining as [|c rem IH]; intros b Hb Hfin Hs; [done|].
  assert (Num.isFinite (score (item c)) = true) as Hc by (apply Hfin; left).
  cbn [foldl]. rewrite (considerCandidate_uniform selected b c s) by (auto; apply Hs; left).
  cbn zeta. cbn [argmaxFrom foldl]. fold (argmaxFrom item).
  apply IH.
  - by case_bool_decide.
  - intros x Hx. apply Hfin. by right.
  - intros x Hx. apply Hs. by right.
Qed.

(** In a round in which all candidates have the same penalty the first
    candidate of the largest score is chosen. *)
Lemma pickBest_uniform (selected remaining : list T) (s : R) :
  finiteScores item remaining →
  (∀ c, c ∈ remaining → maxSimilarityToSelected item c selected tokenCache = Fin s) →
  pickBest selected remaining = firstMax item remaining.
Proof.
  intros Hfin Hs. destruct remaining as [|c rem]; [done|].
  rewrite firstMax_argmaxFrom. unfold MMR.pickBest.
  assert (Num.isFinite (score (item c)) = true) as Hc by (apply Hfin; left).
  cbn [foldl].
  assert (considerCandidate selected (None, NegInf) c = (Some c, Fin (mmr s c))) as ->.
  { unfold MMR.considerCandidate.
    rewrite (score_scoreR item c Hc), normalizeScore_Fin, (Hs c) by left.
    by rewrite computeMMRScore_Fin. }
  apply foldl_considerCandidate_uniform; [done | |].
  - intros x Hx. apply Hfin. by right.
  - intros x Hx. apply Hs. by right.
Qed.

(** The first round has nothing selected: every penalty is 0. *)
Lemma pickBest_first (remaining : list T) :
  finiteScores item remaining → pickBest [] remaining = firstMax item remaining.
Proof. intros Hfin. by apply (pickBest_uniform [] remaining 0). Qed.

Lemma selectLoop_prefix (rounds : nat) (selected remaining : list T) :
  ∃ rest, selectLoop rounds selected remaining = selected ++ rest.
Proof.
  revert selected remaining. induction rounds as [|n IH]; intros selected remaining.
  - exists []. by rewrite app_nil_r.
  - cbn [MMR.selectLoop]. destruct remaining as [|c rem]; [exists []; by rewrite app_nil_r|].
    destruct (pickBest selected (c :: rem)) as [b|]; [|exists []; by rewrite app_nil_r].
    destruct (IH (selected ++ [b]) (setDelete b (c :: rem))) as [rest ->].
    exists (b :: rest). by rewrite <- app_assoc.
Qed.

(** Where in every round all candidates have the same penalty, the loop
    sorts by score. *)
Lemma selectLoop_uniform (rounds : nat) (selected remaining : list T) :
  NoDup remaining → finiteScores item remaining → length remaining ≤ rounds →
  (∀ sel, ∃ s, ∀ c, c ∈ remaining →
     (∀ x, x ∈ sel → x ∈ selected ∨ x ∈ remaining ∧ x ≠ c) →
     maxSimilarityToSelected item c sel tokenCache = Fin s) →
  selectLoop rounds selected remaining
  = selected ++ toSorted (byScoreDesc item) remaining.
Proof.
  revert selected remaining.
  induction rounds as [|n IH]; intros selected remaining Hnd Hfin Hlen Hunif.
  - destruct remaining; [by rewrite app_nil_r | simpl in Hlen; lia].
  - destruct remaining as [|c rem]; [by rewrite app_nil_r|].
    cbn [MMR.selectLoop]. destruct (Hunif selected) as [s Hs].
    rewrite (pickBest_uniform selected (c :: rem) s); [|done|].
    2:{ intros x Hx. apply Hs; [done|]. intros y Hy. by left. }
    pose proof (toSorted_firstMax item _ Hnd Hfin) as Hsorted.
    destruct (firstMax item (c :: rem)) as [b|] eqn:Hb; [|done].
    pose proof (firstMax_elem item _ _ Hb) as Hbl.
    rewrite IH.
    + rewrite Hsorted, <- app_assoc. done.
    + by apply NoDup_setDelete.
    + intros x Hx. eapply Hfin, elem_of_setDelete, Hx.
    + pose proof (setDelete_length b (c :: rem) Hbl). lia.
    + intros sel. destruct (Hunif sel) as [s' Hs']. exists s'.
      intros x Hx Hsel. apply Hs'; [by eapply elem_of_setDelete|].
      intros y Hy. destruct (Hsel y Hy) as [[Hy' | Hy']%elem_of_app | [Hy' Hne]].
      * by left.
      * apply list_elem_of_singleton in Hy' as ->. right. split; [done|].
        intros ->. unfold setDelete in Hx. apply list_elem_of_filter in Hx. naive_solver.
      * right. split; [by eapply elem_of_setDelete | done].
Qed.
End Uniform.
End UniformFacts.

(** ** Re-ranking, whatever the numbers are *)

Module RerankMore.
Import MMR UniformFacts SimilarityFacts.

Section Items.
Context {T : Type} `{EqDecision T} (item : T → MMRItem).

Lemma newSet_sublist (items : list T) : newSet items `sublist_of` items.
Proof.
  induction items as [|x l IH]; [done|]. cbn [newSet].
  apply sublist_skip. etrans; [apply sublist_filter | done].
Qed.

(** Whatever the numbers are, [mmrRerank] returns some of its input items,
    none more often than the input has it. *)
Lemma mmrRerank_submseteq (items : list T) (config : PartialMMRConfig) :
  mmrRerank item items config ⊆+ items.
Proof.
  unfold mmrRerank. destruct (_ || _); [done|].
  destruct (_ =? _)%num.
  - apply Permutation_submseteq, toSorted_Permutation.
  - unfold mmrGreedy.
    match goal with
    | |- selectLoop _ ?l ?m ?r ?cache ?n ?sel ?rem ⊆+ _ =>
        destruct (selectLoop_sub item l m r cache n sel rem (NoDup_newSet items))
          as [rest Hrest]
    end.
    etrans; [|apply sublist_submseteq, newSet_sublist].
    etrans; [|apply Permutation_submseteq; exact Hrest].
    by apply submseteq_inserts_r.
Qed.

Lemma buildTokenCache_other (cache : gmap string (gset string)) (l : list T) (k : string) :
  (∀ x, x ∈ l → id (item x) ≠ k) →
  foldl (λ cache t, <[id (item t) := tokenize (content (item t))]> cache) cache l !! k
  = cache !! k.
Proof.
  revert cache. induction l as [|y l IH]; intros cache Hk; [done|].
  cbn [foldl]. rewrite IH.
  - apply lookup_insert_ne, Hk. by left.
  - intros x Hx. apply Hk. by right.
Qed.

(** With distinct ids the token cache has the tokens of every item of the
    batch under its id. *)
Lemma buildTokenCache_lookup (items : list T) (x : T) :
  NoDup ((λ t, id (item t)) <$> items) → x ∈ items →
  buildTokenCache item items !! id (item x) = Some (tokenize (content (item x))).
Proof.
  unfold buildTokenCache. generalize (∅ : gmap string (gset string)).
  induction items as [|y l IH]; intros cache Hnd Hx.
  - by apply elem_of_nil in Hx.
  - cbn [fmap list_fmap] in Hnd. apply NoDup_cons in Hnd as [Hy Hnd]. cbn [foldl].
    destruct (decide (x ∈ l)) as [Hxl | Hxl]; [by apply IH|].
    apply elem_of_cons in Hx as [-> | Hx]; [|done].
    rewrite buildTokenCache_other; [by rewrite lookup_insert_eq|].
    intros z Hz Heq. apply Hy. apply list_elem_of_fmap. by exists z.
Qed.

Lemma tokensOf_buildTokenCache (items : list T) (x : T) :
  NoDup ((λ t, id (item t)) <$> items) → x ∈ items →
  tokensOf item (buildTokenCache item items) x = tokenize (content (item x)).
Proof. intros Hnd Hx. unfold tokensOf. by rewrite buildTokenCache_lookup. Qed.

Lemma NoDup_ids (items : list T) :
  NoDup ((λ t, id (item t)) <$> items) → NoDup items.
Proof. apply NoDup_fmap_1. Qed.

Lemma clamped_cases (config : PartialMMRConfig) :
  lambda_opt config ≠ Some NaN →
  ∃ l, Num.max (Fin 0) (Num.min (Fin 1) (default (lambda DEFAULT_MMR_CONFIG) (lambda_opt config)))
       = Fin l ∧ (0 <= l <= 1)%R.
Proof.
  intros Hnan. apply clamp_Fin.
  destruct (lambda_opt config) as [x|]; simpl; [congruence | discriminate].
Qed.

(** The enabled stage starts with the first item of the largest score. *)
Lemma mmrRerank_head (items : list T) (config : PartialMMRConfig) :
  default (enabled DEFAULT_MMR_CONFIG) (enabled_opt config) = true →
  NoDup items → finiteScores item items → lambda_opt config ≠ Some NaN →
  head (mmrRerank item items config) = firstMax item items.
Proof.
  intros Hen Hnd Hfin Hnan. unfold mmrRerank. rewrite Hen. cbn [negb orb].
  case_bool_decide as Hlen.
  { destruct items as [|a [|b l]]; simpl in *; [done | done | lia]. }
  destruct (clamped_cases config Hnan) as (l & -> & Hl).
  pose proof (toSorted_firstMax item items Hnd Hfin) as Hsorted.
  destruct (Fin l =? Fin 1)%num.
  - destruct (firstMax item items) as [b|]; [by rewrite Hsorted | by subst].
  - unfold mmrGreedy.
    destruct items as [|x0 items0] eqn:Hitems; [simpl in Hlen; lia|]. rewrite <- Hitems in *.
    destruct (scoreRange_Fin (map (λ i, score (item i)) items)) as (M & m & -> & -> & Hle).
    { by rewrite Hitems. }
    { by apply finiteScores_Forall. }
    change (Fin M - Fin m)%num with (Fin (M - m)).
    rewrite newSet_NoDup by done.
    rewrite Hitems. cbn [length MMR.selectLoop]. rewrite <- Hitems.
    rewrite (pickBest_first item l m (M - m)) by (done || lra).
    destruct (firstMax item items) as [b|] eqn:Hb.
    + edestruct (selectLoop_prefix item l m (M - m)) as [rest ->].
      done.
    + by rewrite Hitems in Hb.
Qed.

(** Where all pairs of distinct items of the batch are equally similar (no
    two share a token, say, or all have the same tokens), the candidates of a
    round all have the same penalty and the enabled stage sorts by score,
    whatever [lambda] is. *)
Lemma mmrRerank_uniform (items : list T) (config : PartialMMRConfig) (sigma : R) :
  default (enabled DEFAULT_MMR_CONFIG) (enabled_opt config) = true →
  NoDup ((λ t, id (item t)) <$> items) → finiteScores item items →
  lambda_opt config ≠ Some NaN →
  (∀ x y, x ∈ items → y ∈ items → x ≠ y →
     textSimilarity (content (item x)) (content (item y)) = Fin sigma) →
  mmrRerank item items config = toSorted (byScoreDesc item) items.
Proof.
  intros Hen Hids Hfin Hnan Hsim.
  pose proof (NoDup_ids items Hids) as Hnd.
  unfold mmrRerank. rewrite Hen. cbn [negb orb].
  case_bool_decide as Hlen; [by rewrite toSorted_short|].
  destruct (clamped_cases config Hnan) as (l & -> & Hl).
  destruct (Fin l =? Fin 1)%num; [done|].
  unfold mmrGreedy.
  destruct items as [|x0 items0] eqn:Hitems; [done|]. rewrite <- Hitems in *.
  destruct (scoreRange_Fin (map (λ i, score (item i)) items)) as (M & m & -> & -> & Hle).
  { by rewrite Hitems. }
  { by apply finiteScores_Forall. }
  change (Fin M - Fin m)%num with (Fin (M - m)).
  rewrite newSet_NoDup by done.
  rewrite (selectLoop_uniform item l m (M - m)); [done | done | lra | done | done | done |].
  intros sel. destruct sel as [|s0 sel0] eqn:Hs.
  { exists 0%R. done. }
  rewrite <- Hs. exists sigma. intros c Hc Hsel.
  destruct (maxSimilarityToSelected_max item (buildTokenCache item items) c sel)
    as (r & -> & _ & _ & Hatt).
  rewrite Hs in Hatt. rewrite <- Hs in Hatt.
  destruct Hatt as (s & Hsin & Hr).
  destruct (Hsel s Hsin) as [Hnil | [Hs' Hne]]; [by apply elem_of_nil in Hnil|].
  rewrite !tokensOf_buildTokenCache in Hr by done.
  unfold textSimilarity in Hsim. rewrite Hsim in Hr by done. by injection Hr as <-.
Qed.
End Items.

Section AdapterMore.
Context {T : Type} (fields : T → Hybrid.HybridResult).

(** Whatever the numbers are, the adapter returns results of its input,
    none more often than the input has it, and never a missing entry. *)
Lemma applyMMRToHybridResults_submseteq (results : list T) (config : PartialMMRConfig) :
  applyMMRToHybridResults fields results config ⊆+ Some <$> results.
Proof.
  unfold applyMMRToHybridResults.
  destruct results as [|r0 rs]; [done|].
  set (results := r0 :: rs) in *.
  rewrite <- (AdapterFacts.adapter_positions fields results).
  apply fmap_submseteq. rewrite length_imap. apply mmrRerank_submseteq.
Qed.
End AdapterMore.
End RerankMore.

(** ** Normalised relevance *)

Module NormalFacts.
Import MMR SimilarityFacts.

(** The largest and the smallest of finite numbers bound them all. *)
Lemma scoreRange_bounds (xs : list number) :
  xs ≠ [] → Forall (λ x, Num.isFinite x = true) xs →
  ∃ M m, Num.maxList xs = Fin M ∧ Num.minList xs = Fin m
         ∧ Forall (λ x, ∃ r, x = Fin r ∧ (m <= r <= M)%R) xs.
Proof.
  intros Hne Hf. destruct xs as [|x xs]; [done|].
  inversion Hf as [|? ? Hx Hxs]; subst.
  destruct x as [| |r|]; try discriminate.
  unfold Num.maxList, Num.minList. simpl.
  destruct (maxList_Fin xs r Hxs) as (M & HM & HleM & HallM).
  destruct (minList_Fin xs r Hxs) as (m & Hm & Hlem & Hallm).
  exists M, m. split; [done|]. split; [done|].
  constructor; [exists r; split; [done | lra]|].
  rewrite Forall_forall in HallM, Hallm. apply Forall_forall. intros y Hy.
  destruct (HallM y Hy) as (ry & -> & HyM). destruct (Hallm _ Hy) as (ry' & [= <-] & Hym).
  exists ry. split; [done | lra].
Qed.

Section Normal.
Context {T : Type} `{EqDecision T} (item : T → MMRItem).

(** The normalised relevance of an item of the batch is between 0 and 1,
    and so its MMR score is between [-(1 - lambda)] and [lambda], whatever is
    selected. *)
Lemma mmrScore_range (items selected : list T) (x : T) (l : R)
    (tokenCache : gmap string (gset string)) :
  finiteScores item items → x ∈ items → (0 <= l <= 1)%R →
  let minScore := Num.minList (map (λ i, score (item i)) items) in
  let maxScore := Num.maxList (map (λ i, score (item i)) items) in
  ∃ rel v,
    normalizeScore minScore (maxScore - minScore)%num (score (item x)) = Fin rel
    ∧ (0 <= rel <= 1)%R
    ∧ computeMMRScore (Fin rel)
        (maxSimilarityToSelected item x selected tokenCache) (Fin l) = Fin v
    ∧ (- (1 - l) <= v <= l)%R.
Proof.
  intros Hfin Hx Hl minScore maxScore.
  destruct (scoreRange_bounds (map (λ i, score (item i)) items)) as (M & m & HM & Hm & Hall).
  { intros Hnil. apply map_eq_nil in Hnil. subst. by apply elem_of_nil in Hx. }
  { by apply finiteScores_Forall. }
  unfold minScore, maxScore. rewrite HM, Hm.
  rewrite Forall_forall in Hall.
  destruct (Hall (score (item x))) as (r & Hr & Hrange).
  { apply list_elem_of_In, in_map_iff. exists x. split; [done|]. by apply list_elem_of_In. }
  rewrite Hr. change (Fin M - Fin m)%num with (Fin (M - m)).
  rewrite normalizeScore_Fin.
  set (rel := if bool_decide (M - m = 0)%R then 1%R else ((r - m) / (M - m))%R).
  assert (0 <= rel <= 1)%R as Hrel.
  { unfold rel. case_bool_decide; [lra|].
    assert (0 < M - m)%R as Hpos by lra.
    assert (0 < / (M - m))%R as Hinv by (by apply Rinv_0_lt_compat).
    unfold Rdiv. split.
    - apply Rmult_le_pos; lra.
    - apply (Rmult_le_reg_r (M - m)); [done|].
      rewrite Rmult_assoc, Rinv_l by lra. lra. }
  destruct (maxSimilarityToSelected_max item tokenCache x selected) as (s & -> & Hs & _).
  exists rel, (l * rel - (1 - l) * s)%R. split; [done|]. split; [done|].
  rewrite computeMMRScore_Fin. split; [done|]. nra.
Qed.
End Normal.
End NormalFacts.

(** ** Decay *)

Module DecayMore.
Import TemporalDecay.

(** ** The batch *)

Section BatchMore.
Variable isAbsolute : string → bool.
Variable resolve : string → string → string.
Variable stat : string → option number.
Variable clock : number.
Context {T : Type} (fields : T → Hybrid.HybridResult).

Notation extractTimestamp := (extractTimestamp isAbsolute resolve stat).
Notation decayEntry := (decayEntry isAbsolute resolve stat fields).
Notation applyTemporalDecayToHybridResults :=
  (applyTemporalDecayToHybridResults isAbsolute resolve stat clock fields).

Lemma outputEntry_outputFor config now (e : T) (ts : option Date) :
  outputEntry (outputFor fields config now e ts) = e.
Proof. by destruct ts. Qed.

Lemma foldl_decayEntry_entries config dir now (st : BatchState) (l : list T) :
  outputEntry <$> output (foldl (decayEntry config dir now) st l)
  = (outputEntry <$> output st) ++ l.
Proof.
  revert st. induction l as [|e l IH]; intros st; [by rewrite app_nil_r|].
  cbn [foldl]. rewrite IH.
  destruct (cache st !! keyOf fields e) as [ts|] eqn:Hc.
  - rewrite (decayEntry_hit isAbsolute resolve stat fields config dir now st e ts Hc).
    cbn [output]. rewrite fmap_app. cbn [fmap list_fmap].
    by rewrite outputEntry_outputFor, <- app_assoc.
  - rewrite (decayEntry_miss isAbsolute resolve stat fields config dir now st e Hc).
    cbn [output]. rewrite fmap_app. cbn [fmap list_fmap].
    by rewrite outputEntry_outputFor, <- app_assoc.
Qed.

(** The output has the results in their order, each as itself or as a
    rescored copy of itself. *)
Lemma batch_entries (params : Params T) :
  outputEntry <$> (applyTemporalDecayToHybridResults params).1 = results params.
Proof.
  unfold TemporalDecay.applyTemporalDecayToHybridResults.
  destruct (negb _); cbn [fst].
  - rewrite <- list_fmap_compose. by rewrite list_fmap_id.
  - by rewrite foldl_decayEntry_entries.
Qed.

Lemma extractTimestamp_lookups (filePath : string) (source dir : option string) :
  length (extractTimestamp filePath source dir).2 ≤ 1.
Proof.
  unfold TemporalDecay.extractTimestamp.
  destruct (parseMemoryDateFromPath filePath); [simpl; lia|].
  destruct (_ && _); [simpl; lia|].
  destruct dir as [[|c d]|]; simpl; lia.
Qed.

Lemma foldl_decayEntry_lookups config dir now (st : BatchState) (l : list T) :
  length (lookups st) ≤ size (dom (cache st)) →
  length (lookups (foldl (decayEntry config dir now) st l))
  ≤ size (dom (cache (foldl (decayEntry config dir now) st l)))
  ∧ dom (cache (foldl (decayEntry config dir now) st l))
    = dom (cache st) ∪ list_to_set (keyOf fields <$> l).
Proof.
  revert st. induction l as [|e l IH]; intros st Hst.
  - cbn. split; [done | set_solver].
  - cbn [foldl].
    destruct (cache st !! keyOf fields e) as [ts|] eqn:Hc.
    + rewrite (decayEntry_hit isAbsolute resolve stat fields config dir now st e ts Hc).
      destruct (IH {| cache := cache st; lookups := lookups st;
                      output := output st ++ [outputFor fields config now e ts] |})
        as [Hlen Hdom]; [done|].
      split; [done|]. rewrite Hdom. cbn [cache fmap list_fmap list_to_set foldr].
      apply elem_of_dom_2 in Hc. set_solver.
    + rewrite (decayEntry_miss isAbsolute resolve stat fields config dir now st e Hc).
      cbn zeta.
      match goal with
      | |- context [foldl _ ?st' l] => destruct (IH st') as [Hlen Hdom]
      end.
      { cbn [cache lookups]. rewrite length_app, dom_insert_L.
        rewrite size_union by (apply not_elem_of_dom in Hc; set_solver).
        rewrite size_singleton.
        pose proof (extractTimestamp_lookups (Hybrid.path (fields e))
                      (Some (Hybrid.source (fields e))) dir). lia. }
      split; [done|]. rewrite Hdom. cbn [cache fmap list_fmap list_to_set foldr].
      rewrite dom_insert_L. set_solver.
Qed.

(** Last-modified lookups are made once per cache key at most. *)
Lemma batch_lookups (params : Params T) :
  length (applyTemporalDecayToHybridResults params).2
  ≤ size (list_to_set (keyOf fields <$> results params) : gset string).
Proof.
  unfold TemporalDecay.applyTemporalDecayToHybridResults.
  destruct (negb _); cbn [snd]; [simpl; lia|].
  match goal with
  | |- context [foldl ?f ?st ?l] =>
      destruct (foldl_decayEntry_lookups
                  (mergeConfig (temporalDecay params)) (workspaceDir params)
                  (default clock (nowMs params)) st l) as [Hlen Hdom]
  end.
  { simpl. lia. }
  rewrite Hdom in Hlen. cbn [cache] in Hlen. rewrite dom_empty_L, (left_id_L ∅ (∪)) in Hlen.
  exact Hlen.
Qed.
End BatchMore.

(** ** Dates read from paths *)

Lemma matchDatedTail_inv (s Y M D : string) :
  matchDatedTail s = Some (Y, M, D) → s = datedTail Y M D ∧ dateGroups Y M D.
Proof.
  unfold matchDatedTail.
  destruct (_ && _) eqn:Hb; [|done]. intros [= <- <- <-].
  repeat (apply andb_true_iff in Hb as [Hb ?]).
  repeat match goal with H : bool_decide _ = true |- _ => apply bool_decide_eq_true_1 in H end.
  split; [exact Hb | done].
Qed.

Lemma execDatedFrom_inv (b : bool) (s : string) (g : string * string * string) :
  execDatedFrom b s = Some g →
  ∃ dir tail, s = dir +:+ tail ∧ matchDatedTail tail = Some g
              ∧ (dir = ""%string → b = true)
              ∧ (dir ≠ ""%string → ∃ p, dir = p +:+ "/"%string).
Proof.
  revert b. induction s as [|c s IH]; intros b; cbn [execDatedFrom].
  - destruct b; [|done]. destruct (matchDatedTail "") eqn:Hm; [|done].
    intros [= <-]. by exists ""%string, ""%string.
  - destruct (if b then matchDatedTail (String c s) else None) as [g'|] eqn:Hhere.
    + intros [= <-]. destruct b; [|done].
      exists ""%string, (String c s). by rewrite append_nil.
    + intros Hrest. apply IH in Hrest as (dir & tail & -> & Hm & Hstart & Hslash).
      exists (String c dir), tail. rewrite append_cons. split; [done|]. split; [done|].
      split; [done|]. intros _.
      destruct (decide (dir = ""%string)) as [-> | Hne].
      * specialize (Hstart eq_refl). apply bool_decide_eq_true_1 in Hstart as ->.
        by exists ""%string.
      * destruct (Hslash Hne) as [p ->]. exists (String c p). by rewrite append_cons.
Qed.

(** A date is read only from a path that ends in [memory/YYYY-MM-DD.md]
    behind the start of the path or a slash, and it is the date written
    there, a valid one, at UTC midnight. *)
Lemma utc_checked (y m d t : Z) :
  JSDate.UTC y (m - 1) d = Some t →
  JSDate.YearFromTime t = y → JSDate.MonthFromTime t = (m - 1)%Z →
  JSDate.DateFromTime t = d →
  JSDate.validDate y m d ∧ (t mod JSDate.msPerDay = 0)%Z.
Proof.
  intros Hutc Hy Hmo Hd. split.
  - subst y d. assert (m = JSDate.MonthFromTime t + 1)%Z as -> by lia.
    apply time_fields_valid.
  - unfold JSDate.UTC, JSDate.TimeClip in Hutc. case_bool_decide; [done|].
    injection Hutc as <-. unfold JSDate.MakeDate. rewrite Z.add_0_r. apply Z_mod_mult.
Qed.

Lemma parse_sound (filePath : string) (date : Date) :
  parseMemoryDateFromPath filePath = Some date →
  ∃ dir Y M D t,
    normalizePath filePath = dir +:+ datedTail Y M D
    ∧ dateGroups Y M D
    ∧ (dir = ""%string ∨ ∃ p, dir = p +:+ "/"%string)
    ∧ date = DateAt t
    ∧ JSDate.validDate (digitsToZ Y) (digitsToZ M) (digitsToZ D)
    ∧ (t mod JSDate.msPerDay = 0)%Z
    ∧ JSDate.YearFromTime t = digitsToZ Y
    ∧ JSDate.MonthFromTime t = (digitsToZ M - 1)%Z
    ∧ JSDate.DateFromTime t = digitsToZ D.
Proof.
  unfold parseMemoryDateFromPath, DATED_MEMORY_PATH_RE_exec.
  destruct (execDatedFrom true (normalizePath filePath)) as [[[Y M] D]|] eqn:Hexec;
    [|discriminate].
  apply execDatedFrom_inv in Hexec as (dir & tail & Hnorm & Hm & Hstart & Hslash).
  apply matchDatedTail_inv in Hm as [-> Hg].
  destruct (JSDate.UTC (digitsToZ Y) (digitsToZ M - 1) (digitsToZ D)) as [t|] eqn:Hutc;
    [|discriminate].
  destruct (bool_decide (JSDate.YearFromTime t = digitsToZ Y)) eqn:Hy; [|discriminate].
  destruct (bool_decide (JSDate.MonthFromTime t = (digitsToZ M - 1)%Z)) eqn:Hmo;
    [|discriminate].
  destruct (bool_decide (JSDate.DateFromTime t = digitsToZ D)) eqn:Hd; [|discriminate].
  cbn [negb orb]. intros [= <-].
  apply bool_decide_eq_true_1 in Hy, Hmo, Hd.
  destruct (utc_checked _ _ _ _ Hutc Hy Hmo Hd) as [Hvalid Hmid].
  exists dir, Y, M, D, t. split; [exact Hnorm|]. split; [exact Hg|].
  split. { destruct (decide (dir = ""%string)); [by left | right; by apply Hslash]. }
  split; [reflexivity|]. split; [exact Hvalid|]. split; [exact Hmid|].
  split; [exact Hy|]. split; [exact Hmo | exact Hd].
Qed.
End DecayMore.

(** ** Settings under which nothing decays *)

Module NeutralFacts.
Import TemporalDecay.

Lemma mul_one (s : number) : (s * Fin 1)%num = s.
Proof.
  destruct s as [| |x|]; cbn; try done.
  - by rewrite bool_decide_eq_false_2, bool_decide_eq_true_2 by lra.
  - f_equal. lra.
  - by rewrite bool_decide_eq_false_2, bool_decide_eq_true_2 by lra.
Qed.

(** With a [now] that is [NaN] or [+Infinity] no age gives a multiplier
    other than 1. *)
Lemma multiplier_unusable_now (timestamp : Date) (now h : number) :
  now = NaN ∨ now = PosInf →
  calculateTemporalDecayMultiplier (ageInDaysFromTimestamp timestamp now) h = Fin 1.
Proof.
  intros Hnow. apply multiplier_unusable_age.
  unfold ageInDaysFromTimestamp, DAY_MS.
  destruct Hnow as [-> | ->]; destruct timestamp as [|t]; cbn; auto.
  rewrite (bool_decide_eq_false_2 (24 * 60 * 60 * 1000 < 0)%R) by lra.
  rewrite (bool_decide_eq_true_2 (0 < 24 * 60 * 60 * 1000)%R) by lra.
  by right.
Qed.

Section Neutral.
Variable isAbsolute : string → bool.
Variable resolve : string → string → string.
Variable stat : string → option number.
Variable clock : number.
Context {T : Type} (fields : T → Hybrid.HybridResult).

Notation decayEntry := (decayEntry isAbsolute resolve stat fields).
Notation applyTemporalDecayToHybridResults :=
  (applyTemporalDecayToHybridResults isAbsolute resolve stat clock fields).

(** Every output is what some timestamp, or none, gives for its result. *)
Lemma foldl_decayEntry_form config dir now (st : BatchState) (l : list T) :
  ∃ tss, length tss = length l
         ∧ output (foldl (decayEntry config dir now) st l)
           = output st ++ zip_with (outputFor fields config now) l tss.
Proof.
  revert st. induction l as [|e l IH]; intros st.
  - exists []. split; [done|]. by rewrite app_nil_r.
  - cbn [foldl].
    destruct (cache st !! keyOf fields e) as [ts|] eqn:Hc.
    + rewrite (decayEntry_hit isAbsolute resolve stat fields config dir now st e ts Hc).
      match goal with |- context [foldl _ ?st' l] => destruct (IH st') as (tss & Hlen & ->) end.
      exists (ts :: tss). split; [simpl; lia|]. cbn [output zip_with]. by rewrite <- app_assoc.
    + rewrite (decayEntry_miss isAbsolute resolve stat fields config dir now st e Hc).
      cbn zeta.
      match goal with |- context [foldl _ ?st' l] => destruct (IH st') as (tss & Hlen & ->) end.
      eexists (_ :: tss). split; [simpl; lia|]. cbn [output zip_with]. by rewrite <- app_assoc.
Qed.

Lemma outputScore_neutral config now (e : T) (ts : option Date) :
  (∀ t, calculateTemporalDecayMultiplier (ageInDaysFromTimestamp t now)
          (halfLifeDays config) = Fin 1) →
  outputScore fields (outputFor fields config now e ts) = Hybrid.score (fields e).
Proof.
  intros Hone. destruct ts as [t|]; [|done]. cbn [outputFor outputScore].
  unfold applyTemporalDecayToScore. by rewrite Hone, mul_one.
Qed.

(** Where every multiplier is 1 the batch leaves every score as it is. *)
Lemma batch_neutral (params : Params T) :
  (∀ t, calculateTemporalDecayMultiplier
          (ageInDaysFromTimestamp t (default clock (nowMs params)))
          (halfLifeDays (mergeConfig (temporalDecay params))) = Fin 1) →
  outputScore fields <$> (applyTemporalDecayToHybridResults params).1
  = (λ e, Hybrid.score (fields e)) <$> results params.
Proof.
  intros Hone. unfold TemporalDecay.applyTemporalDecayToHybridResults.
  destruct (negb _); cbn [fst].
  - rewrite <- list_fmap_compose. done.
  - match goal with
    | |- context [foldl ?f ?st ?l] =>
        destruct (foldl_decayEntry_form (mergeConfig (temporalDecay params))
                    (workspaceDir params) (default clock (nowMs params)) st l)
          as (tss & Hlen & ->)
    end.
    cbn [output app].
    generalize dependent tss. induction (results params) as [|e l IH]; intros tss Hlen.
    + by destruct tss.
    + destruct tss as [|ts tss]; [simpl in Hlen; lia|].
      cbn [zip_with fmap list_fmap]. rewrite outputScore_neutral by done.
      f_equal. apply IH. simpl in Hlen. lia.
Qed.
End Neutral.
End NeutralFacts.

Import TokenFacts SimilarityFacts UniformFacts RerankMore NormalFacts.
Import DecayMore NeutralFacts.

(** ** Tokens and similarity *)

(** X1: the Jaccard similarity of two token sets is a number between 0 and
    1, and it is 1 exactly when the sets are equal. *)
Theorem X1_jaccard_range_and_identity :
  (∀ A B : gset string,
     ∃ r, MMR.jaccardSimilarity A B = Fin r ∧ (0 <= r <= 1)%R)
  ∧ (∀ A B : gset string, MMR.jaccardSimilarity A B = Fin 1 ↔ A = B).
Proof.
  split; [apply jaccard_is_Fin|].
  intros A B. split; [apply jaccard_one|]. intros ->. apply jaccard_self.
Qed.

(** X2: every token of a text is a non-empty run of the characters [a-z],
    [0-9] and [_], with no capital letter in it. *)
Theorem X2_tokens_are_lowercase_words (text t : string) :
  t ∈ MMR.tokenize text →
  t ≠ EmptyString
  ∧ Forall (λ c, Str.isWordChar c = true) (list_ascii_of_string t)
  ∧ Str.toLowerCase t = t.
Proof. apply tokenize_word. Qed.

Lemma X2_tokens_are_lowercase_words_witness :
  "cats"%string ≠ EmptyString
  ∧ Forall (λ c, Str.isWordChar c = true) (list_ascii_of_string "cats")
  ∧ Str.toLowerCase "cats" = "cats"%string.
Proof.
  apply (X2_tokens_are_lowercase_words "Cats, dogs" "cats").
  unfold MMR.tokenize. apply elem_of_list_to_set.
  change ("cats"%string ∈ ["cats"; "dogs"]%string). left.
Defined.

(** X3: the similarity of two texts does not depend on the case of the
    letters, and a character other than a letter, a digit or the underscore
    only separates words: the tokens of [a c b] are those of [a] and those
    of [b], so that the order of the words does not matter. *)
Theorem X3_similarity_ignores_case_and_word_order :
  (∀ a b : string,
     MMR.textSimilarity (Str.toLowerCase a) b = MMR.textSimilarity a b)
  ∧ (∀ (a b : string) (c : ascii),
       Str.isWordChar (Str.lowerChar c) = false →
       MMR.tokenize (a +:+ String c b) = MMR.tokenize a ∪ MMR.tokenize b
       ∧ ∀ x : string,
           MMR.textSimilarity (a +:+ String c b) x
           = MMR.textSimilarity (b +:+ String c a) x).
Proof.
  split.
  - intros a b. unfold MMR.textSimilarity. by rewrite tokenize_lower.
  - intros a b c Hc. split; [by apply tokenize_break|].
    intros x. unfold MMR.textSimilarity. rewrite !tokenize_break by done.
    f_equal. apply (comm_L (∪)).
Qed.

Lemma X3_similarity_ignores_case_and_word_order_witness :
  MMR.tokenize "cats and dogs" = MMR.tokenize "cats" ∪ MMR.tokenize "and dogs"
  ∧ ∀ x : string,
      MMR.textSimilarity "cats and dogs" x = MMR.textSimilarity "and dogs cats" x.
Proof.
  destruct X3_similarity_ignores_case_and_word_order as [_ Hbreak].
  apply (Hbreak "cats" "and dogs" " "%char). reflexivity.
Defined.

(** X4: the penalty of a candidate, [maxSimilarityToSelected], is the
    largest Jaccard similarity between its tokens and those of a selected
    item: a number between 0 and 1 that no such similarity exceeds and that
    one of them reaches, and 0 when nothing is selected. *)
Theorem X4_penalty_is_largest_similarity
    {T : Type} `{EqDecision T} (item : T → MMR.MMRItem)
    (tokenCache : gmap string (gset string)) (candidate : T) (selected : list T) :
  ∃ r, MMR.maxSimilarityToSelected item candidate selected tokenCache = Fin r
       ∧ (0 <= r <= 1)%R
       ∧ (∀ s, s ∈ selected →
            (MMR.jaccardSimilarity (MMR.tokensOf item tokenCache candidate)
               (MMR.tokensOf item tokenCache s) <=? Fin r)%num = true)
       ∧ match selected with
         | [] => r = 0%R
         | _ => ∃ s, s ∈ selected
                     ∧ MMR.jaccardSimilarity (MMR.tokensOf item tokenCache candidate)
                         (MMR.tokensOf item tokenCache s) = Fin r
         end.
Proof. apply maxSimilarityToSelected_max. Qed.

Lemma X4_penalty_is_largest_similarity_witness :
  ∃ r, MMR.maxSimilarityToSelected Sample.abcItem Sample.B [Sample.C; Sample.A]
         Sample.cacheABC = Fin r
       ∧ (MMR.jaccardSimilarity (MMR.tokensOf Sample.abcItem Sample.cacheABC Sample.B)
            (MMR.tokensOf Sample.abcItem Sample.cacheABC Sample.A) <=? Fin r)%num = true.
Proof.
  destruct (X4_penalty_is_largest_similarity Sample.abcItem Sample.cacheABC
              Sample.B [Sample.C; Sample.A]) as (r & Hr & _ & Hall & _).
  exists r. split; [exact Hr|]. apply Hall. right. left.
Defined.

(** ** Re-ranking *)

(** X5: for distinct items with finite scores whose range does not overflow
    and a [lambda] that is a number, [mmrRerank] returns a permutation of its
    input, whatever the contents and whether it is enabled or not. *)
Theorem X5_rerank_is_permutation
    {T : Type} `{EqDecision T} (item : T → MMR.MMRItem)
    (items : list T) (config : MMR.PartialMMRConfig) :
  NoDup items → finiteScores item items →
  spreadFits (λ x, MMR.score (item x)) items →
  MMR.lambda_opt config ≠ Some NaN →
  MMR.mmrRerank item items config ≡ₚ items.
Proof. intros Hnd Hfin _. by apply mmrRerank_Permutation. Qed.

Lemma X5_rerank_is_permutation_witness :
  MMR.mmrRerank Sample.abcItem [Sample.C; Sample.A; Sample.B] (Sample.config (Fin 0.3))
  ≡ₚ [Sample.C; Sample.A; Sample.B].
Proof.
  apply (X5_rerank_is_permutation Sample.abcItem [Sample.C; Sample.A; Sample.B]
           (Sample.config (Fin 0.3))).
  - repeat constructor; rewrite ?elem_of_cons, ?elem_of_nil; intuition discriminate.
  - intros x _. destruct x; reflexivity.
  - intros x y a b _ _ Ha Hb. apply fits_small.
    destruct x, y; simplify_eq/=; lra.
  - discriminate.
Defined.

(** X6: whatever the scores, the contents and the configuration are,
    [mmrRerank] returns items of its input, none more often than the input
    has it: nothing is invented and nothing is duplicated. *)
Theorem X6_rerank_never_invents_or_duplicates
    {T : Type} `{EqDecision T} (item : T → MMR.MMRItem)
    (items : list T) (config : MMR.PartialMMRConfig) :
  MMR.mmrRerank item items config ⊆+ items.
Proof. apply mmrRerank_submseteq. Qed.

(** X7: for distinct items with finite scores whose range does not overflow
    and a [lambda] that is a number, the enabled stage puts in front the first
    item of the largest score, whatever the contents and whatever [lambda]. *)
Theorem X7_rerank_starts_with_top_score
    {T : Type} `{EqDecision T} (item : T → MMR.MMRItem)
    (items : list T) (config : MMR.PartialMMRConfig) :
  default (MMR.enabled MMR.DEFAULT_MMR_CONFIG) (MMR.enabled_opt config) = true →
  NoDup items → finiteScores item items →
  spreadFits (λ x, MMR.score (item x)) items →
  MMR.lambda_opt config ≠ Some NaN →
  head (MMR.mmrRerank item items config) = firstMax item items.
Proof. intros Hen Hnd Hfin _. by apply mmrRerank_head. Qed.

Lemma X7_rerank_starts_with_top_score_witness :
  head (MMR.mmrRerank Sample.abcItem [Sample.C; Sample.A; Sample.B]
          (Sample.config (Fin 0)))
  = firstMax Sample.abcItem [Sample.C; Sample.A; Sample.B].
Proof.
  apply (X7_rerank_starts_with_top_score Sample.abcItem [Sample.C; Sample.A; Sample.B]
           (Sample.config (Fin 0))).
  - reflexivity.
  - repeat constructor; rewrite ?elem_of_cons, ?elem_of_nil; intuition discriminate.
  - intros x _. destruct x; reflexivity.
  - intros x y a b _ _ Ha Hb. apply fits_small.
    destruct x, y; simplify_eq/=; lra.
  - discriminate.
Defined.

(** X8: where the items have distinct ids and finite scores whose range
    does not overflow, and all pairs of distinct items are equally similar (no
    two share a token, or all have the same tokens), the enabled stage returns
    the items sorted by descending score, for every [lambda] that is a number:
    the diversity penalty then never changes the order. *)
Theorem X8_equally_similar_items_are_sorted
    {T : Type} `{EqDecision T} (item : T → MMR.MMRItem)
    (items : list T) (config : MMR.PartialMMRConfig) (sigma : R) :
  default (MMR.enabled MMR.DEFAULT_MMR_CONFIG) (MMR.enabled_opt config) = true →
  NoDup ((λ t, MMR.id (item t)) <$> items) → finiteScores item items →
  spreadFits (λ x, MMR.score (item x)) items →
  MMR.lambda_opt config ≠ Some NaN →
  (∀ x y, x ∈ items → y ∈ items → x ≠ y →
     MMR.textSimilarity (MMR.content (item x)) (MMR.content (item y)) = Fin sigma) →
  MMR.mmrRerank item items config = MMR.toSorted (MMR.byScoreDesc item) items.
Proof. intros Hen Hnd Hfin _. by apply mmrRerank_uniform. Qed.

Lemma X8_equally_similar_items_are_sorted_witness :
  MMR.mmrRerank Diverse.item [Diverse.Pets; Diverse.Physics; Diverse.Tea]
    (Sample.config (Fin 0.2))
  = MMR.toSorted (MMR.byScoreDesc Diverse.item) [Diverse.Pets; Diverse.Physics; Diverse.Tea].
Proof.
  apply (X8_equally_similar_items_are_sorted Diverse.item
           [Diverse.Pets; Diverse.Physics; Diverse.Tea] (Sample.config (Fin 0.2)) 0).
  - reflexivity.
  - repeat constructor; rewrite ?elem_of_cons, ?elem_of_nil; intuition discriminate.
  - intros x _. destruct x; reflexivity.
  - intros x y a b _ _ Ha Hb. apply fits_small.
    destruct x, y; simplify_eq/=; lra.
  - discriminate.
  - intros x y _ _ Hxy. destruct x, y; try done; r_compute; f_equal; lra.
Defined.

(** X9: for results with finite scores whose range does not overflow and a
    [lambda] that is a number, [applyMMRToHybridResults] returns a permutation
    of the results and finds every one of them again, also when results have
    the same path and start line: the position in the batch keeps their ids
    apart. *)
Theorem X9_adapter_is_permutation
    {T : Type} (fields : T → Hybrid.HybridResult)
    (results : list T) (config : MMR.PartialMMRConfig) :
  (∀ r, r ∈ results → Num.isFinite (Hybrid.score (fields r)) = true) →
  spreadFits (λ r, Hybrid.score (fields r)) results →
  MMR.lambda_opt config ≠ Some NaN →
  MMR.applyMMRToHybridResults fields results config ≡ₚ Some <$> results.
Proof. intros Hfin _. by apply AdapterFacts.applyMMRToHybridResults_Permutation. Qed.

Lemma X9_adapter_is_permutation_witness :
  MMR.applyMMRToHybridResults Sample.abcResult [Sample.A; Sample.A; Sample.B]
    (Sample.config (Fin 0.5))
  ≡ₚ [Some Sample.A; Some Sample.A; Some Sample.B].
Proof.
  apply (X9_adapter_is_permutation Sample.abcResult [Sample.A; Sample.A; Sample.B]
           (Sample.config (Fin 0.5))).
  - intros x _. destruct x; reflexivity.
  - intros x y a b _ _ Ha Hb. apply fits_small.
    destruct x, y; simplify_eq/=; lra.
  - discriminate.
Defined.

(** X10: whatever the scores, the contents and the configuration are,
    [applyMMRToHybridResults] returns results of its input, none more often
    than the input has it; the lookup by id never misses. *)
Theorem X10_adapter_never_invents_or_loses_track
    {T : Type} (fields : T → Hybrid.HybridResult)
    (results : list T) (config : MMR.PartialMMRConfig) :
  MMR.applyMMRToHybridResults fields results config ⊆+ Some <$> results.
Proof. apply applyMMRToHybridResults_submseteq. Qed.

(** ** The decay stage on a batch *)

(** The cache keys of the sample notes are unambiguous. *)
Lemma notes_keys (e e' : Notes.note) :
  keyOf Notes.fields e = keyOf Notes.fields e' →
  Hybrid.source (Notes.fields e) = Hybrid.source (Notes.fields e')
  ∧ Hybrid.path (Notes.fields e) = Hybrid.path (Notes.fields e').
Proof.
  intros Hkey.
  destruct e, e'; first [split; reflexivity | vm_compute in Hkey; discriminate].
Qed.

(** X13: the output of the decay stage has the results of the input in
    their order, each as itself or as a rescored copy of itself, enabled or
    not and whatever the lookups give. *)
Theorem X13_decay_keeps_order
    (isAbsolute : string → bool) (resolve : string → string → string)
    (stat : string → option number) (clock : number)
    {T : Type} (fields : T → Hybrid.HybridResult) (params : TemporalDecay.Params T) :
  outputEntry
    <$> (TemporalDecay.applyTemporalDecayToHybridResults isAbsolute resolve stat clock
           fields params).1
  = TemporalDecay.results params.
Proof. apply batch_entries. Qed.

(** X14: the timestamp cache cannot be seen in the output of a batch in
    which no two results with different sources or paths have the same cache
    key: every result gets what its own timestamp gives, as if
    [extractTimestamp] were called for each. *)
Theorem X14_cache_is_transparent
    (isAbsolute : string → bool) (resolve : string → string → string)
    (stat : string → option number) (clock : number)
    {T : Type} (fields : T → Hybrid.HybridResult) (params : TemporalDecay.Params T) :
  TemporalDecay.enabled (TemporalDecay.mergeConfig (TemporalDecay.temporalDecay params)) = true →
  (∀ e e', e ∈ TemporalDecay.results params → e' ∈ TemporalDecay.results params →
     keyOf fields e = keyOf fields e' →
     Hybrid.source (fields e) = Hybrid.source (fields e')
     ∧ Hybrid.path (fields e) = Hybrid.path (fields e')) →
  (TemporalDecay.applyTemporalDecayToHybridResults isAbsolute resolve stat clock fields
     params).1
  = (λ e, outputFor fields (TemporalDecay.mergeConfig (TemporalDecay.temporalDecay params))
            (default clock (TemporalDecay.nowMs params)) e
            (TemporalDecay.extractTimestamp isAbsolute resolve stat
               (Hybrid.path (fields e)) (Some (Hybrid.source (fields e)))
               (TemporalDecay.workspaceDir params)).1)
    <$> TemporalDecay.results params.
Proof. apply batch_transparent. Qed.

Lemma X14_cache_is_transparent_witness :
  (TemporalDecay.applyTemporalDecayToHybridResults (λ _, false)
     (λ dir p, dir +:+ "/" +:+ p) (λ _, None) (Fin 0) Notes.fields
     (Notes.params [Notes.Daily; Notes.Root; Notes.Daily] None)).1
  = (λ e, outputFor Notes.fields
            (TemporalDecay.mkTemporalDecayConfig true (Fin 30)) (Fin 1706659200000) e
            (TemporalDecay.extractTimestamp (λ _, false) (λ dir p, dir +:+ "/" +:+ p)
               (λ _, None) (Hybrid.path (Notes.fields e))
               (Some (Hybrid.source (Notes.fields e))) None).1)
    <$> [Notes.Daily; Notes.Root; Notes.Daily].
Proof.
  apply (X14_cache_is_transparent (λ _, false) (λ dir p, dir +:+ "/" +:+ p) (λ _, None)
           (Fin 0) Notes.fields (Notes.params [Notes.Daily; Notes.Root; Notes.Daily] None)).
  - reflexivity.
  - intros e e' _ _. apply notes_keys.
Defined.

(** X15: the last-modified lookup is made once per cache key at most: a
    batch makes no more lookups than its results have distinct keys; and the
    disabled stage makes none. *)
Theorem X15_lookups_once_per_key
    (isAbsolute : string → bool) (resolve : string → string → string)
    (stat : string → option number) (clock : number)
    {T : Type} (fields : T → Hybrid.HybridResult) (params : TemporalDecay.Params T) :
  let lookups :=
    (TemporalDecay.applyTemporalDecayToHybridResults isAbsolute resolve stat clock
       fields params).2 in
  length lookups
  ≤ size (list_to_set (keyOf fields <$> TemporalDecay.results params) : gset string)
  ∧ (TemporalDecay.enabled (TemporalDecay.mergeConfig (TemporalDecay.temporalDecay params))
     = false → lookups = []).
Proof.
  intros lookups. split; [apply batch_lookups|].
  intros Hen. unfold lookups. by rewrite batch_disabled.
Qed.

Lemma X15_lookups_once_per_key_witness :
  (TemporalDecay.applyTemporalDecayToHybridResults (λ _, false)
     (λ dir p, dir +:+ "/" +:+ p) (λ _, Some (Fin 0)) (Fin 0) Notes.fields
     (TemporalDecay.mkParams [Notes.Session; Notes.Session]
        (Some (TemporalDecay.mkPartialTemporalDecayConfig None (Some (Fin 30))))
        (Some "/work"%string) None)).2 = [].
Proof.
  apply (X15_lookups_once_per_key (λ _, false) (λ dir p, dir +:+ "/" +:+ p)
           (λ _, Some (Fin 0)) (Fin 0) Notes.fields
           (TemporalDecay.mkParams [Notes.Session; Notes.Session]
              (Some (TemporalDecay.mkPartialTemporalDecayConfig None (Some (Fin 30))))
              (Some "/work"%string) None)).
  reflexivity.
Defined.

(** ** Timestamps *)

(** X17: a date is read from a path only where the path, with backslashes
    turned into slashes and a leading [./] dropped, ends in
    [memory/YYYY-MM-DD.md] at its start or behind a slash; the date read is
    the valid calendar date written there, at UTC midnight; and such a path is
    never evergreen. *)
Theorem X17_date_read_is_the_date_written (filePath : string) (date : Date) :
  TemporalDecay.parseMemoryDateFromPath filePath = Some date →
  (∃ dir Y M D t,
     TemporalDecay.normalizePath filePath = dir +:+ datedTail Y M D
     ∧ dateGroups Y M D
     ∧ (dir = ""%string ∨ ∃ p, dir = p +:+ "/"%string)
     ∧ date = DateAt t
     ∧ JSDate.validDate (TemporalDecay.digitsToZ Y) (TemporalDecay.digitsToZ M)
         (TemporalDecay.digitsToZ D)
     ∧ (t mod JSDate.msPerDay = 0)%Z
     ∧ JSDate.YearFromTime t = TemporalDecay.digitsToZ Y
     ∧ JSDate.MonthFromTime t = (TemporalDecay.digitsToZ M - 1)%Z
     ∧ JSDate.DateFromTime t = TemporalDecay.digitsToZ D)
  ∧ TemporalDecay.isEvergreenMemoryPath filePath = false.
Proof.
  intros Hparse. split; [by apply parse_sound|].
  destruct (TemporalDecay.isEvergreenMemoryPath filePath) eqn:Hever; [|done].
  apply isEvergreen_no_date in Hever. congruence.
Qed.

Lemma X17_date_read_is_the_date_written_witness :
  (∃ dir Y M D t,
     TemporalDecay.normalizePath ".\notes\memory\2024-02-29.md" = dir +:+ datedTail Y M D
     ∧ dateGroups Y M D
     ∧ (dir = ""%string ∨ ∃ p, dir = p +:+ "/"%string)
     ∧ DateAt 1709164800000 = DateAt t
     ∧ JSDate.validDate (TemporalDecay.digitsToZ Y) (TemporalDecay.digitsToZ M)
         (TemporalDecay.digitsToZ D)
     ∧ (t mod JSDate.msPerDay = 0)%Z
     ∧ JSDate.YearFromTime t = TemporalDecay.digitsToZ Y
     ∧ JSDate.MonthFromTime t = (TemporalDecay.digitsToZ M - 1)%Z
     ∧ JSDate.DateFromTime t = TemporalDecay.digitsToZ D)
  ∧ TemporalDecay.isEvergreenMemoryPath ".\notes\memory\2024-02-29.md" = false.
Proof.
  apply (X17_date_read_is_the_date_written ".\notes\memory\2024-02-29.md"
           (DateAt 1709164800000)).
  vm_compute. reflexivity.
Defined.

(** X18: in a batch in which no two results with different sources or paths
    have the same cache key, a result of source [memory] whose path is
    evergreen ([MEMORY.md], [memory.md], or a file under [memory/] that is not
    a dated file) is returned as the same object, whatever the time, the
    half-life, the workspace directory and the file system are. *)
Theorem X18_evergreen_result_is_kept
    (isAbsolute : string → bool) (resolve : string → string → string)
    (stat : string → option number) (clock : number)
    {T : Type} (fields : T → Hybrid.HybridResult)
    (params : TemporalDecay.Params T) (i : nat) (entry : T) :
  TemporalDecay.enabled (TemporalDecay.mergeConfig (TemporalDecay.temporalDecay params)) = true →
  (∀ e e', e ∈ TemporalDecay.results params → e' ∈ TemporalDecay.results params →
     keyOf fields e = keyOf fields e' →
     Hybrid.source (fields e) = Hybrid.source (fields e')
     ∧ Hybrid.path (fields e) = Hybrid.path (fields e')) →
  TemporalDecay.results params !! i = Some entry →
  Hybrid.source (fields entry) = "memory"%string →
  TemporalDecay.isEvergreenMemoryPath (Hybrid.path (fields entry)) = true →
  (TemporalDecay.applyTemporalDecayToHybridResults isAbsolute resolve stat clock fields
     params).1 !! i = Some (TemporalDecay.Kept entry).
Proof. apply evergreen_kept_where_keys_unambiguous. Qed.

Lemma X18_evergreen_result_is_kept_witness :
  (TemporalDecay.applyTemporalDecayToHybridResults (λ _, false)
     (λ dir p, dir +:+ "/" +:+ p) (λ _, Some (Fin 0)) (Fin 0) Notes.fields
     (Notes.params [Notes.Daily; Notes.Topic; Notes.Root] (Some "/work"%string))).1
    !! 1%nat
  = Some (TemporalDecay.Kept Notes.Topic).
Proof.
  apply (X18_evergreen_result_is_kept (λ _, false) (λ dir p, dir +:+ "/" +:+ p)
           (λ _, Some (Fin 0)) (Fin 0) Notes.fields
           (Notes.params [Notes.Daily; Notes.Topic; Notes.Root] (Some "/work"%string))
           1 Notes.Topic).
  - reflexivity.
  - intros e e' _ _. apply notes_keys.
  - reflexivity.
  - reflexivity.
  - vm_compute. reflexivity.
Defined.

(** X19: without a workspace directory (none, or the empty string) the decay
    stage never asks for a last-modified time, whatever the batch; and in a
    batch in which no two results with different sources or paths have the
    same cache key, every result whose path has no date is then returned as
    the same object. *)
Theorem X19_no_workspace_no_lookup
    (isAbsolute : string → bool) (resolve : string → string → string)
    (stat : string → option number) (clock : number)
    {T : Type} (fields : T → Hybrid.HybridResult) (params : TemporalDecay.Params T) :
  TemporalDecay.workspaceDir params = None
  ∨ TemporalDecay.workspaceDir params = Some ""%string →
  (TemporalDecay.applyTemporalDecayToHybridResults isAbsolute resolve stat clock fields
     params).2 = []
  ∧ (TemporalDecay.enabled (TemporalDecay.mergeConfig (TemporalDecay.temporalDecay params))
     = true →
     (∀ e e', e ∈ TemporalDecay.results params → e' ∈ TemporalDecay.results params →
        keyOf fields e = keyOf fields e' →
        Hybrid.source (fields e) = Hybrid.source (fields e')
        ∧ Hybrid.path (fields e) = Hybrid.path (fields e')) →
     ∀ i entry,
       TemporalDecay.results params !! i = Some entry →
       TemporalDecay.parseMemoryDateFromPath (Hybrid.path (fields entry)) = None →
       (TemporalDecay.applyTemporalDecayToHybridResults isAbsolute resolve stat clock
          fields params).1 !! i = Some (TemporalDecay.Kept entry)).
Proof.
  intros Hdir. split; [by apply batch_no_dir|].
  intros Hen Hkeys i entry Hi Hparse.
  by apply undated_kept_where_keys_unambiguous.
Qed.

Lemma X19_no_workspace_no_lookup_witness :
  (TemporalDecay.applyTemporalDecayToHybridResults (λ _, true)
     (λ dir p, dir +:+ "/" +:+ p) (λ _, Some (Fin 0)) (Fin 0) Notes.fields
     (Notes.params [Notes.Session; Notes.Daily] (Some ""%string))).2 = []
  ∧ (TemporalDecay.applyTemporalDecayToHybridResults (λ _, true)
       (λ dir p, dir +:+ "/" +:+ p) (λ _, Some (Fin 0)) (Fin 0) Notes.fields
       (Notes.params [Notes.Session; Notes.Daily] (Some ""%string))).1 !! 0%nat
    = Some (TemporalDecay.Kept Notes.Session).
Proof.
  destruct (X19_no_workspace_no_lookup (λ _, true) (λ dir p, dir +:+ "/" +:+ p)
              (λ _, Some (Fin 0)) (Fin 0) Notes.fields
              (Notes.params [Notes.Session; Notes.Daily] (Some ""%string)))
    as [Hlookups Hkept].
  { right. reflexivity. }
  split; [exact Hlookups|].
  apply Hkept.
  - reflexivity.
  - intros e e' _ _. apply notes_keys.
  - reflexivity.
  - vm_compute. reflexivity.
Defined.

(** ** Scores of candidates *)

(** X20: the relevance of an item of a batch with finite scores whose range
    does not overflow is normalised to a number between 0 and 1, and for a
    trade-off parameter in [0, 1] its MMR score lies between -1 and [lambda],
    whatever has been selected. *)
Theorem X20_mmr_score_range
    {T : Type} `{EqDecision T} (item : T → MMR.MMRItem)
    (items selected : list T) (candidate : T) (lambda : R)
    (tokenCache : gmap string (gset string)) :
  finiteScores item items → spreadFits (λ x, MMR.score (item x)) items →
  candidate ∈ items → (0 <= lambda <= 1)%R →
  let minScore := Num.minList (map (λ i, MMR.score (item i)) items) in
  let maxScore := Num.maxList (map (λ i, MMR.score (item i)) items) in
  ∃ relevance v,
    MMR.normalizeScore minScore (maxScore - minScore)%num (MMR.score (item candidate))
    = Fin relevance
    ∧ (0 <= relevance <= 1)%R
    ∧ MMR.computeMMRScore (Fin relevance)
        (MMR.maxSimilarityToSelected item candidate selected tokenCache) (Fin lambda)
      = Fin v
    ∧ (-1 <= v <= lambda)%R.
Proof.
  intros Hfin _ Hin Hl minScore maxScore.
  destruct (NormalFacts.mmrScore_range item items selected candidate lambda tokenCache
              Hfin Hin Hl) as (relevance & v & Hn & Hr & Hv & Hb).
  exists relevance, v. repeat split; try done; lra.
Qed.

Lemma X20_mmr_score_range_witness :
  ∃ relevance v,
    MMR.normalizeScore
      (Num.minList (map (λ i, MMR.score (Sample.abcItem i)) [Sample.A; Sample.B; Sample.C]))
      (Num.maxList (map (λ i, MMR.score (Sample.abcItem i)) [Sample.A; Sample.B; Sample.C])
       - Num.minList (map (λ i, MMR.score (Sample.abcItem i)) [Sample.A; Sample.B; Sample.C]))%num
      (MMR.score (Sample.abcItem Sample.B))
    = Fin relevance
    ∧ (0 <= relevance <= 1)%R
    ∧ MMR.computeMMRScore (Fin relevance)
        (MMR.maxSimilarityToSelected Sample.abcItem Sample.B [Sample.A] Sample.cacheABC)
        (Fin 0.5)
      = Fin v
    ∧ (-1 <= v <= 0.5)%R.
Proof.
  apply (X20_mmr_score_range Sample.abcItem [Sample.A; Sample.B; Sample.C] [Sample.A]
           Sample.B 0.5 Sample.cacheABC).
  - intros x _. destruct x; reflexivity.
  - intros x y a b _ _ Ha Hb. apply fits_small.
    destruct x, y; simplify_eq/=; lra.
  - right. left.
  - lra.
Defined.

(** ** Unusable settings *)

(** X22: where the half-life is not a finite positive number, or the time
    taken as now is [NaN] or [+Infinity], the enabled decay stage leaves every
    score as it is, whatever timestamps are found. *)
Theorem X22_unusable_settings_change_no_score
    (isAbsolute : string → bool) (resolve : string → string → string)
    (stat : string → option number) (clock : number)
    {T : Type} (fields : T → Hybrid.HybridResult) (params : TemporalDecay.Params T) :
  let halfLifeDays :=
    TemporalDecay.halfLifeDays (TemporalDecay.mergeConfig (TemporalDecay.temporalDecay params)) in
  let now := default clock (TemporalDecay.nowMs params) in
  Num.isFinite halfLifeDays = false ∨ (halfLifeDays <=? Fin 0)%num = true
  ∨ now = NaN ∨ now = PosInf →
  TemporalDecay.outputScore fields
    <$> (TemporalDecay.applyTemporalDecayToHybridResults isAbsolute resolve stat clock
           fields params).1
  = (λ e, Hybrid.score (fields e)) <$> TemporalDecay.results params.
Proof.
  intros halfLifeDays now Hbad. apply batch_neutral. intros t.
  destruct Hbad as [Hh | [Hh | Hnow]].
  - apply multiplier_neutral. by left.
  - apply multiplier_neutral. by right.
  - by apply multiplier_unusable_now.
Qed.

Lemma X22_unusable_settings_change_no_score_witness :
  TemporalDecay.outputScore Notes.fields
    <$> (TemporalDecay.applyTemporalDecayToHybridResults (λ _, false)
           (λ dir p, dir +:+ "/" +:+ p) (λ _, None) (Fin 0) Notes.fields
           (TemporalDecay.mkParams [Notes.Daily; Notes.Root]
              (Some (TemporalDecay.mkPartialTemporalDecayConfig (Some true) (Some (Fin 0))))
              None (Some (Fin 1706659200000)))).1
  = [Fin 1; Fin 0.8].
Proof.
  apply (X22_unusable_settings_change_no_score (λ _, false) (λ dir p, dir +:+ "/" +:+ p)
           (λ _, None) (Fin 0) Notes.fields
           (TemporalDecay.mkParams [Notes.Daily; Notes.Root]
              (Some (TemporalDecay.mkPartialTemporalDecayConfig (Some true) (Some (Fin 0))))
              None (Some (Fin 1706659200000)))).
  right. left. cbn. rewrite le_Fin. apply bool_decide_eq_true_2. lra.
Defined.
